(** * Sink: a shared spreadsheet with an authoritative server

    A shallow embedding of the TypeScript sources of Sink (the table model,
    the update taxonomy, the shift context, the server and the client) and
    the properties of them that the design document states.

    Conventions of the embedding.
    - A JavaScript [Map] keeps its entries in insertion order; it is a list
      of key/value pairs ([JSMap]).
    - A JavaScript [Set] that is only tested for membership is a [gset]; the
      set of connected clients, which is iterated, is a list.
    - An ordinary object that is filled by assignments is the list of its
      own properties in the order of [Object.keys] ([JSObject]).
    - An array index ([Index], the bookkeeping of the updates) is an integer
      of [Z]; a version is a natural number.
    - Objects are values: a method that mutates its receiver returns the
      new value, a method that may throw returns an [outcome].
    - The number type of JavaScript and the built-in functions on it are
      parameters of the development ([JSNumber]). *)

From Stdlib Require Import Ascii.
From stdpp Require Import base strings list gmap pretty.

#[local] Open Scope string_scope.
#[local] Open Scope list_scope.
#[local] Open Scope Z_scope.

(** ** JavaScript values *)

(** The IEEE doubles of JavaScript with the four built-ins the sources use
    on them: [isNaN], [parseFloat] on a string, [Number.prototype.toString]
    and [JSON.stringify] on a number. *)
Class JSNumber (number : Type) := {
  isNaN : number -> bool;
  parseFloatString : string -> number;
  numberToString : number -> string;
  stringifyNumber : number -> string
}.

(** What a throwing method throws. *)
Inductive Error :=
| TypeError
| ErrorMessage (message : string).

Inductive outcome (A : Type) :=
| Normal (a : A)
| Thrown (e : Error).
Arguments Normal {A} a.
Arguments Thrown {A} e.

Definition outcome_bind {A B} (o : outcome A) (f : A -> outcome B) : outcome B :=
  match o with
  | Normal a => f a
  | Thrown e => Thrown e
  end.

(** ** JSON.stringify on a string *)

Module JSON.

Definition quote_char : ascii := ascii_of_nat 34.
Definition backslash : ascii := ascii_of_nat 92.

Definition hex_digit (n : nat) : ascii :=
  if (n <? 10)%nat then ascii_of_nat (48 + n)%nat else ascii_of_nat (87 + n)%nat.

(** The escape of one character inside a JSON string literal. *)
Definition escape_char (c : ascii) : string :=
  let n := nat_of_ascii c in
  if (n =? 34)%nat then String backslash (String quote_char EmptyString)
  else if (n =? 92)%nat then String backslash (String backslash EmptyString)
  else if (n =? 8)%nat then String backslash "b"
  else if (n =? 12)%nat then String backslash "f"
  else if (n =? 10)%nat then String backslash "n"
  else if (n =? 13)%nat then String backslash "r"
  else if (n =? 9)%nat then String backslash "t"
  else if (n <? 32)%nat then
    String backslash
      (String "u" (String "0" (String "0"
        (String (hex_digit (n / 16)%nat) (String (hex_digit (n mod 16)%nat) EmptyString)))))
  else String c EmptyString.

Fixpoint escape (s : string) : string :=
  match s with
  | EmptyString => EmptyString
  | String c s' => escape_char c +:+ escape s'
  end.

(** [JSON.stringify(s)] for a string [s]. *)
Definition stringifyString (s : string) : string :=
  String quote_char (escape s +:+ String quote_char EmptyString).

End JSON.

(** A cell value: the sources store strings and numbers. *)
Inductive value (number : Type) :=
| VString (s : string)
| VNumber (x : number).
Arguments VString {number} s.
Arguments VNumber {number} x.

Section values.
Context {number : Type} `{!JSNumber number}.

(** [JSON.stringify(v)] for a cell value. *)
Definition stringify (v : value number) : string :=
  match v with
  | VString s => JSON.stringifyString s
  | VNumber x => stringifyNumber x
  end.

(** [parseFloat(v)]: the argument is first converted to a string. *)
Definition parseFloat (v : value number) : number :=
  match v with
  | VString s => parseFloatString s
  | VNumber x => parseFloatString (numberToString x)
  end.
End values.

(** ** Cell types (class [Type] of common/spreadsheet/type.ts) *)

Inductive CellType := Number | Text.

#[global] Instance CellType_eq_dec : EqDecision CellType.
Proof. solve_decision. Defined.

Module CellType.
Section coerce.
Context {number : Type} `{!JSNumber number}.

(** [None] is JavaScript's [undefined], for the argument and for the
    result. *)
Definition coerce (this : CellType) (v : option (value number)) : option (value number) :=
  match v with
  | None => None
  | Some v =>
      match this with
      | Text => Some (VString (stringify v))
      | Number =>
          let result := parseFloat v in
          if isNaN result then None else Some (VNumber result)
      end
  end.
End coerce.

Definition toString (this : CellType) : string :=
  match this with
  | Text => "text"
  | Number => "number"
  end.
End CellType.

(** ** Insertion-ordered maps *)

Module JSMap.
Abbreviation t K V := (list (K * V)).

Section ops.
Context {K V : Type} `{EqDecision K}.

Fixpoint get (k : K) (m : t K V) : option V :=
  match m with
  | [] => None
  | (k', v) :: m' => if decide (k' = k) then Some v else get k m'
  end.

Definition has (k : K) (m : t K V) : bool :=
  match get k m with Some _ => true | None => false end.

(** An existing key keeps its position, a new key goes last. *)
Fixpoint set (k : K) (v : V) (m : t K V) : t K V :=
  match m with
  | [] => [(k, v)]
  | (k', v') :: m' =>
      if decide (k' = k) then (k, v) :: m' else (k', v') :: set k v m'
  end.

Definition delete (k : K) (m : t K V) : t K V :=
  filter (fun entry => entry.1 <> k) m.

Definition keys (m : t K V) : list K := m.*1.
End ops.
End JSMap.

(** ** Ordinary objects *)

(** An object whose prototype is [Object.prototype] and whose own
    properties hold primitive values: the list of its own properties in the
    order in which [JSON.stringify] and [Object.keys] visit them, the keys
    that are array indices first, ascending, then the other keys in the
    order of their creation. *)
Module JSObject.
Abbreviation t V := (list (string * V)).

(** The number that a string of decimal digits writes. *)
Fixpoint digitsValue (s : string) (acc : N) : option N :=
  match s with
  | EmptyString => Some acc
  | String c s' =>
      let n := N_of_ascii c in
      if ((48 <=? n) && (n <=? 57))%N then digitsValue s' (10 * acc + (n - 48))%N
      else None
  end.

(** An array index: the canonical decimal writing of an integer from 0 to
    2^32 - 2. *)
Definition arrayIndex (key : string) : option N :=
  match key with
  | EmptyString => None
  | String "0" EmptyString => Some 0%N
  | String "0" _ => None
  | _ =>
      match digitsValue key 0 with
      | Some n => if (n <=? 4294967294)%N then Some n else None
      | None => None
      end
  end.

Section ops.
Context {V : Type}.

(** A new property under the array index [i]: after the smaller indices. *)
Fixpoint insertIndex (i : N) (key : string) (v : V) (this : t V) : t V :=
  match this with
  | [] => [(key, v)]
  | (key', v') :: this' =>
      match arrayIndex key' with
      | Some j =>
          if (j <? i)%N then (key', v') :: insertIndex i key v this'
          else (key, v) :: this
      | None => (key, v) :: this
      end
  end.

(** The own property [key] gets the value: a property that exists keeps
    its place. *)
Definition defineOwn (key : string) (v : V) (this : t V) : t V :=
  if JSMap.has key this then JSMap.set key v this
  else
    match arrayIndex key with
    | Some i => insertIndex i key v this
    | None => this ++ [(key, v)]
    end.

(** [this[key] = v]. Under the key [__proto__] the assignment calls the
    setter that [Object.prototype] has for it, which does nothing with a
    value that is neither an object nor null; under every other key it
    makes or writes an own property. *)
Definition set (key : string) (v : V) (this : t V) : t V :=
  if decide (key = "__proto__") then this else defineOwn key v this.

(** [{ [key]: v }]: a computed key defines an own property, also under
    [__proto__]. *)
Definition singleton (key : string) (v : V) : t V := [(key, v)].

(** [Object.assign(target, ...sources)] *)
Definition assign (target : t V) (sources : list (t V)) : t V :=
  fold_left
    (fun target source =>
       fold_left (fun target property => set property.1 property.2 target)
         source target)
    sources target.
End ops.
End JSObject.

(** ** Array.prototype.splice *)

Section splice.
Context {A : Type}.

(** The start position, resolved against the length: a negative start
    counts from the end, and the result is clamped to [0, len]. *)
Definition splice_start (start : Z) (len : nat) : nat :=
  if start <? 0 then Z.to_nat (Z.max (Z.of_nat len + start) 0)
  else Z.to_nat (Z.min start (Z.of_nat len)).

Definition splice_count (deleteCount : Z) (len actualStart : nat) : nat :=
  Z.to_nat (Z.min (Z.max deleteCount 0) (Z.of_nat len - Z.of_nat actualStart)).

(** [splice start deleteCount items l] is the pair of the removed
    elements (the result of the call) and of the array afterwards. *)
Definition splice (start deleteCount : Z) (items l : list A) : list A * list A :=
  let a := splice_start start (length l) in
  let d := splice_count deleteCount (length l) a in
  (take d (drop a l), take a l ++ items ++ drop (a + d)%nat l).
End splice.

(** ** Tables (class [Table] of common/spreadsheet/table.ts) *)

Abbreviation RowID := string.
Abbreviation ColumnID := string.
Abbreviation Index := Z.

(** The tree that [JSON.stringify] renders. An object is the list of its
    properties in the order in which they are rendered. *)
#[local] Unset Elimination Schemes.
Inductive json (number : Type) :=
| JString (s : string)
| JNumber (x : number)
| JArray (items : list (json number))
| JObject (properties : list (string * json number)).
#[local] Set Elimination Schemes.
Arguments JString {number} s.
Arguments JNumber {number} x.
Arguments JArray {number} items.
Arguments JObject {number} properties.

Module Table.
Section table.
Context {number : Type} `{!JSNumber number}.

(** The field [rows] of the class, the map from a row to its position
    in [order], is a cache: the class starts with both empty, [copy]
    copies both, and every method that changes [order] calls
    [computeRowMap] before it returns. It is the function [rows] of
    [order] here. *)
Record t := {
  cells : JSMap.t RowID (JSMap.t ColumnID (value number));
  columns : JSMap.t ColumnID CellType;
  order : list RowID
}.

Definition empty : t := {| cells := []; columns := []; order := [] |}.

Fixpoint computeRowMap_from (index : Index) (order : list RowID)
    (rows : JSMap.t RowID Index) : JSMap.t RowID Index :=
  match order with
  | [] => rows
  | rowID :: order' =>
      computeRowMap_from (index + 1) order' (JSMap.set rowID index rows)
  end.

Definition computeRowMap (order : list RowID) : JSMap.t RowID Index :=
  computeRowMap_from 0 order [].

Definition rows (this : t) : JSMap.t RowID Index := computeRowMap (order this).

(** The copy holds the same entries in fresh maps and a fresh array. *)
Definition copy (this : t) : t :=
  {| cells := cells this; columns := columns this; order := order this |}.

Definition ColumnOutput (id type : string) : json number :=
  JObject [("id", JString id); ("type", JString type)].

Definition RowOutput (id : string) (cellValuesByColumnId : json number) : json number :=
  JObject [("id", JString id); ("cellValuesByColumnId", cellValuesByColumnId)].

Definition jsonValue (v : value number) : json number :=
  match v with
  | VString s => JString s
  | VNumber x => JNumber x
  end.

(** [Object.assign({}, ...Array.from(row).map(([columnID, cell]) =>
    ({ [columnID]: cell })))], as [JSON.stringify] renders it. *)
Definition cellValuesByColumnId (row : JSMap.t ColumnID (value number)) : json number :=
  JObject
    (map (fun property => (property.1, jsonValue property.2))
       (JSObject.assign []
          (map (fun entry => JSObject.singleton entry.1 entry.2) row))).

(** [Array.from(undefined)] throws a [TypeError]. *)
Definition serializeRow (this : t) (rowID : RowID) : outcome (json number) :=
  match JSMap.get rowID (cells this) with
  | None => Thrown TypeError
  | Some row => Normal (RowOutput rowID (cellValuesByColumnId row))
  end.

Fixpoint serializeRows (this : t) (order : list RowID) : outcome (list (json number)) :=
  match order with
  | [] => Normal []
  | rowID :: order' =>
      outcome_bind (serializeRow this rowID) (fun row =>
      outcome_bind (serializeRows this order') (fun rows' =>
      Normal (row :: rows')))
  end.

Definition serializeColumns (this : t) : list (json number) :=
  map (fun entry => ColumnOutput entry.1 (CellType.toString entry.2)) (columns this).

Definition serialize (this : t) : outcome (json number) :=
  outcome_bind (serializeRows this (order this)) (fun rows =>
  Normal (JObject [("columns", JArray (serializeColumns this));
                   ("rows", JArray rows)])).
End table.
Arguments t : clear implicits.
End Table.

(** ** Shift contexts (common/editor/shiftContext.ts) *)

Inductive ShiftType := Insert | Delete.

Module ShiftRecord.
Record t := { type : ShiftType; index : Z }.
End ShiftRecord.

Module ShiftContext.
Record t := { shifts : list ShiftRecord.t }.

Definition new : t := {| shifts := [] |}.

Definition push (this : t) (record : ShiftRecord.t) : t :=
  {| shifts := shifts this ++ [record] |}.

Definition insertAt (this : t) (index : Z) : t :=
  push this {| ShiftRecord.type := Insert; ShiftRecord.index := index |}.

Definition deleteAt (this : t) (index : Z) : t :=
  push this {| ShiftRecord.type := Delete; ShiftRecord.index := index |}.

Definition move (this : t) (start end_ : Z) : t :=
  push (push this {| ShiftRecord.type := Delete; ShiftRecord.index := start |})
       {| ShiftRecord.type := Insert; ShiftRecord.index := end_ |}.

(** The body of the callback that [transform] passes to [forEach]. Its
    [return -1] leaves the callback, not [transform]: the index is as it
    was and the iteration goes on. *)
Definition transformStep (index : Z) (shift : ShiftRecord.t) : Z :=
  match ShiftRecord.type shift with
  | Insert => index + (if Z.leb (ShiftRecord.index shift) index then 1 else 0)
  | Delete =>
      if Z.eqb index (ShiftRecord.index shift) then index
      else index - (if Z.ltb (ShiftRecord.index shift) index then 1 else 0)
  end.

Definition transform (this : t) (index : Z) : Z :=
  fold_left transformStep (shifts this) index.
End ShiftContext.

(** ** Updates (common/editor/tableUpdate.ts) *)

(** The abstract class [TableUpdate]. [apply] mutates the table and the
    update (its bookkeeping) and returns a boolean or throws; [transform]
    mutates the update; [shift] mutates the context or throws. *)
Class TableUpdate (number U : Type) := {
  needsTransform : U -> bool;
  transform : U -> ShiftContext.t -> U;
  apply : U -> Table.t number -> Table.t number * U * outcome bool;
  shift : U -> ShiftContext.t -> outcome ShiftContext.t
}.

Section updates.
Context {number : Type} `{!JSNumber number}.

(** The eight subclasses with their private fields. [DestroyRow] and
    [MoveRow] carry the position that [apply] saves for [shift]. *)
Inductive Update :=
| CreateRow (rowID : RowID)
| DestroyRow (rowID : RowID) (index : Z)
| MoveRow (rowID : RowID) (targetIndex : Index) (start : Z)
| CreateColumn (columnID : ColumnID) (columnType : CellType)
| DestroyColumn (columnID : ColumnID)
| UpdateColumnType (columnID : ColumnID) (columnType : CellType)
| UpdateTextCellValue (rowID : RowID) (columnID : ColumnID) (cellValue : string)
| UpdateNumberCellValue (rowID : RowID) (columnID : ColumnID) (cellValue : number).

(** The constructors of the two classes with a saved position. *)
Definition newDestroyRow (rowID : RowID) : Update := DestroyRow rowID (-1).
Definition newMoveRow (rowID : RowID) (targetIndex : Index) : Update :=
  MoveRow rowID targetIndex (-1).

Definition withCells (table : Table.t number) cells : Table.t number :=
  {| Table.cells := cells; Table.columns := Table.columns table;
     Table.order := Table.order table |}.
Definition withColumns (table : Table.t number) columns : Table.t number :=
  {| Table.cells := Table.cells table; Table.columns := columns;
     Table.order := Table.order table |}.
Definition withOrder (table : Table.t number) order : Table.t number :=
  {| Table.cells := Table.cells table; Table.columns := Table.columns table;
     Table.order := order |}.

(** One round of the first loop of [UpdateColumnType.apply]. *)
Definition canCoerceStep (columnID : ColumnID) (columnType : CellType)
    (canCoerce : bool) (row : RowID * JSMap.t ColumnID (value number)) : bool :=
  match CellType.coerce columnType (JSMap.get columnID row.2) with
  | None => false
  | Some _ => canCoerce
  end.

(** One round of its second loop, which runs only when every round of the
    first found a coercion ([coerceRow_defined] below): the last case is
    not reached. *)
Definition coerceRow (columnID : ColumnID) (columnType : CellType)
    (row : RowID * JSMap.t ColumnID (value number)) : RowID * JSMap.t ColumnID (value number) :=
  match CellType.coerce columnType (JSMap.get columnID row.2) with
  | Some cell => (row.1, JSMap.set columnID cell row.2)
  | None => row
  end.

(** The body of [UpdateTextCellValue.apply] and of
    [UpdateNumberCellValue.apply], which differ in the type they ask of
    the column and in the value they store. *)
Definition applyCellValue (expected : CellType) (rowID : RowID)
    (columnID : ColumnID) (cellValue : value number) (table : Table.t number)
    : Table.t number * outcome bool :=
  match JSMap.get columnID (Table.columns table) with
  | None => (table, Normal false)
  | Some type =>
      match JSMap.get rowID (Table.rows table) with
      | None => (table, Normal false)
      | Some _ =>
          if decide (type = expected) then
            match JSMap.get rowID (Table.cells table) with
            | None => (table, Thrown TypeError)
            | Some rowColumns =>
                (withCells table
                   (JSMap.set rowID (JSMap.set columnID cellValue rowColumns)
                      (Table.cells table)),
                 Normal true)
            end
          else (table, Normal false)
      end
  end.

Definition Update_apply (this : Update) (table : Table.t number)
    : Table.t number * Update * outcome bool :=
  match this with
  | CreateRow rowID =>
      if JSMap.has rowID (Table.rows table) then (table, this, Normal false)
      else
        let table := withCells table (JSMap.set rowID [] (Table.cells table)) in
        let table := withOrder table (Table.order table ++ [rowID]) in
        (table, this, Normal true)
  | DestroyRow rowID _ =>
      match JSMap.get rowID (Table.rows table) with
      | None => (table, this, Normal false)
      | Some index =>
          let table := withCells table (JSMap.delete rowID (Table.cells table)) in
          let table := withOrder table (splice index 1 [] (Table.order table)).2 in
          (table, DestroyRow rowID index, Normal true)
      end
  | MoveRow rowID targetIndex _ =>
      match JSMap.get rowID (Table.rows table) with
      | None => (table, this, Normal false)
      | Some start =>
          let '(removed, order) := splice start 1 [] (Table.order table) in
          match removed with
          | moved :: _ =>
              let table := withOrder table (splice targetIndex 0 [moved] order).2 in
              (table, MoveRow rowID targetIndex start, Normal true)
          | [] =>
              (* not reached: [rows] gives a position of [order] *)
              (table, MoveRow rowID targetIndex start, Normal true)
          end
      end
  | CreateColumn columnID columnType =>
      if JSMap.has columnID (Table.columns table) then (table, this, Normal false)
      else
        (withColumns table (JSMap.set columnID columnType (Table.columns table)),
         this, Normal true)
  | DestroyColumn columnID =>
      if JSMap.has columnID (Table.columns table) then
        let table := withColumns table (JSMap.delete columnID (Table.columns table)) in
        let table :=
          withCells table
            (map (fun row => (row.1, JSMap.delete columnID row.2)) (Table.cells table)) in
        (table, this, Normal true)
      else (table, this, Normal false)
  | UpdateColumnType columnID columnType =>
      if JSMap.has columnID (Table.columns table) then
        let canCoerce :=
          fold_left (canCoerceStep columnID columnType) (Table.cells table) true in
        if canCoerce then
          (withCells table (map (coerceRow columnID columnType) (Table.cells table)),
           this, Normal true)
        else (table, this, Normal false)
      else (table, this, Normal false)
  | UpdateTextCellValue rowID columnID cellValue =>
      let '(table, result) :=
        applyCellValue Text rowID columnID (VString cellValue) table in
      (table, this, result)
  | UpdateNumberCellValue rowID columnID cellValue =>
      let '(table, result) :=
        applyCellValue Number rowID columnID (VNumber cellValue) table in
      (table, this, result)
  end.

(** No subclass overrides [needsTransform]: each inherits the method of
    [TableUpdate], which returns [false]. *)
Definition Update_needsTransform (this : Update) : bool := false.

(** Only [MoveRow] overrides [transform]. *)
Definition Update_transform (this : Update) (context : ShiftContext.t) : Update :=
  match this with
  | MoveRow rowID targetIndex start =>
      MoveRow rowID (ShiftContext.transform context targetIndex) start
  | _ => this
  end.

Definition Update_shift (this : Update) (context : ShiftContext.t)
    : outcome ShiftContext.t :=
  match this with
  | DestroyRow _ index =>
      if decide (index = -1) then Thrown (ErrorMessage "shift called before apply")
      else Normal (ShiftContext.deleteAt context index)
  | MoveRow _ targetIndex start =>
      if decide (start = -1) then Thrown (ErrorMessage "shift called before apply")
      else Normal (ShiftContext.move context start targetIndex)
  | _ => Normal context
  end.

#[export] Instance Update_TableUpdate : TableUpdate number Update := {|
  needsTransform := Update_needsTransform;
  transform := Update_transform;
  apply := Update_apply;
  shift := Update_shift
|}.
End updates.
Arguments Update : clear implicits.

(** ** Messages (common/editor/message.ts) *)

Abbreviation Version := nat.

(** Group and message identifiers are the strings that [UUIDV4()]
    returns. The [k]-th call returns the identifier [k]. *)
Abbreviation GroupID := nat.
Abbreviation MessageID := nat.

Module Message.
Record t (U : Type) := {
  version : Version;
  groupID : GroupID;
  update : U;
  UUID : MessageID
}.
Arguments version {U} _.
Arguments groupID {U} _.
Arguments update {U} _.
Arguments UUID {U} _.
Arguments Build_t {U} _ _ _ _.

Definition withVersion {U} (this : t U) (version : Version) : t U :=
  {| version := version; groupID := groupID this; update := update this;
     UUID := UUID this |}.
Definition withUpdate {U} (this : t U) (update : U) : t U :=
  {| version := version this; groupID := groupID this; update := update;
     UUID := UUID this |}.
End Message.

(** ** Client state and the methods the server calls (client.ts) *)

Module Client.
Section client.
Context {number : Type} `{!JSNumber number} {U : Type} `{!TableUpdate number U}.

(** The field [server] is left out: there is one server. *)
Record t := {
  table : Table.t number;
  outbox : list (Message.t U);
  groupID : GroupID;
  version : Version;
  online : bool
}.

Definition withOnline (this : t) (online : bool) : t :=
  {| table := table this; outbox := outbox this; groupID := groupID this;
     version := version this; online := online |}.
Definition withOutbox (this : t) outbox : t :=
  {| table := table this; outbox := outbox; groupID := groupID this;
     version := version this; online := online this |}.

(** [sync]; [uuid] is the number of identifiers drawn so far. *)
Definition sync (this : t) (table_ : Table.t number) (version_ : Version) (uuid : nat)
    : t * nat :=
  let '(groupID_, uuid) :=
    if decide (version this < version_)%nat then (uuid, S uuid)
    else (groupID this, uuid) in
  ({| table := table_; outbox := outbox this; groupID := groupID_;
      version := version_; online := online this |}, uuid).

(** [accepted]. The update of the message is the object that the
    server keeps in its history: what [apply] saves in it is returned
    with the message. *)
Definition accepted (this : t) (message : Message.t U) (uuid : nat)
    : t * Message.t U * nat * outcome unit :=
  if decide (Message.version message = S (version this)) then
    let '(table_, update, result) := apply (Message.update message) (table this) in
    let message := Message.withUpdate message update in
    match result with
    | Thrown e =>
        ({| table := table_; outbox := outbox this; groupID := groupID this;
            version := version this; online := online this |},
         message, uuid, Thrown e)
    | Normal _ =>
        ({| table := table_; outbox := outbox this; groupID := uuid;
            version := Message.version message; online := online this |},
         message, S uuid, Normal ())
    end
  else (this, message, uuid, Thrown (ErrorMessage "unexpected version")).

(** The loop of [getData] over the outbox,
    [this.outbox.forEach(item => item.update.apply(outTable))]. The
    callback returns what [apply] returns, and [forEach] of the [Queue] of
    typescript-collections stops when its callback returns false: the
    updates after the first one that fails are not applied. What [apply]
    saves in the update is overwritten when the server applies it and is
    not kept here. *)
Fixpoint applyOutbox (outbox_ : list (Message.t U)) (outTable : Table.t number)
    : outcome (Table.t number) :=
  match outbox_ with
  | [] => Normal outTable
  | item :: outbox' =>
      let '(outTable, _, result) := apply (Message.update item) outTable in
      outcome_bind result (fun success =>
        if success : bool then applyOutbox outbox' outTable else Normal outTable)
  end.

Definition getData (this : t) : outcome (json number) :=
  if online this then Table.serialize (table this)
  else
    outcome_bind (applyOutbox (outbox this) (Table.copy (table this)))
      Table.serialize.
End client.
Arguments t : clear implicits.
End Client.

(** ** Methods on a shared state *)

(** A method runs on the state [S] of the system, leaves a state and
    either returns or throws. What a method has written before it throws
    stays written. *)
Definition M (S A : Type) : Type := S -> S * outcome A.

Definition ret {S A} (a : A) : M S A := fun s => (s, Normal a).

Definition throw {S A} (e : Error) : M S A := fun s => (s, Thrown e).

Definition bind {S A B} (c : M S A) (f : A -> M S B) : M S B :=
  fun s =>
    match c s with
    | (s', Normal a) => f a s'
    | (s', Thrown e) => (s', Thrown e)
    end.

Definition gets {S A} (f : S -> A) : M S A := fun s => (s, Normal (f s)).

Definition modify {S} (f : S -> S) : M S unit := fun s => (f s, Normal ()).

Definition liftOutcome {S A} (o : outcome A) : M S A := fun s => (s, o).

Notation "'let*' x ':=' c1 'in' c2" := (bind c1 (fun x => c2))
  (at level 10, x name, c1 at level 100, c2 at level 200).
Notation "c1 ';;' c2" := (bind c1 (fun _ => c2))
  (at level 100, c2 at level 200, right associativity).

(** [l.forEach(f)] *)
Fixpoint forEach {S A} (l : list A) (f : A -> M S unit) : M S unit :=
  match l with
  | [] => ret ()
  | a :: l' => f a ;; forEach l' f
  end.

(** ** The server (server.ts) *)

(** A reference to a client object: its position in the list of the client
    objects that were constructed. *)
Abbreviation ClientRef := nat.

(** What the server has called on the clients, in order. *)
Inductive Event :=
| Sync (client : ClientRef) (version : Version)
| Accepted (client : ClientRef) (messageID : MessageID) (version : Version).

Module Server.
Section server.
Context {number : Type} `{!JSNumber number} {U : Type} `{!TableUpdate number U}.

(** The fields of the class. [history] is an array that is written at
    the positions 1, 2, ...: position 0 stays empty. [clients] is a
    [Set], iterated in insertion order. *)
Record t := {
  table : Table.t number;
  history : gmap nat (Message.t U);
  pending : list (Message.t U);
  failed : gset GroupID;
  clients : list ClientRef;
  version : Version;
  delay : nat
}.

Definition new (delay_ : nat) : t :=
  {| table := Table.empty; history := ∅; pending := []; failed := ∅;
     clients := []; version := 0%nat; delay := delay_ |}.

Definition withTable (this : t) table_ : t :=
  {| table := table_; history := history this; pending := pending this;
     failed := failed this; clients := clients this; version := version this;
     delay := delay this |}.
Definition withHistory (this : t) history_ : t :=
  {| table := table this; history := history_; pending := pending this;
     failed := failed this; clients := clients this; version := version this;
     delay := delay this |}.
Definition withPending (this : t) pending_ : t :=
  {| table := table this; history := history this; pending := pending_;
     failed := failed this; clients := clients this; version := version this;
     delay := delay this |}.
Definition withFailed (this : t) failed_ : t :=
  {| table := table this; history := history this; pending := pending this;
     failed := failed_; clients := clients this; version := version this;
     delay := delay this |}.
Definition withClients (this : t) clients_ : t :=
  {| table := table this; history := history this; pending := pending this;
     failed := failed this; clients := clients_; version := version this;
     delay := delay this |}.
Definition withVersion (this : t) version_ : t :=
  {| table := table this; history := history this; pending := pending this;
     failed := failed this; clients := clients this; version := version_;
     delay := delay this |}.

(** The system: the server, the client objects, the number of
    identifiers that [UUIDV4] has returned, and the calls the server
    has made on clients. *)
Record world := {
  server : t;
  heap : list (Client.t number U);
  uuid : nat;
  log : list Event
}.

Definition withServer (w : world) (f : t -> t) : world :=
  {| server := f (server w); heap := heap w; uuid := uuid w; log := log w |}.

(** [Set.prototype.add] and [Set.prototype.delete] *)
Definition setAdd (client : ClientRef) (set : list ClientRef) : list ClientRef :=
  if decide (client ∈ set) then set else set ++ [client].
Definition setDelete (client : ClientRef) (set : list ClientRef) : list ClientRef :=
  filter (fun c => c ≠ client) set.

(** [client.sync(table, version)] *)
Definition deliverSync (client : ClientRef) (table_ : Table.t number) (version_ : Version)
    : M world unit :=
  fun w =>
    match heap w !! client with
    | Some this =>
        let '(this, uuid_) := Client.sync this table_ version_ (uuid w) in
        ({| server := server w; heap := <[client := this]> (heap w);
            uuid := uuid_; log := log w ++ [Sync client version_] |}, Normal ())
    | None => (w, Normal ())
    end.

Definition connected (client : ClientRef) : M world unit :=
  modify (fun w => withServer w (fun this =>
    withClients this (setAdd client (clients this)))) ;;
  let* this := gets server in
  deliverSync client (Table.copy (table this)) (version this).

Definition disconnected (client : ClientRef) : M world unit :=
  modify (fun w => withServer w (fun this =>
    withClients this (setDelete client (clients this)))).

Definition getData : M world (json number) :=
  let* this := gets server in
  liftOutcome (Table.serialize (table this)).

(** [client.accepted(message)], where [message] is the object at
    [history[slot]]. *)
Definition deliverAccepted (slot : Version) (client : ClientRef) : M world unit :=
  fun w =>
    match heap w !! client, history (server w) !! slot with
    | Some this, Some message =>
        let '(this, message_, uuid_, result) :=
          Client.accepted this message (uuid w) in
        ({| server := withHistory (server w) (<[slot := message_]> (history (server w)));
            heap := <[client := this]> (heap w);
            uuid := uuid_;
            log := log w ++ [Accepted client (Message.UUID message)
                               (Message.version message)] |}, result)
    | _, _ => (w, Normal ())
    end.

(** [accept(message)] for the message at [history[slot]] *)
Definition accept (slot : Version) : M world unit :=
  let* this := gets server in
  forEach (clients this) (deliverAccepted slot).

(** [client.rejected(messageID, groupID)]. The class [Client] declares no
    method [rejected] and inherits none: the callee is [undefined], and
    the call throws a [TypeError] before anything of the client runs. *)
Definition deliverRejected (messageID : MessageID) (groupID : GroupID)
    (client : ClientRef) : M world unit :=
  fun w =>
    match heap w !! client with
    | Some this => (w, Thrown TypeError)
    | None => (w, Normal ())
    end.

Definition reject (messageID : MessageID) (groupID : GroupID) : M world unit :=
  let* this := gets server in
  forEach (clients this) (deliverRejected messageID groupID).

(** The loop [for (let i = message.version; i <= this.version; i += 1)
    this.history[i].update.shift(shiftContext)], [count] rounds from
    [i] on. Reading [update] of an empty position throws. *)
Fixpoint accumulate (history_ : gmap nat (Message.t U)) (i : nat) (count : nat)
    (shiftContext : ShiftContext.t) : outcome ShiftContext.t :=
  match count with
  | O => Normal shiftContext
  | S count' =>
      match history_ !! i with
      | None => Thrown TypeError
      | Some entry =>
          outcome_bind (shift (Message.update entry) shiftContext)
            (accumulate history_ (S i) count')
      end
  end.

(** The shift context that [process] builds for a message. *)
Definition shiftContextFor (this : t) (message : Message.t U)
    : outcome ShiftContext.t :=
  accumulate (history this) (Message.version message)
    (S (version this) - Message.version message) ShiftContext.new.

(** "Modify update indices as necessary": the message after the first
    block of the loop of [process]. *)
Definition transformMessage (this : t) (message : Message.t U)
    : outcome (Message.t U) :=
  if needsTransform (Message.update message) then
    outcome_bind (shiftContextFor this message) (fun shiftContext =>
    Normal (Message.withUpdate message
              (transform (Message.update message) shiftContext)))
  else Normal message.

(** One round of the loop of [process], after the message is taken
    from the queue. *)
Definition processMessage (message : Message.t U) : M world unit :=
  let* this := gets server in
  if decide (Message.groupID message ∈ failed this) then ret ()
  else
    let* message := liftOutcome (transformMessage this message) in
    let '(table_, update_, result) :=
      apply (Message.update message) (table this) in
    let message := Message.withUpdate message update_ in
    modify (fun w => withServer w (fun this => withTable this table_)) ;;
    let* success := liftOutcome result in
    if success : bool then
      let version_ := S (version this) in
      let message := Message.withVersion message version_ in
      modify (fun w => withServer w (fun this =>
        withHistory (withVersion this version_)
          (<[version_ := message]> (history this)))) ;;
      accept version_
    else
      modify (fun w => withServer w (fun this =>
        withFailed this ({[Message.groupID message]} ∪ failed this))) ;;
      reject (Message.UUID message) (Message.groupID message).

(** [process]: the queue cannot grow while it is drained, so its
    length bounds the number of rounds. *)
Fixpoint processLoop (fuel : nat) : M world unit :=
  match fuel with
  | O => ret ()
  | S fuel' =>
      let* this := gets server in
      match pending this with
      | [] => ret ()
      | message :: pending_ =>
          modify (fun w => withServer w (fun this => withPending this pending_)) ;;
          processMessage message ;;
          processLoop fuel'
      end
  end.

Definition process : M world unit :=
  let* this := gets server in
  processLoop (length (pending this)).

Definition receive (message : Message.t U) : M world unit :=
  modify (fun w => withServer w (fun this =>
    withPending this (pending this ++ [message]))) ;;
  let* this := gets server in
  if decide (delay this = 0%nat) then process else ret ().
End server.
Arguments t : clear implicits.
Arguments world : clear implicits.
End Server.

(** ** The methods of the client that call the server (client.ts) *)

Module ClientAPI.
Section api.
Context {number : Type} `{!JSNumber number} {U : Type} `{!TableUpdate number U}.

Abbreviation world := (Server.world number U).

Definition updateClient (client : ClientRef) (f : Client.t number U -> Client.t number U)
    : M world unit :=
  modify (fun w =>
    match Server.heap w !! client with
    | Some this =>
        {| Server.server := Server.server w;
           Server.heap := <[client := f this]> (Server.heap w);
           Server.uuid := Server.uuid w; Server.log := Server.log w |}
    | None => w
    end).

(** [receive] returns nothing, so the loop of the queue over the outbox
    runs to its end unless a call throws; when one throws, the outbox is
    not cleared and the flag is not set.

    In the sources the outbox, the queue of the server and the history
    hold one and the same [Message] object, into which the server writes
    the version and [apply] the saved position. Here a message is a
    value: what the server writes is in the entry of the history that it
    writes, and neither in the outbox nor in an earlier entry of the
    history for the same object (a message that is sent again after
    [comeOnline] has thrown can be accepted twice). Nothing is stated
    below of the version that an entry of the history carries. *)
Definition comeOnline (client : ClientRef) : M world unit :=
  Server.connected client ;;
  let* outbox_ := gets (fun w =>
    match Server.heap w !! client with
    | Some this => Client.outbox this
    | None => []
    end) in
  forEach outbox_ Server.receive ;;
  updateClient client (fun this => Client.withOutbox this []) ;;
  updateClient client (fun this => Client.withOnline this true).

Definition goOffline (client : ClientRef) : M world unit :=
  Server.disconnected client ;;
  updateClient client (fun this => Client.withOnline this false).

(** [new Client(server, online)]: the fields are initialised, then the
    body of the constructor runs. *)
Definition new (online_ : bool) : M world ClientRef :=
  let* client := gets (fun w => length (Server.heap w)) in
  modify (fun w =>
    {| Server.server := Server.server w;
       Server.heap := Server.heap w ++
         [ {| Client.table := Table.empty; Client.outbox := [];
              Client.groupID := Server.uuid w; Client.version := 0%nat;
              Client.online := online_ |} ];
       Server.uuid := S (Server.uuid w); Server.log := Server.log w |}) ;;
  (if online_ then comeOnline client else ret ()) ;;
  ret client.

Definition getData (client : ClientRef) : M world (json number) :=
  fun w =>
    match Server.heap w !! client with
    | Some this => (w, Client.getData this)
    | None => (w, Thrown TypeError)
    end.

Definition send (client : ClientRef) (message : Message.t U) : M world unit :=
  fun w =>
    match Server.heap w !! client with
    | Some this =>
        if Client.online this then Server.receive message w
        else updateClient client (fun this =>
               Client.withOutbox this (Client.outbox this ++ [message])) w
    | None => (w, Normal ())
    end.

(** The common part of the eight editing methods: a message is built
    around the update, with a fresh identifier, and sent. *)
Definition edit (client : ClientRef) (update_ : U) : M world unit :=
  fun w =>
    match Server.heap w !! client with
    | Some this =>
        let message :=
          {| Message.version := Client.version this;
             Message.groupID := Client.groupID this;
             Message.update := update_;
             Message.UUID := Server.uuid w |} in
        send client message
          {| Server.server := Server.server w; Server.heap := Server.heap w;
             Server.uuid := S (Server.uuid w); Server.log := Server.log w |}
    | None => (w, Normal ())
    end.
End api.

Section methods.
Context {number : Type} `{!JSNumber number}.

Definition createRow client rowID := edit client (CreateRow rowID).
Definition destroyRow client rowID := edit client (newDestroyRow rowID).
Definition moveRow client rowID targetIndex :=
  edit client (newMoveRow rowID targetIndex).
Definition createColumn client columnID columnType :=
  edit client (CreateColumn columnID columnType).
Definition destroyColumn client columnID := edit client (DestroyColumn columnID).
Definition updateColumnType client columnID columnType :=
  edit client (UpdateColumnType columnID columnType).
Definition updateTextCellValue client rowID columnID value_ :=
  edit client (UpdateTextCellValue rowID columnID value_).
Definition updateNumberCellValue client rowID columnID value_ :=
  edit client (UpdateNumberCellValue rowID columnID value_).
End methods.
End ClientAPI.

(** ** Runs of the system *)

Module System.
Section system.
Context {number : Type} `{!JSNumber number} {U : Type} `{!TableUpdate number U}.

(** What the host application and the timer of the server can do.
    [Tick] is the call of [process] that the constructor of a server with
    a delay schedules. *)
Inductive op :=
| NewClient (online : bool)
| ComeOnline (client : ClientRef)
| GoOffline (client : ClientRef)
| Edit (client : ClientRef) (update : U)
| Tick.

Definition method (o : op) : M (Server.world number U) unit :=
  match o with
  | NewClient online => ClientAPI.new online ;; ret ()
  | ComeOnline client => ClientAPI.comeOnline client
  | GoOffline client => ClientAPI.goOffline client
  | Edit client update => ClientAPI.edit client update
  | Tick => Server.process
  end.

(** The state a call leaves, whether it returns or throws. *)
Definition step (w : Server.world number U) (o : op) : Server.world number U := (method o w).1.

Definition run (ops : list op) (w : Server.world number U) : Server.world number U :=
  fold_left step ops w.

(** A new server and no client. *)
Definition initial (delay : nat) : Server.world number U :=
  {| Server.server := Server.new delay; Server.heap := []; Server.uuid := 0%nat;
     Server.log := [] |}.
End system.
Arguments op : clear implicits.
End System.

(** ** The words of the design document *)

(** The value that [transform] is documented to return for a deleted
    index. *)
Definition Tombstone : Z := -1.

(** The shift context of the design document for a message: the
    contributions of the accepted updates at the versions after the
    baseline of the message, up to the current version. *)
Definition shiftContextDesign {number U : Type} `{!TableUpdate number U}
    (this : Server.t number U) (message : Message.t U) : outcome ShiftContext.t :=
  Server.accumulate (Server.history this) (S (Message.version message))
    (Server.version this - Message.version message) ShiftContext.new.

(** The transform of the design document: a fold over the records in
    order, where a [Delete] record at the current index makes the whole
    result the tombstone ([None]). *)
Fixpoint transformDesign (shifts : list ShiftRecord.t) (index : Z) : option Z :=
  match shifts with
  | [] => Some index
  | shift :: shifts' =>
      match ShiftRecord.type shift with
      | Insert =>
          transformDesign shifts'
            (if Z.leb (ShiftRecord.index shift) index then index + 1 else index)
      | Delete =>
          if Z.eqb index (ShiftRecord.index shift) then None
          else transformDesign shifts'
                 (if Z.ltb (ShiftRecord.index shift) index then index - 1 else index)
      end
  end.

Section design.
Context {number : Type} `{!JSNumber number}.

(** The value stored for a row under a column, if any. *)
Definition cell (table : Table.t number) (rowID : RowID) (columnID : ColumnID)
    : option (value number) :=
  match JSMap.get rowID (Table.cells table) with
  | Some row => JSMap.get columnID row
  | None => None
  end.

(** The second invariant of the design document: a stored value is a
    fixed point of the coercion of its column's type. *)
Definition canonical (table : Table.t number) : Prop :=
  forall rowID columnID v,
    cell table rowID columnID = Some v ->
    exists type, JSMap.get columnID (Table.columns table) = Some type /\
                 CellType.coerce type (Some v) = Some v.

(** The document's condition for [UpdateColumnType] to succeed: the
    column exists and every row that has a value under it coerces. *)
Definition coercible (columnID : ColumnID) (columnType : CellType)
    (table : Table.t number) : Prop :=
  JSMap.has columnID (Table.columns table) = true /\
  forall rowID v, cell table rowID columnID = Some v ->
    CellType.coerce columnType (Some v) <> None.

(** The cell updates: the cell, the value and the column type that
    [UpdateTextCellValue] and [UpdateNumberCellValue] carry. *)
Definition cellUpdate (this : Update number)
    : option (RowID * ColumnID * value number * CellType) :=
  match this with
  | UpdateTextCellValue rowID columnID cellValue =>
      Some (rowID, columnID, VString cellValue, Text)
  | UpdateNumberCellValue rowID columnID cellValue =>
      Some (rowID, columnID, VNumber cellValue, Number)
  | _ => None
  end.

(** The design document on [MoveRow]: a target that the shift context
    turns into the tombstone, or into a position outside the row order,
    makes [apply] return false. The bound is the widest reading, the
    positions of the order before the row is removed. *)
Definition rejectsBadTarget : Prop :=
  forall (context : ShiftContext.t) (table : Table.t number) rowID targetIndex start,
    let target := ShiftContext.transform context targetIndex in
    target = Tombstone \/
      ~ (0 <= target <= Z.of_nat (length (Table.order table)) - 1) ->
    (apply (transform (MoveRow rowID targetIndex start) context) table).2
      = Normal false.

(** The order after a row at position [j] is moved to [targetIndex]. *)
Definition moved (order : list RowID) (j : nat) (rowID : RowID)
    (targetIndex : Index) : list RowID :=
  let rest := take j order ++ drop (S j) order in
  let position := splice_start targetIndex (length rest) in
  take position rest ++ rowID :: drop position rest.

(** The rows of [order] are the rows that have a map of cells, and no row
    is listed twice. *)
Definition wellFormed (table : Table.t number) : Prop :=
  NoDup (Table.order table) /\
  forall rowID,
    rowID ∈ Table.order table <-> is_Some (JSMap.get rowID (Table.cells table)).

(** The design document on cells: text values serialize as JSON strings,
    number values as JSON numbers. *)
Definition serializedCell (v : value number) : json number :=
  match v with
  | VString s => JString s
  | VNumber x => JNumber x
  end.

(** The shape that the design document gives to a serialized column and
    to a serialized row, but for one key: the object of a row has exactly
    the assigned cells of the row that are not under the column
    [__proto__]. *)
Definition columnShape (column : ColumnID * CellType) (j : json number) : Prop :=
  j = JObject [("id", JString column.1);
               ("type", JString (match column.2 with
                                 | Text => "text"
                                 | Number => "number"
                                 end))].

Definition rowShape (table : Table.t number) (rowID : RowID) (j : json number) : Prop :=
  exists body,
    j = JObject [("id", JString rowID); ("cellValuesByColumnId", JObject body)] /\
    NoDup body.*1 /\
    (forall columnID,
       JSMap.get columnID body =
         if decide (columnID = "__proto__") then None
         else serializedCell <$> cell table rowID columnID) /\
    ((forall columnID, columnID <> "__proto__" -> cell table rowID columnID = None) ->
     body = []).

(** The cells of a row, if it has any, and the object that [serialize]
    makes of the row. *)
Definition rowCells (table : Table.t number) (rowID : RowID) : JSMap.t ColumnID (value number) :=
  default [] (JSMap.get rowID (Table.cells table)).

Definition rowOutput (table : Table.t number) (rowID : RowID) : json number :=
  Table.RowOutput rowID (Table.cellValuesByColumnId (rowCells table rowID)).

(** The tables that updates build from the empty table. *)
Definition applyAll (updates : list (Update number)) (table : Table.t number) : Table.t number :=
  fold_left (fun table this => (apply this table).1.1) updates table.

(** Each update of the list returns true, on the table that the ones
    before it have left. *)
Fixpoint allApply (updates : list (Update number)) (table : Table.t number) : Prop :=
  match updates with
  | [] => True
  | this :: updates' =>
      (apply this table).2 = Normal true /\ allApply updates' (apply this table).1.1
  end.
End design.

(** ** A number type for the examples *)

(** The integers and [NaN]. [parseFloatString] reads an optional sign and
    decimal digits and stops at the first other character, as [parseFloat]
    does on a string that holds an integer literal or no number. *)
Module IntegerNumber.
Definition isDigit (c : ascii) : bool :=
  let n := nat_of_ascii c in ((48 <=? n) && (n <=? 57))%nat.

Fixpoint digits (s : string) (acc : option Z) : option Z :=
  match s with
  | String c s' =>
      if isDigit c then
        digits s' (Some (10 * default 0 acc + Z.of_nat (nat_of_ascii c - 48)))
      else acc
  | EmptyString => acc
  end.

Definition parse (s : string) : option Z :=
  match s with
  | String "-" s' => Z.opp <$> digits s' None
  | String "+" s' => digits s' None
  | _ => digits s None
  end.

#[global] Instance instance : JSNumber (option Z) := {|
  isNaN x := match x with None => true | Some _ => false end;
  parseFloatString := parse;
  numberToString x := match x with None => "NaN" | Some z => pretty z end;
  stringifyNumber x := match x with None => "null" | Some z => pretty z end
|}.
End IntegerNumber.

(** ** Concrete tables and runs *)

Module Example.
Section example.

(** The numbers of the examples. *)
#[local] Abbreviation number := (option Z).

(** One row and one text column, no cell. *)
Definition tableABC : Table.t number :=
  applyAll [CreateRow "ABC"; CreateColumn "123" Text] Table.empty.

(** Two rows. *)
Definition tableAB : Table.t number :=
  applyAll [CreateRow "A"; CreateRow "B"] Table.empty.

Definition createABC : Update number := CreateRow "ABC".
Definition typeNumber123 : Update number := UpdateColumnType "123" Number.
Definition moveAto7 : Update number := newMoveRow "A" 7.
Definition fooABC123 : Update number := UpdateTextCellValue "ABC" "123" "foo".

(** A client that stays online creates a row and a text column and
    writes a cell. *)
Definition writesFoo : Server.world number (Update number) :=
  System.run
    [System.NewClient true;
     System.Edit 0%nat (CreateRow "ABC");
     System.Edit 0%nat (CreateColumn "123" Text);
     System.Edit 0%nat fooABC123]
    (System.initial 0).

(** A client that stays online creates three rows and destroys the
    first: it is at version 4 and sees the rows B and C. *)
Definition destroysA : Server.world number (Update number) :=
  System.run
    [System.NewClient true;
     System.Edit 0%nat (CreateRow "A");
     System.Edit 0%nat (CreateRow "B");
     System.Edit 0%nat (CreateRow "C");
     System.Edit 0%nat (newDestroyRow "A")]
    (System.initial 0).

(** A client that stays online creates the row ABC twice: the second
    edit, of the group 2, is rejected. *)
Definition rejectsABC : Server.world number (Update number) :=
  System.run
    [System.NewClient true;
     System.Edit 0%nat (CreateRow "ABC");
     System.Edit 0%nat (CreateRow "ABC")]
    (System.initial 0).

(** The state before the second edit, and the message of that edit. *)
Definition createsABC : Server.world number (Update number) :=
  System.run
    [System.NewClient true; System.Edit 0%nat (CreateRow "ABC")]
    (System.initial 0).
Definition secondABC : Message.t (Update number) :=
  {| Message.version := 1%nat; Message.groupID := 2%nat;
     Message.update := CreateRow "ABC"; Message.UUID := 3%nat |}.

(** The first client of a run. *)
Definition firstClient (w : Server.world number (Update number)) : Client.t number (Update number) :=
  default
    {| Client.table := Table.empty; Client.outbox := []; Client.groupID := 0%nat;
       Client.version := 0%nat; Client.online := false |}
    (Server.heap w !! 0%nat).

(** The repository has no class whose [needsTransform] returns true:
    [MoveRow] overrides [transform] and inherits [needsTransform]. These
    are the classes of the repository with the one override that lets
    [process] transform a [MoveRow]; every other method is the
    repository's. *)
Definition needsTransformOverridden (this : Update number) : bool :=
  match this with
  | MoveRow _ _ _ => true
  | _ => false
  end.

Definition Overridden : TableUpdate number (Update number) := {|
  needsTransform := needsTransformOverridden;
  transform := Update_transform;
  apply := Update_apply;
  shift := Update_shift
|}.

(** The message of that client for moving B behind C, and the message of
    a client that has seen nothing for moving a row. *)
Definition moveBto1 : Message.t (Update number) :=
  {| Message.version := 4%nat; Message.groupID := 9%nat;
     Message.update := newMoveRow "B" 1; Message.UUID := 10%nat |}.
Definition moveAtVersion0 : Message.t (Update number) :=
  {| Message.version := 0%nat; Message.groupID := 11%nat;
     Message.update := newMoveRow "B" 1; Message.UUID := 12%nat |}.
End example.
End Example.

(** ** Further invariants of tables *)

Section invariants.
Context {number : Type}.

(** A stored cell lies under a column of the table. *)
Definition cellsHaveColumns (table : Table.t number) : Prop :=
  forall rowID columnID v,
    cell table rowID columnID = Some v ->
    JSMap.has columnID (Table.columns table) = true.
End invariants.

(** * Properties *)

(** ** Insertion-ordered maps *)

Section JSMap_facts.
Context {K V : Type} `{EqDecision K}.
Implicit Types (m : JSMap.t K V) (k : K) (v : V).

Lemma get_set_eq m k v : JSMap.get k (JSMap.set k v m) = Some v.
Proof.
  induction m as [|[k' v'] m IH]; simpl.
  - by rewrite decide_True.
  - destruct (decide (k' = k)) as [->|Hne]; simpl.
    + by rewrite decide_True.
    + by rewrite decide_False.
Qed.

Lemma get_set_ne m k k' v :
  k <> k' -> JSMap.get k' (JSMap.set k v m) = JSMap.get k' m.
Proof.
  intros Hne. induction m as [|[k0 v0] m IH]; simpl.
  - by rewrite decide_False.
  - destruct (decide (k0 = k)) as [->|Hk0]; simpl.
    + by rewrite !decide_False.
    + by rewrite IH.
Qed.

Lemma get_delete_eq m k : JSMap.get k (JSMap.delete k m) = None.
Proof.
  unfold JSMap.delete. induction m as [|[k' v'] m IH]; [done|].
  rewrite filter_cons. simpl. destruct (decide (k' <> k)) as [Hne|Heq]; simpl.
  - by rewrite decide_False.
  - done.
Qed.

Lemma get_delete_ne m k k' :
  k <> k' -> JSMap.get k' (JSMap.delete k m) = JSMap.get k' m.
Proof.
  intros Hne. unfold JSMap.delete. induction m as [|[k0 v0] m IH]; [done|].
  rewrite filter_cons. simpl. destruct (decide (k0 <> k)) as [Hk0|Hk0]; simpl.
  - by rewrite IH.
  - apply dec_stable in Hk0. subst k0. by rewrite decide_False.
Qed.

Lemma has_true m k : JSMap.has k m = true <-> is_Some (JSMap.get k m).
Proof.
  unfold JSMap.has. destruct (JSMap.get k m) as [v|].
  - split; [by eexists | done].
  - split; [done | by intros [v Hv]].
Qed.

Lemma has_false m k : JSMap.has k m = false <-> JSMap.get k m = None.
Proof. unfold JSMap.has. by destruct (JSMap.get k m). Qed.

(** A loop over the entries that keeps the keys. *)
Lemma get_map_entries {W} (g : K * V -> K * W) m k :
  (forall entry, (g entry).1 = entry.1) ->
  JSMap.get k (map g m) = (fun v => (g (k, v)).2) <$> JSMap.get k m.
Proof.
  intros Hkey. induction m as [|[k' v'] m IH]; [done|]. simpl.
  specialize (Hkey (k', v')) as Hk. destruct (g (k', v')) as [k1 w] eqn:Hg.
  simpl in Hk. subst k1. destruct (decide (k' = k)) as [->|Hne]; simpl.
  - by rewrite Hg.
  - done.
Qed.

Lemma get_Some_elem m k v : JSMap.get k m = Some v -> (k, v) ∈ m.
Proof.
  induction m as [|[k' v'] m IH]; [done|]. simpl.
  destruct (decide (k' = k)) as [->|Hne].
  - intros [= ->]. left.
  - intros Hget. right. by apply IH.
Qed.
End JSMap_facts.

(** ** The row map and splice *)

Section rows_facts.
Context {number : Type} `{!JSNumber number}.
Implicit Types (order : list RowID) (rowID : RowID) (table : Table.t number).

Lemma computeRowMap_from_Some order : forall i acc rowID k,
  JSMap.get rowID (Table.computeRowMap_from i order acc) = Some k ->
  ((rowID ∉ order) /\ JSMap.get rowID acc = Some k) \/
  (exists j : nat, order !! j = Some rowID /\ k = i + Z.of_nat j).
Proof.
  induction order as [|r0 order IH]; intros i acc rowID k Hget; simpl in Hget.
  - left. split; [apply not_elem_of_nil | done].
  - apply IH in Hget as [[Hnotin Hacc]|[j [Hj ->]]].
    + destruct (decide (r0 = rowID)) as [->|Hne].
      * rewrite get_set_eq in Hacc. injection Hacc as <-.
        right. exists 0%nat. split; [done | lia].
      * rewrite get_set_ne in Hacc by done. left. split; [|done].
        rewrite not_elem_of_cons. split; [congruence | done].
    + right. exists (S j). split; [done | lia].
Qed.

Lemma computeRowMap_from_is_Some order : forall i acc rowID,
  is_Some (JSMap.get rowID (Table.computeRowMap_from i order acc)) <->
  rowID ∈ order \/ is_Some (JSMap.get rowID acc).
Proof.
  induction order as [|r0 order IH]; intros i acc rowID; simpl.
  - split; [by right | intros [Hin|Hacc]; [by apply elem_of_nil in Hin | done]].
  - rewrite IH, elem_of_cons. destruct (decide (r0 = rowID)) as [->|Hne].
    + rewrite get_set_eq. split; [intros _; by left; left | intros _; by right].
    + rewrite get_set_ne by done. split.
      * intros [Hin|Hacc]; [left; by right | by right].
      * intros [[Heq|Hin]|Hacc]; [congruence | by left | by right].
Qed.

Lemma rows_get_Some table rowID k :
  JSMap.get rowID (Table.rows table) = Some k ->
  exists j : nat, Table.order table !! j = Some rowID /\ k = Z.of_nat j.
Proof.
  unfold Table.rows, Table.computeRowMap. intros Hget.
  apply computeRowMap_from_Some in Hget as [[_ Hacc]|[j [Hj ->]]]; [done|].
  exists j. split; [done | lia].
Qed.

Lemma rows_has table rowID :
  JSMap.has rowID (Table.rows table) = true <-> rowID ∈ Table.order table.
Proof.
  rewrite has_true. unfold Table.rows, Table.computeRowMap.
  rewrite computeRowMap_from_is_Some. split; [|by left].
  intros [Hin|Hacc]; [done | by destruct Hacc].
Qed.

Lemma rows_get_None table rowID :
  JSMap.get rowID (Table.rows table) = None <-> rowID ∉ Table.order table.
Proof.
  rewrite <- rows_has, <- has_false. by destruct (JSMap.has _ _).
Qed.
End rows_facts.

Section splice_facts.
Context {A : Type}.
Implicit Types (l items : list A).

(** Removing the element at a position of the array. *)
Lemma splice_remove l (j : nat) x :
  l !! j = Some x ->
  splice (Z.of_nat j) 1 [] l = ([x], take j l ++ drop (S j) l).
Proof.
  intros Hj. pose proof (lookup_lt_Some _ _ _ Hj) as Hlt.
  unfold splice, splice_start, splice_count.
  destruct (Z.of_nat j <? 0) eqn:Hneg; [lia|].
  replace (Z.to_nat (Z.min (Z.of_nat j) (Z.of_nat (length l)))) with j by lia.
  replace (Z.to_nat (Z.min (Z.max 1 0) (Z.of_nat (length l) - Z.of_nat j)))
    with 1%nat by lia.
  rewrite (drop_S _ _ _ Hj). simpl. rewrite take_0.
  by replace (j + 1)%nat with (S j) by lia.
Qed.

Lemma splice_start_le (start : Z) (len : nat) : (splice_start start len <= len)%nat.
Proof. unfold splice_start. destruct (Z.ltb_spec start 0); lia. Qed.

(** Inserting one element: nothing is removed, and the element lands at
    the resolved start position. *)
Lemma splice_insert l (start : Z) x :
  splice start 0 [x] l =
    ([], take (splice_start start (length l)) l ++
         x :: drop (splice_start start (length l)) l).
Proof.
  unfold splice, splice_count.
  pose proof (splice_start_le start (length l)) as Hle.
  assert (Z.to_nat (Z.min (Z.max 0 0)
            (Z.of_nat (length l) - Z.of_nat (splice_start start (length l)))) = 0%nat)
    as -> by lia.
  rewrite take_0. simpl. by rewrite Nat.add_0_r.
Qed.
End splice_facts.

(** ** The shift context *)

(** The fold of the code and the fold of the design document agree as long
    as no [Delete] record meets the index. *)
Lemma transform_agrees_with_design shifts : forall index result,
  transformDesign shifts index = Some result ->
  ShiftContext.transform {| ShiftContext.shifts := shifts |} index = result.
Proof.
  unfold ShiftContext.transform. simpl.
  induction shifts as [|shift shifts IH]; intros index result Hdesign; simpl in *.
  - by injection Hdesign.
  - unfold ShiftContext.transformStep at 2.
    destruct (ShiftRecord.type shift).
    + apply IH. rewrite <- Hdesign. f_equal.
      destruct (ShiftRecord.index shift <=? index); lia.
    + destruct (index =? ShiftRecord.index shift); [done|].
      apply IH. rewrite <- Hdesign. f_equal.
      destruct (ShiftRecord.index shift <? index); lia.
Qed.

(** [transform] never yields the tombstone: with records at positions of an
    array, a position is transformed into a position. *)
Lemma transform_nonnegative (context : ShiftContext.t) (index : Z) :
  Forall (fun shift => 0 <= ShiftRecord.index shift) (ShiftContext.shifts context) ->
  0 <= index ->
  0 <= ShiftContext.transform context index.
Proof.
  unfold ShiftContext.transform. destruct context as [shifts]. simpl.
  intros Hshifts. revert index.
  induction Hshifts as [|shift shifts Hshift _ IH]; intros index Hindex; simpl; [done|].
  apply IH. unfold ShiftContext.transformStep.
  destruct (ShiftRecord.type shift).
  - destruct (ShiftRecord.index shift <=? index); lia.
  - destruct (Z.eqb_spec index (ShiftRecord.index shift)); [done|].
    destruct (Z.ltb_spec (ShiftRecord.index shift) index); lia.
Qed.

(** C2 (the code departs from the claim): with the one record [Delete 3],
    the design document transforms the index 3 into the tombstone; the code
    returns 3, which is not the tombstone. *)
Theorem transform_of_deleted_index :
  let context := ShiftContext.deleteAt ShiftContext.new 3 in
  transformDesign (ShiftContext.shifts context) 3 = None /\
  ShiftContext.transform context 3 = 3 /\
  ShiftContext.transform context 3 <> Tombstone.
Proof. by vm_compute. Qed.

(** ** The updates on a table *)

Section update_facts.
Context {number : Type} `{!JSNumber number}.
Implicit Types (table : Table.t number) (this : Update number).

Lemma applyCellValue_false expected rowID columnID v table table' :
  applyCellValue expected rowID columnID v table = (table', Normal false) ->
  table' = table.
Proof.
  unfold applyCellValue. intros Happly.
  repeat case_match; by simplify_eq.
Qed.

Lemma apply_false this table table' this' :
  apply this table = (table', this', Normal false) -> table' = table.
Proof.
  destruct this; simpl; intros Happly.
  - repeat case_match; by simplify_eq.
  - repeat case_match; by simplify_eq.
  - repeat case_match; by simplify_eq.
  - repeat case_match; by simplify_eq.
  - repeat case_match; by simplify_eq.
  - repeat case_match; by simplify_eq.
  - destruct (applyCellValue _ _ _ _ _) as [table0 result] eqn:Hcell.
    simplify_eq. by eapply applyCellValue_false.
  - destruct (applyCellValue _ _ _ _ _) as [table0 result] eqn:Hcell.
    simplify_eq. by eapply applyCellValue_false.
Qed.

(** C4: when [apply] returns false the table is the table before the
    call, for each of the eight updates, and so is its serialization. *)
Theorem apply_false_leaves_table this table table' this' :
  apply this table = (table', this', Normal false) ->
  table' = table /\ Table.serialize table' = Table.serialize table.
Proof.
  intros Happly. apply apply_false in Happly. by subst table'.
Qed.
End update_facts.

Lemma apply_false_leaves_table_example :
  (apply Example.createABC Example.tableABC).1.1 = Example.tableABC /\
  Table.serialize (apply Example.createABC Example.tableABC).1.1 =
    Table.serialize Example.tableABC.
Proof.
  apply (apply_false_leaves_table Example.createABC Example.tableABC _
           Example.createABC).
  reflexivity.
Defined.

(** ** UpdateColumnType *)

Section column_type_facts.
Context {number : Type} `{!JSNumber number}.
Implicit Types (table : Table.t number) (columnID : ColumnID) (columnType : CellType).

(** The flag of the first loop: it stays true as long as every row, with
    a cell under the column or without one, is coerced to a value. *)
Lemma canCoerce_fold columnID columnType (cells : JSMap.t RowID (JSMap.t ColumnID (value number))) :
  forall canCoerce,
  fold_left (canCoerceStep columnID columnType) cells canCoerce = true <->
  canCoerce = true /\
  Forall (fun row => is_Some (CellType.coerce columnType (JSMap.get columnID row.2))) cells.
Proof.
  induction cells as [|row cells IH]; intros canCoerce; simpl.
  - split; [by intros -> | by intros [-> _]].
  - rewrite IH, Forall_cons. unfold canCoerceStep.
    destruct (CellType.coerce columnType (JSMap.get columnID row.2)) as [v|].
    + split; [intros [-> Hall]; by eauto | by intros [-> [_ Hall]]].
    + split; [by intros [? _] | intros [_ [[v Hv] _]]; done].
Qed.

(** What the code asks of the table: every row has a value under the
    column, and the value coerces. *)
Lemma UpdateColumnType_apply_true columnID columnType table :
  (apply (UpdateColumnType columnID columnType) table).2 = Normal true <->
  JSMap.has columnID (Table.columns table) = true /\
  Forall (fun row => is_Some (CellType.coerce columnType (JSMap.get columnID row.2)))
    (Table.cells table).
Proof.
  simpl. destruct (JSMap.has columnID (Table.columns table)); simpl.
  - destruct (fold_left _ _ _) eqn:Hfold; simpl.
    + apply canCoerce_fold in Hfold as [_ Hall]. by split.
    + split; [done|]. intros [_ Hall].
      assert (fold_left (canCoerceStep columnID columnType) (Table.cells table) true = true)
        as Htrue by (by apply canCoerce_fold).
      congruence.
  - split; [done | by intros [? _]].
Qed.

(** The second loop stores the coercion of every value it finds. *)
Lemma coerceRow_defined columnID columnType (row : RowID * JSMap.t ColumnID (value number)) :
  is_Some (CellType.coerce columnType (JSMap.get columnID row.2)) ->
  JSMap.get columnID (coerceRow columnID columnType row).2 =
    CellType.coerce columnType (JSMap.get columnID row.2).
Proof.
  intros [cell Hcell]. unfold coerceRow. rewrite Hcell. simpl.
  by rewrite get_set_eq.
Qed.
End column_type_facts.

(** C5 (the code departs from the claim): the table has the column 123 and
    no value under it, so every row that has a value there coerces to a
    number; [apply] still returns false, and the table stays as it is. *)
Theorem UpdateColumnType_row_without_cell :
  coercible "123" Number Example.tableABC /\
  apply Example.typeNumber123 Example.tableABC =
    (Example.tableABC, Example.typeNumber123, Normal false).
Proof.
  split; [|reflexivity].
  split; [reflexivity|].
  intros rowID v. unfold cell. simpl.
  case_decide; [|done]. discriminate.
Qed.

(** ** MoveRow *)

Section move_facts.
Context {number : Type} `{!JSNumber number}.
Implicit Types (table : Table.t number) (rowID : RowID) (targetIndex : Index).

Lemma MoveRow_apply_absent table rowID targetIndex start :
  rowID ∉ Table.order table ->
  apply (MoveRow rowID targetIndex start) table =
    (table, MoveRow rowID targetIndex start, Normal false).
Proof.
  intros Habsent. apply rows_get_None in Habsent. simpl. by rewrite Habsent.
Qed.

(** The position that [rows] gives holds the row, so that the first
    [splice] returns it: the last case of [MoveRow.apply] is not reached. *)
Lemma MoveRow_apply_present table rowID targetIndex start :
  rowID ∈ Table.order table ->
  exists j : nat,
    Table.order table !! j = Some rowID /\
    apply (MoveRow rowID targetIndex start) table =
      (withOrder table (moved (Table.order table) j rowID targetIndex),
       MoveRow rowID targetIndex (Z.of_nat j), Normal true).
Proof.
  intros Hpresent. apply rows_has, has_true in Hpresent as [k Hk].
  destruct (rows_get_Some _ _ _ Hk) as [j [Hj ->]].
  exists j. split; [done|].
  change (apply (MoveRow rowID targetIndex start) table)
    with (Update_apply (MoveRow rowID targetIndex start) table).
  unfold Update_apply. rewrite Hk.
  rewrite (splice_remove _ _ _ Hj). by rewrite splice_insert.
Qed.

(** C3, as amended: [MoveRow.apply] returns false exactly when the row is
    not in the table, and then the table is as before. When the row is in
    the table it returns true whatever the target is: the row leaves its
    position and enters at the position that [splice] resolves the target
    to, which lies within the remaining rows. *)
Theorem MoveRow_apply_result table rowID targetIndex start :
  (apply (MoveRow rowID targetIndex start) table).2
    = Normal (bool_decide (rowID ∈ Table.order table)) /\
  (rowID ∉ Table.order table ->
     (apply (MoveRow rowID targetIndex start) table).1.1 = table) /\
  (rowID ∈ Table.order table ->
     exists j : nat,
       Table.order table !! j = Some rowID /\
       (apply (MoveRow rowID targetIndex start) table).1.1 =
         withOrder table (moved (Table.order table) j rowID targetIndex) /\
       (splice_start targetIndex (length (Table.order table) - 1)
          <= length (Table.order table) - 1)%nat).
Proof.
  split_and!.
  - destruct (decide (rowID ∈ Table.order table)) as [Hin|Hout].
    + rewrite bool_decide_eq_true_2 by done.
      destruct (MoveRow_apply_present table rowID targetIndex start Hin)
        as [j [_ ->]]. done.
    + rewrite bool_decide_eq_false_2 by done.
      by rewrite MoveRow_apply_absent.
  - intros Hout. by rewrite MoveRow_apply_absent.
  - intros Hin.
    destruct (MoveRow_apply_present table rowID targetIndex start Hin)
      as [j [Hj ->]].
    exists j. split_and!; [done | done | apply splice_start_le].
Qed.
End move_facts.

Lemma MoveRow_apply_result_example :
  (apply Example.moveAto7 Example.tableAB).2 = Normal true /\
  exists j : nat,
    Table.order Example.tableAB !! j = Some "A" /\
    (apply Example.moveAto7 Example.tableAB).1.1 =
      withOrder Example.tableAB (moved (Table.order Example.tableAB) j "A" 7) /\
    (splice_start 7 (length (Table.order Example.tableAB) - 1)
       <= length (Table.order Example.tableAB) - 1)%nat.
Proof.
  destruct (MoveRow_apply_result Example.tableAB "A" 7 (-1)) as [Hresult [_ Hpresent]].
  split; [exact Hresult|].
  apply Hpresent. vm_compute. left.
Defined.

Section move_counterexample.

(** C3, as the design document states it, fails: in a table of two rows
    the target 7 is outside the order, and the move is accepted; the row
    goes last. *)
Lemma MoveRow_accepts_target_out_of_range : ~ rejectsBadTarget.
Proof.
  intros Hclaim.
  specialize (Hclaim ShiftContext.new Example.tableAB "A" 7 (-1)).
  assert ((apply (transform (MoveRow "A" 7 (-1)) ShiftContext.new) Example.tableAB).2
            = Normal true) as Haccepted by (by vm_compute).
  rewrite Hclaim in Haccepted; [discriminate|].
  right. vm_compute. intros [_ Hle]. by apply Hle.
Qed.

Lemma MoveRow_target_out_of_range_order :
  Table.order (apply Example.moveAto7 Example.tableAB).1.1 = ["B"; "A"].
Proof. by vm_compute. Qed.
End move_counterexample.

(** ** Stored values and coercion *)

Lemma append_length (s1 s2 : string) :
  String.length (s1 +:+ s2) = (String.length s1 + String.length s2)%nat.
Proof. induction s1 as [|c s1 IH]; simpl; [done | by rewrite IH]. Qed.

Lemma escape_length (s : string) : (String.length s <= String.length (JSON.escape s))%nat.
Proof.
  induction s as [|c s IH]; simpl; [done|].
  rewrite append_length.
  assert (1 <= String.length (JSON.escape_char c))%nat; [|lia].
  unfold JSON.escape_char. repeat case_match; simpl; lia.
Qed.

(** [JSON.stringify] of a string is two characters longer, at least. *)
Lemma stringifyString_neq (s : string) : JSON.stringifyString s <> s.
Proof.
  intros Heq. apply (f_equal String.length) in Heq.
  unfold JSON.stringifyString in Heq. simpl in Heq.
  rewrite append_length in Heq. simpl in Heq.
  pose proof (escape_length s). lia.
Qed.

Section cell_facts.
Context {number : Type} `{!JSNumber number}.
Implicit Types (table : Table.t number) (this : Update number).

Lemma applyCellValue_true expected rowID columnID v table table' :
  applyCellValue expected rowID columnID v table = (table', Normal true) ->
  JSMap.get columnID (Table.columns table') = Some expected /\
  cell table' rowID columnID = Some v.
Proof.
  unfold applyCellValue. intros Happly.
  repeat case_match; simplify_eq. simpl. split; [done|].
  unfold cell. simpl. by rewrite !get_set_eq.
Qed.

(** C6, as amended: after [UpdateTextCellValue] or [UpdateNumberCellValue]
    has returned true, the column has the type that the update asks for and
    the cell holds the value of the update as it was given. The coercion of
    a stored string by the type [Text] is defined; it is the string in
    quotes, never the string. *)
Theorem cell_update_stores_verbatim this table table' this' rowID columnID v type :
  cellUpdate this = Some (rowID, columnID, v, type) ->
  apply this table = (table', this', Normal true) ->
  JSMap.get columnID (Table.columns table') = Some type /\
  cell table' rowID columnID = Some v /\
  forall s, v = VString s ->
    CellType.coerce type (Some v) = Some (VString (JSON.stringifyString s)) /\
    JSON.stringifyString s <> s.
Proof.
  intros Hkind Happly.
  destruct this; simpl in Hkind; simplify_eq; simpl in Happly.
  - destruct (applyCellValue _ _ _ _ _) as [table0 result] eqn:Hcell.
    simplify_eq. apply applyCellValue_true in Hcell as [Hcolumn Hcell].
    split_and!; [done | done |].
    intros s [= <-]. split; [done | apply stringifyString_neq].
  - destruct (applyCellValue _ _ _ _ _) as [table0 result] eqn:Hcell.
    simplify_eq. apply applyCellValue_true in Hcell as [Hcolumn Hcell].
    split_and!; [done | done |]. intros s Hs. discriminate.
Qed.
End cell_facts.

Section cell_examples.

Lemma cell_update_stores_verbatim_example :
  let table := (apply Example.fooABC123 Example.tableABC).1.1 in
  JSMap.get "123" (Table.columns table) = Some Text /\
  cell table "ABC" "123" = Some (VString "foo") /\
  forall s, @VString (option Z) "foo" = VString s ->
    CellType.coerce Text (Some (VString "foo"))
      = Some (VString (JSON.stringifyString s)) /\
    JSON.stringifyString s <> s.
Proof.
  apply (cell_update_stores_verbatim Example.fooABC123 Example.tableABC _
           Example.fooABC123 "ABC" "123" (VString "foo") Text).
  - reflexivity.
  - reflexivity.
Defined.

(** C6, as the design document states it, fails: after the server has
    processed the three edits of a client, the cell holds foo under a
    column of type text, and the coercion of foo by that type is foo in
    quotes. *)
Lemma stored_text_is_not_canonical :
  ~ canonical (Server.table (Server.server Example.writesFoo)).
Proof.
  intros Hcanonical.
  destruct (Hcanonical "ABC" "123" (VString "foo")) as [type [Htype Hcoerce]].
  - by vm_compute.
  - vm_compute in Htype. injection Htype as <-.
    vm_compute in Hcoerce. discriminate.
Qed.
End cell_examples.

(** ** Well-formed tables *)

Section wellFormed_facts.
Context {number : Type} `{!JSNumber number}.
Implicit Types (table : Table.t number) (this : Update number) (rowID : RowID).

Lemma wellFormed_empty : wellFormed (@Table.empty number).
Proof.
  split; [apply NoDup_nil_2|]. intros rowID. simpl. split.
  - intros Hin. by apply elem_of_nil in Hin.
  - by intros [? ?].
Qed.

(** Without the element at a position of a list without repetition. *)
Lemma elem_of_without (order : list RowID) (j : nat) rowID rowID' :
  NoDup order -> order !! j = Some rowID ->
  rowID' ∈ take j order ++ drop (S j) order <-> rowID' ∈ order /\ rowID' <> rowID.
Proof.
  intros Hnodup Hj.
  rewrite <- (take_drop_middle _ _ _ Hj) in Hnodup.
  rewrite <- (take_drop_middle _ _ _ Hj) at 3.
  apply NoDup_app in Hnodup as (_ & Hdisjoint & Hrest).
  apply NoDup_cons in Hrest as [Hnotin _].
  rewrite !elem_of_app, elem_of_cons. split.
  - intros [Hin|Hin].
    + split; [by left|]. intros ->. eapply Hdisjoint; [done | left].
    + split; [right; by right|]. by intros ->.
  - intros [[Hin|[->|Hin]] Hne]; [by left | done | by right].
Qed.

Lemma moved_Permutation (order : list RowID) (j : nat) rowID targetIndex :
  order !! j = Some rowID -> moved order j rowID targetIndex ≡ₚ order.
Proof.
  intros Hj. unfold moved.
  set (rest := take j order ++ drop (S j) order).
  transitivity (rowID :: rest).
  - by rewrite <- Permutation_middle, take_drop.
  - subst rest. rewrite Permutation_middle. by rewrite take_drop_middle.
Qed.

Lemma DestroyRow_apply_absent table rowID index :
  rowID ∉ Table.order table ->
  apply (DestroyRow rowID index) table = (table, DestroyRow rowID index, Normal false).
Proof.
  intros Habsent. apply rows_get_None in Habsent. simpl. by rewrite Habsent.
Qed.

(** [DestroyRow.apply] on a row of the table: the row leaves the order
    and its cells leave the table; the position is saved. *)
Lemma DestroyRow_apply_present table rowID index :
  rowID ∈ Table.order table ->
  exists j : nat,
    Table.order table !! j = Some rowID /\
    apply (DestroyRow rowID index) table =
      (withOrder (withCells table (JSMap.delete rowID (Table.cells table)))
         (take j (Table.order table) ++ drop (S j) (Table.order table)),
       DestroyRow rowID (Z.of_nat j), Normal true).
Proof.
  intros Hpresent. apply rows_has, has_true in Hpresent as [k Hk].
  destruct (rows_get_Some _ _ _ Hk) as [j [Hj ->]].
  exists j. split; [done|].
  change (apply (DestroyRow rowID index) table)
    with (Update_apply (DestroyRow rowID index) table).
  unfold Update_apply. rewrite Hk.
  change (Table.order (withCells table (JSMap.delete rowID (Table.cells table))))
    with (Table.order table).
  by rewrite (splice_remove _ _ _ Hj).
Qed.

Lemma applyCellValue_wellFormed expected rowID columnID v table :
  wellFormed table ->
  wellFormed (applyCellValue expected rowID columnID v table).1.
Proof.
  intros [Hnodup Hrows]. unfold applyCellValue.
  repeat case_match; simpl; try done.
  split; [done|]. intros rowID'. simpl. rewrite Hrows.
  destruct (decide (rowID = rowID')) as [<-|Hne].
  - rewrite get_set_eq. split; [by eexists | by eexists].
  - by rewrite get_set_ne.
Qed.

Lemma apply_wellFormed this table :
  wellFormed table -> wellFormed (apply this table).1.1.
Proof.
  intros Hwf. pose proof Hwf as [Hnodup Hrows].
  destruct this as [rowID|rowID index|rowID targetIndex start|columnID columnType
                    |columnID|columnID columnType|rowID columnID cellValue
                    |rowID columnID cellValue].
  - simpl. destruct (JSMap.has rowID (Table.rows table)) eqn:Hhas; [done|].
    assert (rowID ∉ Table.order table) as Hnew.
    { rewrite <- rows_has. by rewrite Hhas. }
    split; simpl.
    + apply NoDup_app. split_and!; [done | | apply NoDup_singleton].
      intros x Hx Hx'. apply list_elem_of_singleton in Hx'. by subst x.
    + intros rowID'. rewrite elem_of_app, list_elem_of_singleton, Hrows.
      destruct (decide (rowID = rowID')) as [<-|Hne].
      * rewrite get_set_eq. split; [by eexists | by right].
      * rewrite get_set_ne by done. split; [by intros [?|?] | by left].
  - destruct (decide (rowID ∈ Table.order table)) as [Hin|Hout];
      [|by rewrite DestroyRow_apply_absent].
    destruct (DestroyRow_apply_present table rowID index Hin) as [j [Hj ->]].
    split; simpl.
    + rewrite <- (take_drop_middle _ _ _ Hj) in Hnodup.
      apply NoDup_app in Hnodup as (Htake & Hdisjoint & Hrest).
      apply NoDup_cons in Hrest as [_ Hdrop].
      apply NoDup_app. split_and!; [done | | done].
      intros x Hx Hx'. eapply Hdisjoint; [done | by right].
    + intros rowID'. rewrite (elem_of_without _ _ _ _ Hnodup Hj), Hrows.
      destruct (decide (rowID = rowID')) as [<-|Hne].
      * rewrite get_delete_eq. split; [by intros [_ ?] | by intros [? ?]].
      * rewrite get_delete_ne by done. split; [by intros [? _] | done].
  - destruct (decide (rowID ∈ Table.order table)) as [Hin|Hout].
    + destruct (MoveRow_apply_present table rowID targetIndex start Hin)
        as [j [Hj ->]].
      split; simpl.
      * by rewrite (moved_Permutation _ _ _ _ Hj).
      * intros rowID'. by rewrite (moved_Permutation _ _ _ _ Hj).
    + by rewrite MoveRow_apply_absent.
  - simpl. by destruct (JSMap.has columnID (Table.columns table)).
  - simpl. destruct (JSMap.has columnID (Table.columns table)); [|done].
    split; [done|]. intros rowID'. simpl. rewrite Hrows.
    rewrite (get_map_entries (fun row => (row.1, JSMap.delete columnID row.2))) by done.
    by rewrite fmap_is_Some.
  - simpl. destruct (JSMap.has columnID (Table.columns table)); [|done].
    destruct (fold_left _ _ _); [|done].
    split; [done|]. intros rowID'. simpl. rewrite Hrows.
    rewrite (get_map_entries (coerceRow columnID columnType)).
    + by rewrite fmap_is_Some.
    + intros row. unfold coerceRow. by case_match.
  - simpl. pose proof (applyCellValue_wellFormed Text rowID columnID
                         (VString cellValue) table Hwf) as Hcell.
    by destruct (applyCellValue _ _ _ _ _).
  - simpl. pose proof (applyCellValue_wellFormed Number rowID columnID
                         (VNumber cellValue) table Hwf) as Hcell.
    by destruct (applyCellValue _ _ _ _ _).
Qed.

Lemma applyAll_wellFormed (updates : list (Update number)) table :
  wellFormed table -> wellFormed (applyAll updates table).
Proof.
  revert table. unfold applyAll.
  induction updates as [|this updates IH]; intros table Hwf; simpl; [done|].
  apply IH. by apply apply_wellFormed.
Qed.
End wellFormed_facts.

(** ** Objects made of maps *)

Section JSObject_facts.
Context {V : Type}.
Implicit Types (m : JSMap.t string V) (this : JSObject.t V) (key : string).

Lemma get_None_keys m key : JSMap.get key m = None <-> key ∉ m.*1.
Proof.
  induction m as [|[key' v'] m IH]; csimpl.
  - split; [intros _; apply not_elem_of_nil | done].
  - rewrite not_elem_of_cons. destruct (decide (key' = key)) as [->|Hne].
    + split; [done | by intros [? _]].
    + rewrite IH. split; [by intros ? | by intros [_ ?]].
Qed.

Lemma set_keys m key v :
  (JSMap.set key v m).*1 = if JSMap.has key m then m.*1 else m.*1 ++ [key].
Proof.
  unfold JSMap.has. induction m as [|[key' v'] m IH]; csimpl; [done|].
  destruct (decide (key' = key)) as [->|Hne]; csimpl; [done|].
  rewrite IH. by destruct (JSMap.get key m).
Qed.

Lemma set_NoDup m key v : NoDup m.*1 -> NoDup (JSMap.set key v m).*1.
Proof.
  intros Hnodup. rewrite set_keys. destruct (JSMap.has key m) eqn:Hhas; [done|].
  apply has_false, get_None_keys in Hhas.
  apply NoDup_app. split_and!; [done| |apply NoDup_singleton].
  intros key' Hin ->%list_elem_of_singleton. done.
Qed.

Lemma delete_NoDup m key : NoDup m.*1 -> NoDup (JSMap.delete key m).*1.
Proof.
  unfold JSMap.delete. induction m as [|[key' v'] m IH]; csimpl; [done|].
  intros [Hfresh Hnodup]%NoDup_cons.
  destruct (decide (key' = key)) as [->|Hne].
  - rewrite filter_cons_False by (simpl; auto). by apply IH.
  - rewrite filter_cons_True by done. simpl. apply NoDup_cons. split; [|by apply IH].
    intros [[key'' v''] [Heq [_ Hin]%list_elem_of_filter]]%list_elem_of_fmap.
    simpl in Heq. subst key''. apply Hfresh, list_elem_of_fmap.
    by exists (key', v'').
Qed.

Lemma insertIndex_keys (i : N) key v this :
  (JSObject.insertIndex i key v this).*1 ≡ₚ key :: this.*1.
Proof.
  induction this as [|[key' v'] this IH]; csimpl; [done|].
  destruct (JSObject.arrayIndex key') as [j|]; [|done].
  destruct (j <? i)%N; [|done]. simpl. rewrite IH. apply Permutation_swap.
Qed.

Lemma get_insertIndex (i : N) key v this key' :
  JSMap.get key this = None ->
  JSMap.get key' (JSObject.insertIndex i key v this) =
    if decide (key = key') then Some v else JSMap.get key' this.
Proof.
  induction this as [|[key0 v0] this IH]; csimpl; [done|].
  destruct (decide (key0 = key)) as [->|Hne]; [done|]. intros Hget.
  destruct (JSObject.arrayIndex key0) as [j|]; [|done].
  destruct (j <? i)%N; [|done]. simpl. rewrite IH by done.
  destruct (decide (key0 = key')) as [->|Hne']; [|done].
  by rewrite decide_False.
Qed.

Lemma get_app_singleton m key v key' :
  JSMap.get key' (m ++ [(key, v)]) =
    match JSMap.get key' m with
    | Some v' => Some v'
    | None => if decide (key = key') then Some v else None
    end.
Proof.
  induction m as [|[key0 v0] m IH]; csimpl; [done|].
  by destruct (decide (key0 = key')).
Qed.

Lemma get_defineOwn key v this key' :
  JSMap.get key' (JSObject.defineOwn key v this) =
    if decide (key = key') then Some v else JSMap.get key' this.
Proof.
  unfold JSObject.defineOwn. destruct (JSMap.has key this) eqn:Hhas.
  - destruct (decide (key = key')) as [->|Hne];
      [apply get_set_eq | by apply get_set_ne].
  - apply has_false in Hhas. destruct (JSObject.arrayIndex key) as [i|].
    + by apply get_insertIndex.
    + rewrite get_app_singleton.
      destruct (decide (key = key')) as [->|Hne]; [by rewrite Hhas|].
      by destruct (JSMap.get key' this).
Qed.

Lemma defineOwn_NoDup key v this :
  NoDup this.*1 -> NoDup (JSObject.defineOwn key v this).*1.
Proof.
  intros Hnodup. unfold JSObject.defineOwn.
  destruct (JSMap.has key this) eqn:Hhas; [by apply set_NoDup|].
  apply has_false, get_None_keys in Hhas.
  destruct (JSObject.arrayIndex key) as [i|].
  - rewrite insertIndex_keys. by apply NoDup_cons.
  - rewrite fmap_app. apply NoDup_app. split_and!; [done| |apply NoDup_singleton].
    intros key' Hin ->%list_elem_of_singleton. done.
Qed.

(** What [Object.assign] makes of the entries of a map that has each key
    once, from an object that has none of the keys: the object has the
    entries of the map, but for the key [__proto__], besides what it
    had. *)
Lemma get_assign_entries m : forall this,
  NoDup m.*1 -> NoDup this.*1 ->
  (forall key, key ∈ m.*1 -> JSMap.get key this = None) ->
  let assigned :=
    fold_left (fun target property => JSObject.set property.1 property.2 target)
      m this in
  NoDup assigned.*1 /\
  forall key,
    JSMap.get key assigned =
      match JSMap.get key this with
      | Some v => Some v
      | None => if decide (key = "__proto__") then None else JSMap.get key m
      end.
Proof.
  induction m as [|[key0 v0] m IH]; intros this Hm Hthis Hfresh; csimpl.
  - split; [done|]. intros key. destruct (JSMap.get key this); [done|]. by case_decide.
  - apply NoDup_cons in Hm as [Hkey0 Hm]. simpl in Hkey0.
    assert (JSMap.get key0 this = None) as Hnone by (apply Hfresh; left).
    assert (forall key,
              JSMap.get key (JSObject.set key0 v0 this) =
                if decide (key0 = "__proto__") then JSMap.get key this
                else if decide (key0 = key) then Some v0 else JSMap.get key this)
      as Hset.
    { intros key. unfold JSObject.set. case_decide; [done|]. apply get_defineOwn. }
    destruct (IH (JSObject.set key0 v0 this)) as [Hnodup Hget]; [done| | |].
    { unfold JSObject.set. case_decide; [done | by apply defineOwn_NoDup]. }
    { intros key Hin. rewrite Hset. rewrite (Hfresh key) by (by right).
      case_decide; [done|]. rewrite decide_False; [done|]. by intros ->. }
    split; [done|]. intros key. rewrite Hget, Hset.
    destruct (decide (key0 = "__proto__")) as [->|Hproto].
    + destruct (JSMap.get key this); [done|].
      destruct (decide (key = "__proto__")) as [->|Hne]; [done|].
      by rewrite decide_False.
    + destruct (decide (key0 = key)) as [->|Hne].
      * rewrite Hnone. by rewrite decide_False.
      * done.
Qed.

Lemma assign_singletons m this :
  JSObject.assign this (map (fun entry => JSObject.singleton entry.1 entry.2) m) =
    fold_left (fun target property => JSObject.set property.1 property.2 target)
      m this.
Proof.
  unfold JSObject.assign. revert this.
  induction m as [|[key v] m IH]; intros this; csimpl; [done|]. apply IH.
Qed.
End JSObject_facts.

(** ** The keys of the cells of a row *)

Section rowKeys_facts.
Context {number : Type} `{!JSNumber number}.
Implicit Types (table : Table.t number) (this : Update number) (rowID : RowID).

(** A map of cells has each column once: it is a [Map]. *)
Definition rowKeysUnique table : Prop :=
  Forall (fun row => NoDup row.2.*1) (Table.cells table).

Lemma set_Forall {K W} `{EqDecision K} (P : K * W -> Prop) (m : JSMap.t K W) k v :
  Forall P m -> P (k, v) -> Forall P (JSMap.set k v m).
Proof.
  intros Hm Hv. induction Hm as [|[k' v'] m Hhead Htail IH]; simpl.
  - by apply Forall_singleton.
  - destruct (decide (k' = k)); by apply Forall_cons.
Qed.

Lemma applyCellValue_rowKeysUnique expected rowID columnID v table :
  rowKeysUnique table ->
  rowKeysUnique (applyCellValue expected rowID columnID v table).1.
Proof.
  intros Hinv. unfold applyCellValue.
  destruct (JSMap.get columnID (Table.columns table)); [|done].
  destruct (JSMap.get rowID (Table.rows table)); [|done].
  case_decide; [|done].
  destruct (JSMap.get rowID (Table.cells table)) as [rowColumns|] eqn:Hrow; [|done].
  simpl. apply set_Forall; [done|]. simpl. apply set_NoDup.
  apply get_Some_elem in Hrow. unfold rowKeysUnique in Hinv.
  rewrite Forall_forall in Hinv. by apply (Hinv (rowID, rowColumns)).
Qed.

Lemma apply_rowKeysUnique this table :
  rowKeysUnique table -> rowKeysUnique (apply this table).1.1.
Proof.
  intros Hinv.
  destruct this as [rowID|rowID index|rowID targetIndex start|columnID columnType
                    |columnID|columnID columnType|rowID columnID cellValue
                    |rowID columnID cellValue].
  - simpl. destruct (JSMap.has rowID (Table.rows table)); [done|].
    unfold rowKeysUnique. simpl. apply set_Forall; [done|]. apply NoDup_nil_2.
  - destruct (decide (rowID ∈ Table.order table)) as [Hin|Hout];
      [|by rewrite DestroyRow_apply_absent].
    destruct (DestroyRow_apply_present table rowID index Hin) as [j [_ ->]].
    unfold rowKeysUnique. simpl. unfold JSMap.delete.
    apply Forall_forall. intros row [_ Hrow]%list_elem_of_filter.
    unfold rowKeysUnique in Hinv. rewrite Forall_forall in Hinv. by apply Hinv.
  - destruct (decide (rowID ∈ Table.order table)) as [Hin|Hout];
      [|by rewrite MoveRow_apply_absent].
    by destruct (MoveRow_apply_present table rowID targetIndex start Hin)
      as [j [_ ->]].
  - simpl. by destruct (JSMap.has columnID (Table.columns table)).
  - simpl. destruct (JSMap.has columnID (Table.columns table)); [|done].
    unfold rowKeysUnique. simpl. apply Forall_fmap.
    eapply Forall_impl; [exact Hinv|]. intros row Hrow. simpl.
    by apply delete_NoDup.
  - simpl. destruct (JSMap.has columnID (Table.columns table)); [|done].
    destruct (fold_left _ _ _); [|done].
    unfold rowKeysUnique. simpl. apply Forall_fmap.
    eapply Forall_impl; [exact Hinv|]. intros row Hrow.
    unfold coerceRow. simpl. case_match; [|done]. simpl. by apply set_NoDup.
  - simpl. pose proof (applyCellValue_rowKeysUnique Text rowID columnID
                         (VString cellValue) table Hinv) as Hcell.
    by destruct (applyCellValue _ _ _ _ _).
  - simpl. pose proof (applyCellValue_rowKeysUnique Number rowID columnID
                         (VNumber cellValue) table Hinv) as Hcell.
    by destruct (applyCellValue _ _ _ _ _).
Qed.

Lemma applyAll_rowKeysUnique (updates : list (Update number)) table :
  rowKeysUnique table -> rowKeysUnique (applyAll updates table).
Proof.
  revert table. unfold applyAll.
  induction updates as [|this updates IH]; intros table Hinv; simpl; [done|].
  by apply IH, apply_rowKeysUnique.
Qed.
End rowKeys_facts.

(** ** Serialization *)

Section serialize_facts.
Context {number : Type} `{!JSNumber number}.
Implicit Types (table : Table.t number) (rowID : RowID).

(** [serialize] does not throw when every row of the order has cells. *)
Lemma serializeRows_total table (order : list RowID) :
  (forall rowID, rowID ∈ order -> is_Some (JSMap.get rowID (Table.cells table))) ->
  Table.serializeRows table order = Normal (map (rowOutput table) order).
Proof.
  induction order as [|rowID order IH]; intros Hcells; simpl; [done|].
  unfold Table.serializeRow, rowOutput at 1, rowCells.
  destruct (Hcells rowID) as [row ->]; [left|]. simpl.
  rewrite IH; [done|]. intros rowID' Hin. apply Hcells. by right.
Qed.

Lemma columnShape_serialized (column : ColumnID * CellType) :
  columnShape (number := number) column
    (Table.ColumnOutput column.1 (CellType.toString column.2)).
Proof. unfold columnShape, Table.ColumnOutput. by destruct column as [id []]. Qed.

(** The object that [serialize] makes of a map of cells. *)
Lemma cellValuesByColumnId_properties (row : JSMap.t ColumnID (value number)) :
  NoDup row.*1 ->
  exists body,
    Table.cellValuesByColumnId row = JObject body /\
    NoDup body.*1 /\
    forall columnID,
      JSMap.get columnID body =
        if decide (columnID = "__proto__") then None
        else serializedCell <$> JSMap.get columnID row.
Proof.
  intros Hrow. eexists. split; [reflexivity|].
  rewrite assign_singletons.
  destruct (get_assign_entries row [] Hrow (NoDup_nil_2) (fun _ _ => eq_refl))
    as [Hnodup Hget].
  split.
  - rewrite <- list_fmap_compose.
    by erewrite (list_fmap_ext _ fst) by (by intros ? [? ?]).
  - intros columnID.
    rewrite (get_map_entries (fun property => (property.1, Table.jsonValue property.2)))
      by done.
    rewrite Hget. simpl. case_decide; [done|].
    by destruct (JSMap.get columnID row) as [[]|].
Qed.

Lemma rowShape_serialized table rowID :
  rowKeysUnique table ->
  is_Some (JSMap.get rowID (Table.cells table)) ->
  rowShape table rowID (rowOutput table rowID).
Proof.
  intros Hkeys [row Hrow].
  assert (NoDup row.*1) as Hnodup.
  { apply get_Some_elem in Hrow. unfold rowKeysUnique in Hkeys.
    rewrite Forall_forall in Hkeys. by apply (Hkeys (rowID, row)). }
  destruct (cellValuesByColumnId_properties row Hnodup) as [body [Hbody [Hunique Hget]]].
  exists body. unfold rowOutput, rowCells, cell. rewrite Hrow. simpl.
  rewrite Hbody. split_and!; [done..|].
  intros Hunset. destruct body as [|[columnID j] body]; [done|].
  specialize (Hget columnID). simpl in Hget. rewrite decide_True in Hget by done.
  case_decide; [done|]. by rewrite Hunset in Hget.
Qed.

Lemma serialize_wellFormed table :
  wellFormed table -> rowKeysUnique table ->
  exists columns rows,
    Table.serialize table =
      Normal (JObject [("columns", JArray columns); ("rows", JArray rows)]) /\
    Forall2 columnShape (Table.columns table) columns /\
    Forall2 (rowShape table) (Table.order table) rows.
Proof.
  intros [_ Hrows] Hkeys.
  exists (Table.serializeColumns table), (map (rowOutput table) (Table.order table)).
  split_and!.
  - unfold Table.serialize. rewrite serializeRows_total; [done|].
    intros rowID Hin. by apply Hrows.
  - unfold Table.serializeColumns. apply Forall2_fmap_r, Forall_Forall2_diag.
    apply Forall_forall. intros column _. apply columnShape_serialized.
  - apply Forall2_fmap_r, Forall_Forall2_diag.
    apply Forall_forall. intros rowID Hin. apply rowShape_serialized; [done|].
    by apply Hrows.
Qed.

(** Under the invariant no update throws. *)
Lemma apply_returns (this : Update number) table :
  wellFormed table -> exists success, (apply this table).2 = Normal success.
Proof.
  intros [_ Hrows].
  destruct this; simpl; try (repeat case_match; by eexists).
  - unfold applyCellValue. repeat case_match; simplify_eq; try by eexists.
    exfalso. match goal with Hrow : JSMap.get _ (Table.rows _) = Some _ |- _ =>
      apply rows_get_Some in Hrow as [j [Hj _]];
      apply list_elem_of_lookup_2, Hrows in Hj as [row Hrow] end. congruence.
  - unfold applyCellValue. repeat case_match; simplify_eq; try by eexists.
    exfalso. match goal with Hrow : JSMap.get _ (Table.rows _) = Some _ |- _ =>
      apply rows_get_Some in Hrow as [j [Hj _]];
      apply list_elem_of_lookup_2, Hrows in Hj as [row Hrow] end. congruence.
Qed.

(** The table that an offline client serializes: its table with the
    updates of the outbox applied in order as long as they succeed. The
    first update that fails ends the loop, and leaves the table as it
    is. *)
Lemma applyOutbox_stops (outbox : list (Message.t (Update number))) table :
  wellFormed table ->
  exists applied rest,
    Message.update <$> outbox = applied ++ rest /\
    allApply applied table /\
    match rest with
    | [] => True
    | this :: _ => (apply this (applyAll applied table)).2 = Normal false
    end /\
    Client.applyOutbox outbox table = Normal (applyAll applied table).
Proof.
  revert table. induction outbox as [|item outbox IH]; intros table Hwf.
  { by exists [], []. }
  pose proof (apply_wellFormed (Message.update item) table Hwf) as Hwf'.
  destruct (apply_returns (Message.update item) table Hwf) as [success Hsuccess].
  destruct success.
  - destruct (IH _ Hwf') as [applied [rest [Hsplit [Hall [Hrest Hrun]]]]].
    exists (Message.update item :: applied), rest. split_and!.
    + by rewrite fmap_cons, Hsplit.
    + done.
    + done.
    + revert Hsuccess Hrun. simpl.
      change (apply (Message.update item) table)
        with (Update_apply (Message.update item) table).
      destruct (Update_apply (Message.update item) table) as [[table' this'] result].
      simpl. by intros -> ->.
  - exists [], (Message.update <$> item :: outbox). split_and!; try done.
    revert Hsuccess. simpl.
    change (apply (Message.update item) table)
      with (Update_apply (Message.update item) table).
    destruct (Update_apply (Message.update item) table) as [[table' this'] result]
      eqn:Happly.
    simpl. intros ->. simpl. f_equal. unfold applyAll. simpl.
    by apply (apply_false _ _ _ _ Happly).
Qed.

(** C9 (the code departs from the claim under one key): the serialization
    of a table that updates have built from the empty table is an object
    with the key columns, an array with one object of an id and a type,
    text or number, for each column in the order of the map of columns,
    and the key rows, an array with one object for each row in the order
    of the rows. The object under cellValuesByColumnId has each key once;
    it has the assigned cells of the row, a text as a JSON string and a
    number as a JSON number, and no other key; and it has no key at all for
    a row without cells. But it never has the key [__proto__]: a cell that
    is assigned under a column of that name is not serialized. [getData]
    returns this serialization, of the table of an online client, and of
    the table with the updates of the outbox applied, up to the first that
    fails, of an offline client. *)
Theorem serialize_shape (updates : list (Update number)) :
  let table := applyAll updates Table.empty in
  (exists columns rows,
     Table.serialize table =
       Normal (JObject [("columns", JArray columns); ("rows", JArray rows)]) /\
     Forall2 columnShape (Table.columns table) columns /\
     Forall2 (rowShape table) (Table.order table) rows) /\
  (forall (outbox : list (Message.t (Update number))) groupID version online,
     exists applied rest,
       Message.update <$> outbox = applied ++ rest /\
       allApply applied table /\
       match rest with
       | [] => True
       | this :: _ => (apply this (applyAll applied table)).2 = Normal false
       end /\
       Client.getData
         {| Client.table := table; Client.outbox := outbox;
            Client.groupID := groupID; Client.version := version;
            Client.online := online |} =
       Table.serialize
         (if online then table else applyAll (updates ++ applied) Table.empty)) /\
  let assigned :=
    applyAll [CreateRow "ABC"; CreateColumn "__proto__" Text;
              UpdateTextCellValue "ABC" "__proto__" "foo"] Table.empty in
  cell assigned "ABC" "__proto__" = Some (VString "foo") /\
  Table.serialize assigned =
    Normal (JObject
      [("columns", JArray [JObject [("id", JString "__proto__");
                                    ("type", JString "text")]]);
       ("rows", JArray [JObject [("id", JString "ABC");
                                 ("cellValuesByColumnId", JObject [])]])]).
Proof.
  intros table.
  assert (wellFormed table) as Hwf by apply applyAll_wellFormed, wellFormed_empty.
  assert (rowKeysUnique table) as Hkeys
    by apply applyAll_rowKeysUnique, Forall_nil_2.
  split_and!; [by apply serialize_wellFormed| |done..].
  intros outbox groupID version online.
  destruct (applyOutbox_stops outbox table Hwf)
    as [applied [rest [Hsplit [Hall [Hrest Hrun]]]]].
  exists applied, rest. split_and!; [done..|].
  unfold Client.getData. simpl. destruct online; [done|].
  replace (Table.copy table) with table by (by destruct table).
  rewrite Hrun. simpl. unfold table, applyAll. by rewrite fold_left_app.
Qed.
End serialize_facts.

(** ** Methods that keep a relation between the state before and after *)

Section preserves.
Context {S : Type} (R : S -> S -> Prop) `{!Reflexive R} `{!Transitive R}.

(** The state a method leaves, whether it returns or throws, is related
    to the state it started in. *)
Definition preserves {A} (c : M S A) : Prop := forall s, R s (c s).1.

Lemma preserves_ret {A} (a : A) : preserves (ret a).
Proof. intros s. simpl. reflexivity. Qed.

Lemma preserves_gets {A} (f : S -> A) : preserves (gets f).
Proof. intros s. simpl. reflexivity. Qed.

Lemma preserves_liftOutcome {A} (o : outcome A) : preserves (liftOutcome o).
Proof. intros s. simpl. reflexivity. Qed.

Lemma preserves_modify (f : S -> S) : (forall s, R s (f s)) -> preserves (modify f).
Proof. intros Hf s. apply Hf. Qed.

Lemma preserves_bind {A B} (c : M S A) (f : A -> M S B) :
  preserves c -> (forall a, preserves (f a)) -> preserves (bind c f).
Proof.
  intros Hc Hf s. unfold bind. specialize (Hc s).
  destruct (c s) as [s' [a|e]]; simpl in *; [|done].
  etransitivity; [exact Hc | apply Hf].
Qed.

Lemma preserves_forEach {A} (l : list A) (f : A -> M S unit) :
  (forall a, preserves (f a)) -> preserves (forEach l f).
Proof.
  intros Hf. induction l as [|a l IH]; simpl.
  - apply preserves_ret.
  - apply preserves_bind; [apply Hf | intros _; apply IH].
Qed.
End preserves.

Ltac preserves_step :=
  first
    [ apply preserves_ret
    | apply preserves_gets
    | apply preserves_liftOutcome
    | apply preserves_forEach
    | apply preserves_bind
    | apply preserves_modify ];
  try typeclasses eauto;
  try lazymatch goal with |- forall _, _ => intros ?; cbv beta end.

(** ** What the methods of the server keep *)

Section server_facts.
Context {number : Type} `{!JSNumber number} {U : Type} `{!TableUpdate number U}.
Implicit Types (w : Server.world number U) (message : Message.t U) (client : ClientRef).

(** The set of failed groups only grows. *)
Definition failedGrows w w' : Prop :=
  Server.failed (Server.server w) ⊆ Server.failed (Server.server w').

#[local] Instance failedGrows_reflexive : Reflexive failedGrows.
Proof. intros w. unfold failedGrows. done. Qed.

#[local] Instance failedGrows_transitive : Transitive failedGrows.
Proof. intros w1 w2 w3. unfold failedGrows. set_solver. Qed.

(** What the invariant of the online flag reads of a client. *)
Definition flags (this : Client.t number U) : bool * list (Message.t U) :=
  (Client.online this, Client.outbox this).

(** The clients are the same, with the same online flag and outbox. *)
Definition sameFlags w w' : Prop :=
  flags <$> Server.heap w' = flags <$> Server.heap w.

#[local] Instance sameFlags_reflexive : Reflexive sameFlags.
Proof. by intros w. Qed.

#[local] Instance sameFlags_transitive : Transitive sameFlags.
Proof. intros w1 w2 w3. unfold sameFlags. congruence. Qed.

Lemma insert_sameFlags (heap : list (Client.t number U)) client this this' :
  heap !! client = Some this -> flags this' = flags this ->
  flags <$> <[client := this']> heap = flags <$> heap.
Proof.
  intros Hthis Hflags. rewrite list_fmap_insert, Hflags.
  apply list_insert_id. by rewrite list_lookup_fmap, Hthis.
Qed.

Lemma deliverSync_failedGrows client table version :
  preserves failedGrows (Server.deliverSync client table version).
Proof.
  intros w. unfold Server.deliverSync, failedGrows.
  destruct (Server.heap w !! client) as [this|]; [|done].
  by destruct (Client.sync _ _ _ _).
Qed.

Lemma deliverSync_sameFlags client table version :
  preserves sameFlags (Server.deliverSync client table version).
Proof.
  intros w. unfold Server.deliverSync, sameFlags.
  destruct (Server.heap w !! client) as [this|] eqn:Hthis; [|done].
  destruct (Client.sync _ _ _ _) as [this' uuid'] eqn:Hsync. simpl.
  apply (insert_sameFlags _ _ this); [done|].
  unfold Client.sync in Hsync. case_decide; by simplify_eq.
Qed.

Lemma deliverAccepted_failedGrows slot client :
  preserves failedGrows (Server.deliverAccepted slot client).
Proof.
  intros w. unfold Server.deliverAccepted, failedGrows.
  repeat case_match; done.
Qed.

Lemma deliverAccepted_sameFlags slot client :
  preserves sameFlags (Server.deliverAccepted slot client).
Proof.
  intros w. unfold Server.deliverAccepted, sameFlags.
  destruct (Server.heap w !! client) as [this|] eqn:Hthis; [|done].
  destruct (Server.history (Server.server w) !! slot) as [message|]; [|done].
  destruct (Client.accepted _ _ _) as [[[this' message'] uuid'] result] eqn:Haccepted.
  simpl. apply (insert_sameFlags _ _ this); [done|].
  unfold Client.accepted in Haccepted. repeat case_match; by simplify_eq.
Qed.

Lemma deliverRejected_failedGrows messageID groupID client :
  preserves failedGrows (Server.deliverRejected messageID groupID client).
Proof.
  intros w. unfold Server.deliverRejected, failedGrows.
  by destruct (Server.heap w !! client).
Qed.

Lemma deliverRejected_sameFlags messageID groupID client :
  preserves sameFlags (Server.deliverRejected messageID groupID client).
Proof.
  intros w. unfold Server.deliverRejected, sameFlags.
  by destruct (Server.heap w !! client).
Qed.

Lemma processMessage_failedGrows message :
  preserves failedGrows (Server.processMessage message).
Proof.
  unfold Server.processMessage. preserves_step; [preserves_step|].
  case_decide; [preserves_step|].
  preserves_step; [preserves_step|].
  destruct (apply _ _) as [[table_ update_] result].
  preserves_step; [preserves_step; by unfold failedGrows|].
  preserves_step; [preserves_step|].
  case_match.
  - preserves_step; [preserves_step; by unfold failedGrows|].
    unfold Server.accept. preserves_step; [preserves_step|]. preserves_step.
    apply deliverAccepted_failedGrows.
  - preserves_step.
    + preserves_step. unfold failedGrows. simpl. set_solver.
    + unfold Server.reject. preserves_step; [preserves_step|]. preserves_step.
      apply deliverRejected_failedGrows.
Qed.

Lemma processMessage_sameFlags message :
  preserves sameFlags (Server.processMessage message).
Proof.
  unfold Server.processMessage. preserves_step; [preserves_step|].
  case_decide; [preserves_step|].
  preserves_step; [preserves_step|].
  destruct (apply _ _) as [[table_ update_] result].
  preserves_step; [by preserves_step|].
  preserves_step; [preserves_step|].
  case_match.
  - preserves_step; [by preserves_step|]. unfold Server.accept.
    preserves_step; [preserves_step|]. preserves_step.
    apply deliverAccepted_sameFlags.
  - preserves_step; [by preserves_step|].
    unfold Server.reject. preserves_step; [preserves_step|]. preserves_step.
    apply deliverRejected_sameFlags.
Qed.
Lemma processLoop_failedGrows fuel : preserves failedGrows (Server.processLoop fuel).
Proof.
  induction fuel as [|fuel IH]; simpl; [preserves_step|].
  preserves_step; [preserves_step|]. case_match; [preserves_step|].
  preserves_step; [preserves_step; by unfold failedGrows|].
  preserves_step; [apply processMessage_failedGrows | apply IH].
Qed.

Lemma processLoop_sameFlags fuel : preserves sameFlags (Server.processLoop fuel).
Proof.
  induction fuel as [|fuel IH]; simpl; [preserves_step|].
  preserves_step; [preserves_step|]. case_match; [preserves_step|].
  preserves_step; [by preserves_step|].
  preserves_step; [apply processMessage_sameFlags | apply IH].
Qed.

Lemma process_failedGrows : preserves failedGrows Server.process.
Proof.
  unfold Server.process. preserves_step; [preserves_step|].
  apply processLoop_failedGrows.
Qed.

Lemma process_sameFlags : preserves sameFlags Server.process.
Proof.
  unfold Server.process. preserves_step; [preserves_step|].
  apply processLoop_sameFlags.
Qed.

Lemma receive_failedGrows message : preserves failedGrows (Server.receive message).
Proof.
  unfold Server.receive. preserves_step; [preserves_step; by unfold failedGrows|].
  preserves_step; [preserves_step|].
  case_decide; [apply process_failedGrows | preserves_step].
Qed.

Lemma receive_sameFlags message : preserves sameFlags (Server.receive message).
Proof.
  unfold Server.receive. preserves_step; [by preserves_step|].
  preserves_step; [preserves_step|].
  case_decide; [apply process_sameFlags | preserves_step].
Qed.

Lemma connected_failedGrows client : preserves failedGrows (Server.connected client).
Proof.
  unfold Server.connected. preserves_step; [preserves_step; by unfold failedGrows|].
  preserves_step; [preserves_step|]. apply deliverSync_failedGrows.
Qed.

Lemma connected_sameFlags client : preserves sameFlags (Server.connected client).
Proof.
  unfold Server.connected. preserves_step; [by preserves_step|].
  preserves_step; [preserves_step|]. apply deliverSync_sameFlags.
Qed.

Lemma disconnected_failedGrows client :
  preserves failedGrows (Server.disconnected client).
Proof. unfold Server.disconnected. preserves_step. by unfold failedGrows. Qed.

Lemma disconnected_sameFlags client :
  preserves sameFlags (Server.disconnected client).
Proof. unfold Server.disconnected. by preserves_step. Qed.

(** The methods of the client leave the server's set of failed groups to
    the server. *)
Lemma updateClient_failedGrows client (f : Client.t number U -> Client.t number U) :
  preserves failedGrows (ClientAPI.updateClient client f).
Proof.
  unfold ClientAPI.updateClient. preserves_step. unfold failedGrows.
  by destruct (Server.heap _ !! client).
Qed.

Lemma comeOnline_failedGrows client : preserves failedGrows (ClientAPI.comeOnline client).
Proof.
  unfold ClientAPI.comeOnline.
  preserves_step; [apply connected_failedGrows|].
  preserves_step; [preserves_step|].
  preserves_step; [preserves_step; apply receive_failedGrows|].
  preserves_step; apply updateClient_failedGrows.
Qed.

Lemma method_failedGrows (o : System.op U) : preserves failedGrows (System.method o).
Proof.
  destruct o as [online|client|client|client update|]; simpl.
  - preserves_step; [|preserves_step]. unfold ClientAPI.new.
    preserves_step; [preserves_step|].
    preserves_step; [preserves_step; by unfold failedGrows|].
    preserves_step; [|preserves_step].
    destruct online; [apply comeOnline_failedGrows | preserves_step].
  - apply comeOnline_failedGrows.
  - unfold ClientAPI.goOffline.
    preserves_step; [apply disconnected_failedGrows | apply updateClient_failedGrows].
  - intros w. unfold ClientAPI.edit.
    destruct (Server.heap w !! client) as [this|] eqn:Hthis; [|done].
    unfold ClientAPI.send. simpl. rewrite Hthis.
    destruct (Client.online this).
    + apply (receive_failedGrows _
               {| Server.server := Server.server w; Server.heap := Server.heap w;
                  Server.uuid := S (Server.uuid w); Server.log := Server.log w |}).
    + apply (updateClient_failedGrows _ _
               {| Server.server := Server.server w; Server.heap := Server.heap w;
                  Server.uuid := S (Server.uuid w); Server.log := Server.log w |}).
  - apply process_failedGrows.
Qed.

Lemma run_failedGrows (ops : list (System.op U)) w : failedGrows w (System.run ops w).
Proof.
  revert w. induction ops as [|o ops IH]; intros w; simpl; [done|].
  etransitivity; [apply (method_failedGrows o w) | apply IH].
Qed.

(** A message of a failed group passes through [process] without a
    trace: nothing of the state changes. *)
Lemma processMessage_failed w message :
  Message.groupID message ∈ Server.failed (Server.server w) ->
  Server.processMessage message w = (w, Normal ()).
Proof.
  intros Hfailed. unfold Server.processMessage, bind, gets. simpl.
  by rewrite decide_True.
Qed.

(** C8: a group that is in the set of failed groups stays in it, whatever
    clients and server do next, and a message of that group that is
    processed then is dropped: the state of the system after the round is
    the state before it (no transform, no change of the table, of the
    version or of the history, no call on a client), and the round returns
    normally. *)
Theorem failed_group_is_dropped (ops : list (System.op U)) w (groupID : GroupID) :
  groupID ∈ Server.failed (Server.server w) ->
  let w' := System.run ops w in
  groupID ∈ Server.failed (Server.server w') /\
  (forall message, Message.groupID message = groupID ->
     Server.processMessage message w' = (w', Normal ())) /\
  (forall message rest, Message.groupID message = groupID ->
     Server.pending (Server.server w') = message :: rest ->
     Server.process w' =
       Server.process
         (Server.withServer w' (fun this => Server.withPending this rest))).
Proof.
  intros Hfailed w'.
  assert (groupID ∈ Server.failed (Server.server w')) as Hlater.
  { by apply (run_failedGrows ops w). }
  split_and!; [done | |].
  - intros message <-. by apply processMessage_failed.
  - intros message rest <- Hpending.
    unfold Server.process at 1. unfold bind at 1, gets at 1. rewrite Hpending.
    cbn [length Server.processLoop]. unfold bind at 1, gets at 1. rewrite Hpending.
    unfold bind at 1, modify at 1. unfold bind at 1.
    by rewrite processMessage_failed.
Qed.
End server_facts.

Lemma failed_group_is_dropped_example :
  let w' := System.run [System.Edit 0%nat (CreateRow "DEF")] Example.rejectsABC in
  2%nat ∈ Server.failed (Server.server w') /\
  (forall message : Message.t (Update (option Z)), Message.groupID message = 2%nat ->
     Server.processMessage message w' = (w', Normal ())) /\
  (forall (message : Message.t (Update (option Z))) rest, Message.groupID message = 2%nat ->
     Server.pending (Server.server w') = message :: rest ->
     Server.process w' =
       Server.process
         (Server.withServer w' (fun this => Server.withPending this rest))).
Proof.
  apply (failed_group_is_dropped [System.Edit 0%nat (CreateRow "DEF")]
           Example.rejectsABC 2%nat).
  apply (bool_decide_unpack _). by vm_compute.
Defined.

(** ** The online flag and the outbox *)

Section client_facts.
Context {number : Type} `{!JSNumber number} {U : Type} `{!TableUpdate number U}.
Implicit Types (w : Server.world number U) (client : ClientRef) (this : Client.t number U).

(** The invariant: a client that is online has nothing in its outbox. *)
Definition onlineEmpty w : Prop :=
  Forall (fun this => Client.online this = true -> Client.outbox this = [])
    (Server.heap w).

Definition keepsOnlineEmpty w w' : Prop := onlineEmpty w -> onlineEmpty w'.

#[local] Instance keepsOnlineEmpty_reflexive : Reflexive keepsOnlineEmpty.
Proof. intros w Hinv. exact Hinv. Qed.

#[local] Instance keepsOnlineEmpty_transitive : Transitive keepsOnlineEmpty.
Proof. intros w1 w2 w3. unfold keepsOnlineEmpty. auto. Qed.

(** The invariant reads the online flags and the outboxes only. *)
Lemma sameFlags_keepsOnlineEmpty w w' : sameFlags w w' -> keepsOnlineEmpty w w'.
Proof.
  unfold sameFlags, keepsOnlineEmpty, onlineEmpty. intros Hsame Hinv.
  apply (Forall_fmap flags (fun fl => fl.1 = true -> fl.2 = [])).
  rewrite Hsame. by apply Forall_fmap.
Qed.

Lemma preserves_sameFlags_keeps {A} (c : M (Server.world number U) A) :
  preserves sameFlags c -> preserves keepsOnlineEmpty c.
Proof. intros Hc w. apply sameFlags_keepsOnlineEmpty, Hc. Qed.

(** A client method that leaves a client offline or without an outbox. *)
Lemma updateClient_keeps client (f : Client.t number U -> Client.t number U) :
  (forall this, Client.online (f this) = true -> Client.outbox (f this) = []) ->
  preserves keepsOnlineEmpty (ClientAPI.updateClient client f).
Proof.
  intros Hf w Hinv. unfold ClientAPI.updateClient, modify, onlineEmpty. simpl.
  destruct (Server.heap w !! client) as [this|]; [|done]. simpl.
  apply Forall_insert; [done | apply Hf].
Qed.

(** The end of [comeOnline]: the outbox is cleared, then the flag is set. *)
Lemma comeOnline_end_keeps client :
  preserves keepsOnlineEmpty
    (ClientAPI.updateClient client (fun this => Client.withOutbox this []) ;;
     ClientAPI.updateClient client (fun this => Client.withOnline this true)).
Proof.
  intros w Hinv. unfold bind, ClientAPI.updateClient, modify, onlineEmpty. simpl.
  destruct (Server.heap w !! client) as [this|] eqn:Hthis; simpl.
  - rewrite list_lookup_insert_eq by (by eapply lookup_lt_Some). simpl.
    rewrite list_insert_insert_eq. by apply Forall_insert.
  - by rewrite Hthis.
Qed.

Lemma comeOnline_keeps client : preserves keepsOnlineEmpty (ClientAPI.comeOnline client).
Proof.
  unfold ClientAPI.comeOnline.
  preserves_step; [apply preserves_sameFlags_keeps, connected_sameFlags|].
  preserves_step; [preserves_step|].
  preserves_step; [|apply comeOnline_end_keeps].
  preserves_step. apply preserves_sameFlags_keeps, receive_sameFlags.
Qed.

Lemma new_keeps (online : bool) : preserves keepsOnlineEmpty (ClientAPI.new online).
Proof.
  unfold ClientAPI.new. preserves_step; [preserves_step|].
  preserves_step.
  - preserves_step. intros Hinv. unfold onlineEmpty. simpl.
    apply Forall_app. split; [done|]. by apply Forall_singleton.
  - preserves_step; [|preserves_step].
    destruct online; [apply comeOnline_keeps | preserves_step].
Qed.

Lemma edit_keeps client (update : U) :
  preserves keepsOnlineEmpty (ClientAPI.edit client update).
Proof.
  intros w Hinv. unfold ClientAPI.edit.
  destruct (Server.heap w !! client) as [this|] eqn:Hthis; [|done].
  unfold ClientAPI.send. simpl. rewrite Hthis.
  destruct (Client.online this) eqn:Honline.
  - by apply (preserves_sameFlags_keeps _ (receive_sameFlags _)).
  - unfold ClientAPI.updateClient, modify, onlineEmpty. simpl. rewrite Hthis. simpl.
    apply Forall_insert; [done|]. simpl. congruence.
Qed.

Lemma method_keeps (o : System.op U) : preserves keepsOnlineEmpty (System.method o).
Proof.
  destruct o as [online|client|client|client update|]; simpl.
  - preserves_step; [apply new_keeps | preserves_step].
  - apply comeOnline_keeps.
  - unfold ClientAPI.goOffline.
    preserves_step; [apply preserves_sameFlags_keeps, disconnected_sameFlags|].
    by apply updateClient_keeps.
  - apply edit_keeps.
  - apply preserves_sameFlags_keeps, process_sameFlags.
Qed.

Lemma run_keeps (ops : list (System.op U)) w :
  onlineEmpty w -> onlineEmpty (System.run ops w).
Proof.
  revert w. induction ops as [|o ops IH]; intros w Hinv; simpl; [done|].
  apply IH. by apply (method_keeps o w).
Qed.

(** C10: in every state that the clients and the server reach from a new
    server, after a call has returned or has thrown, a client whose online
    flag is true has an empty outbox, and its [getData] is the
    serialization of its table: the outbox is not read. *)
Theorem online_client_has_empty_outbox (delay : nat) (ops : list (System.op U))
    client this :
  Server.heap (System.run ops (System.initial delay)) !! client = Some this ->
  Client.online this = true ->
  Client.outbox this = [] /\
  Client.getData this = Table.serialize (Client.table this).
Proof.
  intros Hthis Honline. split.
  - assert (onlineEmpty (System.run ops (System.initial delay))) as Hinv.
    { apply run_keeps. unfold onlineEmpty. simpl. apply Forall_nil_2. }
    unfold onlineEmpty in Hinv. rewrite Forall_lookup in Hinv.
    by apply (Hinv client this).
  - unfold Client.getData. by rewrite Honline.
Qed.
End client_facts.

Lemma online_client_has_empty_outbox_example :
  Client.outbox (Example.firstClient Example.writesFoo) = [] /\
  Client.getData (Example.firstClient Example.writesFoo) =
    Table.serialize (Client.table (Example.firstClient Example.writesFoo)).
Proof.
  apply (online_client_has_empty_outbox 0
           [System.NewClient true;
            System.Edit 0%nat (CreateRow "ABC");
            System.Edit 0%nat (CreateColumn "123" Text);
            System.Edit 0%nat Example.fooABC123]
           0%nat (Example.firstClient Example.writesFoo)).
  - by vm_compute.
  - by vm_compute.
Defined.

(** ** Rejection *)

Section rejection_facts.
Context {number : Type} `{!JSNumber number} {U : Type} `{!TableUpdate number U}.
Implicit Types (w : Server.world number U) (message : Message.t U).

(** The connected clients are client objects. *)
Definition clientsExist w : Prop :=
  Forall (fun client => (client < length (Server.heap w))%nat)
    (Server.clients (Server.server w)).

(** The broadcast of a rejection ends at the first client: the call on it
    throws, and nothing has changed. *)
Lemma reject_throws messageID groupID (clients : list ClientRef) w :
  Forall (fun client => (client < length (Server.heap w))%nat) clients ->
  forEach clients (Server.deliverRejected messageID groupID) w =
    (w, match clients with [] => Normal () | _ :: _ => Thrown TypeError end).
Proof.
  destruct clients as [|client clients]; [done|].
  intros [Hclient _]%Forall_cons.
  apply lookup_lt_is_Some in Hclient as [this Hthis].
  simpl. unfold bind, Server.deliverRejected. by rewrite Hthis.
Qed.

(** C7 (the code departs from the claim): when [apply] returns false for
    a message, the round of [process] adds the group of the message to the
    failed groups and calls [rejected] on the first connected client; the
    class [Client] has no such method, the call throws a [TypeError], and
    the exception leaves [process]: no client is told of the rejection,
    and the round returns normally only when no client is connected. The
    client objects are what they were. *)
Theorem rejection_throws_at_first_client w message message' table' update' :
  Message.groupID message ∉ Server.failed (Server.server w) ->
  Server.transformMessage (Server.server w) message = Normal message' ->
  apply (Message.update message') (Server.table (Server.server w))
    = (table', update', Normal false) ->
  clientsExist w ->
  Server.processMessage message w =
    ({| Server.server :=
          Server.withFailed (Server.withTable (Server.server w) table')
            ({[Message.groupID message']} ∪ Server.failed (Server.server w));
        Server.heap := Server.heap w;
        Server.uuid := Server.uuid w;
        Server.log := Server.log w |},
     match Server.clients (Server.server w) with
     | [] => Normal ()
     | _ :: _ => Thrown TypeError
     end).
Proof.
  intros Hgroup Htransform Happly Hclients.
  unfold Server.processMessage. unfold bind at 1, gets at 1.
  rewrite decide_False by done.
  unfold bind at 1, liftOutcome at 1. rewrite Htransform, Happly.
  unfold bind at 1, modify at 1. unfold bind at 1, liftOutcome at 1.
  unfold bind at 1, modify at 1. unfold Server.reject, bind at 1, gets at 1.
  cbn [Server.server Server.withServer Server.withFailed Server.withTable
       Server.clients Server.failed Message.groupID Message.UUID
       Message.withUpdate].
  by rewrite reject_throws.
Qed.
End rejection_facts.

Lemma rejection_throws_at_first_client_example :
  Server.processMessage Example.secondABC Example.createsABC =
    ({| Server.server :=
          Server.withFailed
            (Server.withTable (Server.server Example.createsABC)
               (Server.table (Server.server Example.createsABC)))
            ({[Message.groupID Example.secondABC]} ∪
               Server.failed (Server.server Example.createsABC));
        Server.heap := Server.heap Example.createsABC;
        Server.uuid := Server.uuid Example.createsABC;
        Server.log := Server.log Example.createsABC |},
     match Server.clients (Server.server Example.createsABC) with
     | [] => Normal ()
     | _ :: _ => Thrown TypeError
     end).
Proof.
  apply (rejection_throws_at_first_client Example.createsABC Example.secondABC
           Example.secondABC (Server.table (Server.server Example.createsABC))
           (CreateRow "ABC")).
  - apply (bool_decide_unpack _). by vm_compute.
  - by vm_compute.
  - by vm_compute.
  - unfold clientsExist. vm_compute. repeat constructor.
Defined.

(** ** The shift context of a message *)

(** The loop starts at the position of the baseline: when the history has
    nothing there, [process] throws. *)
Lemma shiftContextFor_reads_baseline {number U : Type} `{!TableUpdate number U}
    (this : Server.t number U) (message : Message.t U) :
  (Message.version message <= Server.version this)%nat ->
  Server.history this !! Message.version message = None ->
  Server.shiftContextFor this message = Thrown TypeError.
Proof.
  intros Hle Hnone. unfold Server.shiftContextFor.
  replace (S (Server.version this) - Message.version message)%nat
    with (S (Server.version this - Message.version message)) by lia.
  simpl. by rewrite Hnone.
Qed.

(** The contribution of the update at the baseline comes first, then the
    contributions that the design document counts. *)
Lemma shiftContextFor_folds_baseline {number U : Type} `{!TableUpdate number U}
    (this : Server.t number U) (message entry : Message.t U) :
  (Message.version message <= Server.version this)%nat ->
  Server.history this !! Message.version message = Some entry ->
  Server.shiftContextFor this message =
    outcome_bind (shift (Message.update entry) ShiftContext.new)
      (Server.accumulate (Server.history this) (S (Message.version message))
         (Server.version this - Message.version message)).
Proof.
  intros Hle Hentry. unfold Server.shiftContextFor.
  replace (S (Server.version this) - Message.version message)%nat
    with (S (Server.version this - Message.version message)) by lia.
  simpl. by rewrite Hentry.
Qed.

(** For an update that needs a transform, a round of [process] on a
    message whose baseline has no entry in the history, as the baseline 0
    never has, throws a [TypeError] and changes nothing. *)
Lemma processMessage_empty_baseline {number U : Type} `{!TableUpdate number U}
    (w : Server.world number U) (message : Message.t U) :
  needsTransform (Message.update message) = true ->
  Message.groupID message ∉ Server.failed (Server.server w) ->
  (Message.version message <= Server.version (Server.server w))%nat ->
  Server.history (Server.server w) !! Message.version message = None ->
  Server.processMessage message w = (w, Thrown TypeError).
Proof.
  intros Hneeds Hgroup Hle Hnone.
  unfold Server.processMessage. unfold bind at 1, gets at 1.
  rewrite decide_False by done. unfold bind at 1, liftOutcome at 1.
  unfold Server.transformMessage. rewrite Hneeds.
  by rewrite shiftContextFor_reads_baseline.
Qed.

(** C1 (the code departs from the claim), on the classes of the repository
    with [needsTransform] of [MoveRow] overridden to return true. The
    server is at version 4, and so is the client, whose table has the rows
    B and C since the server accepted its deletion of the row A as
    version 4. The client moves B to the position 1. The design document
    folds the versions 5 to 4, none, and the move puts B behind C; the
    loop of [process] folds the version 4 too, the deletion at the
    position 0, transforms the target 1 into 0, and [receive] leaves B
    before C. With the same move at the baseline 0, the loop reads the
    position 0 of the history, which is empty, and [receive] throws a
    [TypeError]. *)
Theorem process_folds_the_baseline :
  let this := Server.server Example.destroysA in
  @needsTransform _ _ Example.Overridden (Message.update Example.moveBto1) = true /\
  Server.version this = 4%nat /\
  Message.version Example.moveBto1 = 4%nat /\
  Client.version (Example.firstClient Example.destroysA) = 4%nat /\
  Table.order (Server.table this) = ["B"; "C"] /\
  Message.update <$> Server.history this !! 4%nat = Some (DestroyRow "A" 0) /\
  @shiftContextDesign _ _ Example.Overridden this Example.moveBto1
    = Normal ShiftContext.new /\
  Table.order
    (Update_apply
       (Update_transform (Message.update Example.moveBto1) ShiftContext.new)
       (Server.table this)).1.1 = ["C"; "B"] /\
  @Server.shiftContextFor _ _ Example.Overridden this Example.moveBto1
    = Normal (ShiftContext.deleteAt ShiftContext.new 0) /\
  @Server.transformMessage _ _ Example.Overridden this Example.moveBto1
    = Normal (Message.withUpdate Example.moveBto1 (newMoveRow "B" 0)) /\
  (@Server.receive _ _ Example.Overridden Example.moveBto1 Example.destroysA).2
    = Normal () /\
  Table.order
    (Server.table
       (Server.server
          (@Server.receive _ _ Example.Overridden Example.moveBto1
             Example.destroysA).1)) = ["B"; "C"] /\
  Server.history this !! 0%nat = None /\
  (@Server.receive _ _ Example.Overridden Example.moveAtVersion0
     Example.destroysA).2 = Thrown TypeError.
Proof. by vm_compute. Qed.

(** * Further properties of the code *)

(** ** Shift contexts *)

Section shift_facts.
Implicit Types (context : ShiftContext.t) (index : Z).

(** A record that is pushed after others acts on the index that the
    others have produced. *)
Lemma transform_push context record index :
  ShiftContext.transform (ShiftContext.push context record) index =
    ShiftContext.transformStep (ShiftContext.transform context index) record.
Proof.
  unfold ShiftContext.transform, ShiftContext.push. simpl.
  by rewrite fold_left_app.
Qed.

(** [insertAt], [deleteAt] and [move] after a context: what [transform]
    then does to an index, in terms of the index that the context alone
    gives. A deletion at the index itself leaves it where it is. *)
Theorem transform_after_recording context index (i start end_ : Z) :
  let t := ShiftContext.transform context index in
  ShiftContext.transform (ShiftContext.insertAt context i) index
    = (if decide (i <= t) then t + 1 else t) /\
  ShiftContext.transform (ShiftContext.deleteAt context i) index
    = (if decide (i < t) then t - 1 else t) /\
  ShiftContext.transform (ShiftContext.move context start end_) index
    = (let t' := if decide (start < t) then t - 1 else t in
       if decide (end_ <= t') then t' + 1 else t').
Proof.
  intros t. unfold ShiftContext.insertAt, ShiftContext.deleteAt, ShiftContext.move.
  rewrite !transform_push. fold t. unfold ShiftContext.transformStep. simpl.
  split_and!.
  - destruct (Z.leb_spec i t); case_decide; lia.
  - destruct (Z.eqb_spec t i); destruct (Z.ltb_spec i t); case_decide; lia.
  - destruct (Z.eqb_spec t start); destruct (Z.ltb_spec start t);
      repeat case_decide; try lia;
      match goal with |- context [Z.leb ?a ?b] => destruct (Z.leb_spec a b) end; lia.
Qed.

Lemma transformStep_monotone record (i j : Z) :
  i <= j -> ShiftContext.transformStep i record <= ShiftContext.transformStep j record.
Proof.
  intros Hij. unfold ShiftContext.transformStep.
  destruct (ShiftRecord.type record).
  - destruct (Z.leb_spec (ShiftRecord.index record) i);
      destruct (Z.leb_spec (ShiftRecord.index record) j); lia.
  - destruct (Z.eqb_spec i (ShiftRecord.index record));
      destruct (Z.eqb_spec j (ShiftRecord.index record));
      destruct (Z.ltb_spec (ShiftRecord.index record) i);
      destruct (Z.ltb_spec (ShiftRecord.index record) j); lia.
Qed.

(** [transform] keeps the order of two indices: it may merge them, it
    never swaps them. *)
Theorem transform_monotone context (i j : Z) :
  i <= j -> ShiftContext.transform context i <= ShiftContext.transform context j.
Proof.
  unfold ShiftContext.transform. destruct context as [shifts]. simpl.
  revert i j. induction shifts as [|record shifts IH]; intros i j Hij; simpl; [done|].
  by apply IH, transformStep_monotone.
Qed.

(** Each record moves the index by one position at most. *)
Theorem transform_distance context index :
  Z.abs (ShiftContext.transform context index - index)
    <= Z.of_nat (length (ShiftContext.shifts context)).
Proof.
  unfold ShiftContext.transform. destruct context as [shifts]. simpl.
  revert index. induction shifts as [|record shifts IH]; intros index; simpl; [lia|].
  specialize (IH (ShiftContext.transformStep index record)).
  assert (Z.abs (ShiftContext.transformStep index record - index) <= 1); [|lia].
  unfold ShiftContext.transformStep. destruct (ShiftRecord.type record).
  - destruct (Z.leb_spec (ShiftRecord.index record) index); lia.
  - destruct (Z.eqb_spec index (ShiftRecord.index record));
      destruct (Z.ltb_spec (ShiftRecord.index record) index); lia.
Qed.
End shift_facts.

Lemma transform_nonnegative_example :
  0 <= ShiftContext.transform
         (ShiftContext.deleteAt (ShiftContext.move ShiftContext.new 2 0) 1) 1.
Proof.
  apply (transform_nonnegative
           (ShiftContext.deleteAt (ShiftContext.move ShiftContext.new 2 0) 1) 1).
  - simpl. repeat constructor; simpl; lia.
  - lia.
Defined.

Lemma transform_monotone_example :
  ShiftContext.transform (ShiftContext.deleteAt ShiftContext.new 3) 3
    <= ShiftContext.transform (ShiftContext.deleteAt ShiftContext.new 3) 4.
Proof.
  apply (transform_monotone (ShiftContext.deleteAt ShiftContext.new 3) 3 4). lia.
Defined.

(** ** More on maps and on rows *)

Section more_map_facts.
Context {K V : Type} `{EqDecision K}.
Implicit Types (m : JSMap.t K V) (k : K) (v : V).

Lemma set_absent m k v : JSMap.get k m = None -> JSMap.set k v m = m ++ [(k, v)].
Proof.
  induction m as [|[k' v'] m IH]; simpl; [done|].
  destruct (decide (k' = k)); [done|]. intros Hget. by rewrite IH.
Qed.

Lemma delete_absent m k : JSMap.get k m = None -> JSMap.delete k m = m.
Proof.
  unfold JSMap.delete. induction m as [|[k' v'] m IH]; simpl; [done|].
  destruct (decide (k' = k)) as [->|Hne]; [done|]. intros Hget.
  rewrite filter_cons_True by done. by rewrite IH.
Qed.

Lemma delete_set_absent m k v :
  JSMap.get k m = None -> JSMap.delete k (JSMap.set k v m) = m.
Proof.
  intros Hget. rewrite set_absent by done. unfold JSMap.delete.
  rewrite filter_app, filter_cons_False, filter_nil, app_nil_r by (simpl; auto).
  by apply delete_absent.
Qed.
End more_map_facts.

Section more_rows_facts.
Context {number : Type} `{!JSNumber number}.
Implicit Types (table : Table.t number) (rowID : RowID).

Lemma filter_all {A} (P : A -> Prop) `{!forall x, Decision (P x)} (l : list A) :
  Forall P l -> filter P l = l.
Proof.
  induction 1 as [|x l Hx _ IH]; [done|].
  rewrite filter_cons_True by done. by rewrite IH.
Qed.

Lemma without_filter (order : list RowID) (j : nat) rowID :
  NoDup order -> order !! j = Some rowID ->
  take j order ++ drop (S j) order = filter (fun r => r <> rowID) order.
Proof.
  intros Hnodup Hj.
  rewrite <- (take_drop_middle _ _ _ Hj) in Hnodup.
  rewrite <- (take_drop_middle _ _ _ Hj) at 3.
  apply NoDup_app in Hnodup as (_ & Hdisjoint & Hrest).
  apply NoDup_cons in Hrest as [Hnotin _].
  rewrite filter_app, filter_cons_False by auto.
  f_equal; symmetry; apply filter_all, Forall_forall.
  - intros x Hx ->. eapply Hdisjoint; [done | left].
  - intros x Hx ->. done.
Qed.

(** [computeRowMap]: the map of rows gives each row of the order its
    position, and nothing else. *)
Theorem rows_position table rowID (i : nat) :
  NoDup (Table.order table) ->
  (JSMap.has rowID (Table.rows table) = true <-> rowID ∈ Table.order table) /\
  (JSMap.get rowID (Table.rows table) = Some (Z.of_nat i)
     <-> Table.order table !! i = Some rowID).
Proof.
  intros Hnodup. split; [apply rows_has|]. split.
  - intros Hget. apply rows_get_Some in Hget as [j [Hj Heq]].
    assert (i = j) as -> by lia. done.
  - intros Hi.
    assert (is_Some (JSMap.get rowID (Table.rows table))) as [k Hk].
    { apply has_true, rows_has. by eapply list_elem_of_lookup_2. }
    destruct (rows_get_Some _ _ _ Hk) as [j [Hj ->]].
    rewrite Hk. by rewrite (NoDup_lookup _ _ _ _ Hnodup Hj Hi).
Qed.
End more_rows_facts.

Section rows_examples.

Lemma rows_position_example :
  (JSMap.has "B" (Table.rows Example.tableAB) = true
     <-> "B" ∈ Table.order Example.tableAB) /\
  (JSMap.get "B" (Table.rows Example.tableAB) = Some (Z.of_nat 1)
     <-> Table.order Example.tableAB !! 1%nat = Some "B").
Proof.
  apply (rows_position Example.tableAB "B" 1).
  apply (bool_decide_unpack _). by vm_compute.
Defined.
End rows_examples.

(** ** The cells of a table through the updates *)

Section cell_frame_facts.
Context {number : Type} `{!JSNumber number}.
Implicit Types (table : Table.t number) (this : Update number)
  (rowID : RowID) (columnID : ColumnID).

Lemma cell_set table rowID (row : JSMap.t ColumnID (value number)) rowID' columnID :
  cell (withCells table (JSMap.set rowID row (Table.cells table))) rowID' columnID =
    if decide (rowID = rowID') then JSMap.get columnID row
    else cell table rowID' columnID.
Proof.
  unfold cell. simpl. case_decide as Heq.
  - subst rowID'. by rewrite get_set_eq.
  - by rewrite get_set_ne.
Qed.

Lemma cell_delete table rowID rowID' columnID :
  cell (withCells table (JSMap.delete rowID (Table.cells table))) rowID' columnID =
    if decide (rowID = rowID') then None else cell table rowID' columnID.
Proof.
  unfold cell. simpl. case_decide as Heq.
  - subst rowID'. by rewrite get_delete_eq.
  - by rewrite get_delete_ne.
Qed.

Lemma cell_map table (g : RowID * JSMap.t ColumnID (value number) ->
                          RowID * JSMap.t ColumnID (value number)) rowID columnID :
  (forall row, (g row).1 = row.1) ->
  cell (withCells table (map g (Table.cells table))) rowID columnID =
    match JSMap.get rowID (Table.cells table) with
    | Some row => JSMap.get columnID (g (rowID, row)).2
    | None => None
    end.
Proof.
  intros Hg. unfold cell. simpl. rewrite (get_map_entries g) by done.
  by destruct (JSMap.get rowID (Table.cells table)).
Qed.

Lemma applyCellValue_cellsHaveColumns expected rowID columnID v table :
  cellsHaveColumns table ->
  cellsHaveColumns (applyCellValue expected rowID columnID v table).1.
Proof.
  intros Hinv. unfold applyCellValue.
  destruct (JSMap.get columnID (Table.columns table)) as [type|] eqn:Htype; [|done].
  destruct (JSMap.get rowID (Table.rows table)); [|done].
  destruct (decide (type = expected)); [|done].
  destruct (JSMap.get rowID (Table.cells table)) as [rowColumns|] eqn:Hrow; [|done].
  simpl. intros rowID' columnID' v'. rewrite cell_set.
  change (Table.columns (withCells table _)) with (Table.columns table).
  case_decide as Hrow'; [|apply Hinv]. subst rowID'.
  destruct (decide (columnID = columnID')) as [<-|Hne].
  - intros _. apply has_true. by rewrite Htype.
  - rewrite get_set_ne by done. intros Hcell. apply (Hinv rowID columnID' v').
    unfold cell. by rewrite Hrow.
Qed.

Lemma apply_cellsHaveColumns this table :
  cellsHaveColumns table -> cellsHaveColumns (apply this table).1.1.
Proof.
  intros Hinv.
  destruct this as [rowID|rowID index|rowID targetIndex start|columnID columnType
                    |columnID|columnID columnType|rowID columnID cellValue
                    |rowID columnID cellValue].
  - simpl. destruct (JSMap.has rowID (Table.rows table)); [done|]. simpl.
    intros rowID' columnID v.
    change (cell (withOrder ?t _)) with (cell t). rewrite cell_set.
    case_decide; [done | apply Hinv].
  - destruct (decide (rowID ∈ Table.order table)) as [Hin|Hout];
      [|by rewrite DestroyRow_apply_absent].
    destruct (DestroyRow_apply_present table rowID index Hin) as [j [_ ->]].
    simpl. intros rowID' columnID v.
    change (cell (withOrder ?t _)) with (cell t). rewrite cell_delete.
    case_decide; [done | apply Hinv].
  - destruct (decide (rowID ∈ Table.order table)) as [Hin|Hout];
      [|by rewrite MoveRow_apply_absent].
    by destruct (MoveRow_apply_present table rowID targetIndex start Hin)
      as [j [_ ->]].
  - simpl. destruct (JSMap.has columnID (Table.columns table)); [done|]. simpl.
    intros rowID columnID' v Hcell.
    change (cell table rowID columnID' = Some v) in Hcell.
    apply has_true. simpl.
    destruct (decide (columnID = columnID')) as [<-|Hne].
    + by rewrite get_set_eq.
    + rewrite get_set_ne by done. apply has_true. by eapply Hinv.
  - simpl. destruct (JSMap.has columnID (Table.columns table)); [|done]. simpl.
    intros rowID columnID' v.
    rewrite (cell_map (withColumns table _)
               (fun row => (row.1, JSMap.delete columnID row.2))) by done.
    simpl. destruct (JSMap.get rowID (Table.cells table)) as [row|] eqn:Hrow; [|done].
    simpl. destruct (decide (columnID = columnID')) as [<-|Hne].
    + by rewrite get_delete_eq.
    + rewrite get_delete_ne by done. intros Hcell. apply has_true.
      rewrite get_delete_ne by done. apply has_true, (Hinv rowID columnID' v).
      unfold cell. by rewrite Hrow.
  - simpl. destruct (JSMap.has columnID (Table.columns table)) eqn:Hcolumn; [|done].
    destruct (fold_left _ _ _); [|done]. simpl.
    intros rowID columnID' v.
    rewrite (cell_map table (coerceRow columnID columnType))
      by (intros row; unfold coerceRow; by case_match).
    change (Table.columns (withCells table _)) with (Table.columns table).
    destruct (JSMap.get rowID (Table.cells table)) as [row|] eqn:Hrow; [|done].
    destruct (decide (columnID = columnID')) as [<-|Hne]; [done|].
    unfold coerceRow. case_match; simpl.
    + rewrite get_set_ne by done. intros Hcell. apply (Hinv rowID columnID' v).
      unfold cell. by rewrite Hrow.
    + intros Hcell. apply (Hinv rowID columnID' v). unfold cell. by rewrite Hrow.
  - simpl. pose proof (applyCellValue_cellsHaveColumns Text rowID columnID
                         (VString cellValue) table Hinv) as Hcell.
    by destruct (applyCellValue _ _ _ _ _).
  - simpl. pose proof (applyCellValue_cellsHaveColumns Number rowID columnID
                         (VNumber cellValue) table Hinv) as Hcell.
    by destruct (applyCellValue _ _ _ _ _).
Qed.

(** The tables that the updates build from the empty table: the order has
    no row twice, the rows of the order are the rows with a map of cells,
    and every stored cell lies under a column of the table. *)
Theorem reachable_tables_are_consistent (updates : list (Update number)) :
  wellFormed (applyAll updates Table.empty) /\
  cellsHaveColumns (applyAll updates Table.empty).
Proof.
  split; [apply applyAll_wellFormed, wellFormed_empty|].
  assert (forall table, cellsHaveColumns table ->
            cellsHaveColumns (applyAll updates table)) as Hall.
  { unfold applyAll. induction updates as [|this updates IH]; intros table Hinv;
      simpl; [done|]. by apply IH, apply_cellsHaveColumns. }
  apply Hall. intros rowID columnID v. unfold cell. simpl. done.
Qed.

(** On such a table no update throws: [apply] returns true or false. *)
Theorem apply_never_throws (updates : list (Update number)) this :
  exists success, (apply this (applyAll updates Table.empty)).2 = Normal success.
Proof. apply apply_returns, applyAll_wellFormed, wellFormed_empty. Qed.
End cell_frame_facts.

(** ** Rows: create, destroy, move *)

Section row_update_facts.
Context {number : Type} `{!JSNumber number}.
Implicit Types (table : Table.t number) (rowID : RowID).

(** [CreateRow] on a row that the table does not have puts the row last
    with no cell, and [DestroyRow] on it then gives the table back; the
    position it saves is the last position. *)
Theorem CreateRow_DestroyRow_round_trip table rowID :
  wellFormed table -> rowID ∉ Table.order table ->
  exists created,
    apply (CreateRow rowID) table = (created, CreateRow rowID, Normal true) /\
    Table.order created = Table.order table ++ [rowID] /\
    JSMap.get rowID (Table.cells created) = Some [] /\
    apply (newDestroyRow rowID) created =
      (table, DestroyRow rowID (Z.of_nat (length (Table.order table))), Normal true).
Proof.
  intros [Hnodup Hrows] Hnew.
  assert (JSMap.get rowID (Table.cells table) = None) as Hcells.
  { destruct (JSMap.get rowID (Table.cells table)) eqn:Hget; [|done].
    exfalso. apply Hnew, Hrows. by eexists. }
  exists (withOrder (withCells table (JSMap.set rowID [] (Table.cells table)))
            (Table.order table ++ [rowID])).
  split_and!.
  - simpl. apply rows_get_None, has_false in Hnew. by rewrite Hnew.
  - done.
  - simpl. apply get_set_eq.
  - set (created := withOrder _ _).
    assert (rowID ∈ Table.order created) as Hin.
    { simpl. apply elem_of_app. right. left. }
    destruct (DestroyRow_apply_present created rowID (-1) Hin) as [j [Hj Happly]].
    unfold newDestroyRow. rewrite Happly. simpl in Hj |- *.
    assert (j = length (Table.order table)) as ->.
    { destruct (decide (j < length (Table.order table))%nat) as [Hlt|Hge].
      - rewrite lookup_app_l in Hj by done.
        exfalso. apply Hnew. by eapply list_elem_of_lookup_2.
      - apply lookup_lt_Some in Hj. rewrite length_app in Hj. simpl in Hj. lia. }
    do 2 f_equal.
    unfold withOrder, withCells. simpl. rewrite delete_set_absent by done.
    rewrite take_app_length, drop_ge, app_nil_r by (rewrite length_app; simpl; lia).
    by destruct table.
Qed.

(** [DestroyRow] on a row of the table: the position it saves is the
    position of the row, the other rows keep their order and their cells,
    and the row has no cell left. *)
Theorem DestroyRow_result table rowID index :
  wellFormed table -> rowID ∈ Table.order table ->
  exists (j : nat) destroyed,
    apply (DestroyRow rowID index) table
      = (destroyed, DestroyRow rowID (Z.of_nat j), Normal true) /\
    Table.order table !! j = Some rowID /\
    Table.order destroyed = filter (fun r => r <> rowID) (Table.order table) /\
    Table.columns destroyed = Table.columns table /\
    (forall columnID, cell destroyed rowID columnID = None) /\
    (forall rowID' columnID, rowID' <> rowID ->
       cell destroyed rowID' columnID = cell table rowID' columnID).
Proof.
  intros [Hnodup Hrows] Hin.
  destruct (DestroyRow_apply_present table rowID index Hin) as [j [Hj Happly]].
  exists j. eexists. split; [exact Happly|]. split_and!.
  - done.
  - simpl. by apply without_filter.
  - done.
  - intros columnID. change (cell (withOrder ?t _)) with (cell t).
    rewrite cell_delete. by rewrite decide_True.
  - intros rowID' columnID Hne. change (cell (withOrder ?t _)) with (cell t).
    rewrite cell_delete. by rewrite decide_False.
Qed.

(** [MoveRow] never adds, drops or repeats a row, and it leaves the
    columns and the cells alone, whatever the target is. *)
Theorem MoveRow_keeps_rows (table : Table.t number) (rowID : RowID) targetIndex start :
  Table.order (apply (MoveRow rowID targetIndex start) table).1.1
    ≡ₚ Table.order table /\
  Table.cells (apply (MoveRow rowID targetIndex start) table).1.1 = Table.cells table /\
  Table.columns (apply (MoveRow rowID targetIndex start) table).1.1
    = Table.columns table.
Proof.
  destruct (decide (rowID ∈ Table.order table)) as [Hin|Hout].
  - destruct (MoveRow_apply_present table rowID targetIndex start Hin)
      as [j [Hj ->]]. simpl.
    split_and!; [by apply moved_Permutation | done | done].
  - by rewrite MoveRow_apply_absent.
Qed.

(** [MoveRow] with a target that is a position of the table: the row is
    at the target afterwards, and the other rows keep their order. *)
Theorem MoveRow_lands_at_target (table : Table.t number) (rowID : RowID)
    (target : nat) start :
  NoDup (Table.order table) -> rowID ∈ Table.order table ->
  (target < length (Table.order table))%nat ->
  (apply (MoveRow rowID (Z.of_nat target) start) table).2 = Normal true /\
  Table.order (apply (MoveRow rowID (Z.of_nat target) start) table).1.1 !! target
    = Some rowID /\
  filter (fun r => r <> rowID)
    (Table.order (apply (MoveRow rowID (Z.of_nat target) start) table).1.1)
    = filter (fun r => r <> rowID) (Table.order table).
Proof.
  intros Hnodup Hin Htarget.
  destruct (MoveRow_apply_present table rowID (Z.of_nat target) start Hin)
    as [j [Hj ->]]. simpl. split; [done|].
  unfold moved. rewrite (without_filter _ _ _ Hnodup Hj).
  set (rest := filter (fun r => r <> rowID) (Table.order table)).
  assert (length rest = (length (Table.order table) - 1)%nat) as Hlength.
  { subst rest. rewrite <- (without_filter _ _ _ Hnodup Hj).
    pose proof (lookup_lt_Some _ _ _ Hj).
    rewrite length_app, length_take, length_drop. lia. }
  assert (splice_start (Z.of_nat target) (length rest) = target) as ->.
  { unfold splice_start. destruct (Z.ltb_spec (Z.of_nat target) 0); lia. }
  split.
  - rewrite lookup_app_r by (rewrite length_take; lia).
    rewrite length_take.
    by replace (target - target `min` length rest)%nat with 0%nat by lia.
  - rewrite filter_app, filter_cons_False by auto.
    rewrite <- filter_app, take_drop. subst rest.
    apply filter_all, Forall_forall. intros x Hx.
    by apply list_elem_of_filter in Hx as [Hx _].
Qed.
End row_update_facts.

Section row_update_examples.

Lemma CreateRow_DestroyRow_round_trip_example :
  exists created,
    apply (CreateRow "C") Example.tableAB = (created, CreateRow "C", Normal true) /\
    Table.order created = Table.order Example.tableAB ++ ["C"] /\
    JSMap.get "C" (Table.cells created) = Some [] /\
    apply (newDestroyRow "C") created =
      (Example.tableAB,
       DestroyRow "C" (Z.of_nat (length (Table.order Example.tableAB))), Normal true).
Proof.
  apply (CreateRow_DestroyRow_round_trip Example.tableAB "C").
  - apply (applyAll_wellFormed [CreateRow "A"; CreateRow "B"]), wellFormed_empty.
  - apply (bool_decide_unpack _). by vm_compute.
Defined.

Lemma DestroyRow_result_example :
  exists (j : nat) destroyed,
    apply (newDestroyRow "A") Example.tableAB
      = (destroyed, DestroyRow "A" (Z.of_nat j), Normal true) /\
    Table.order Example.tableAB !! j = Some "A" /\
    Table.order destroyed = filter (fun r => r <> "A") (Table.order Example.tableAB) /\
    Table.columns destroyed = Table.columns Example.tableAB /\
    (forall columnID, cell destroyed "A" columnID = None) /\
    (forall rowID' columnID, rowID' <> "A" ->
       cell destroyed rowID' columnID = cell Example.tableAB rowID' columnID).
Proof.
  apply (DestroyRow_result Example.tableAB "A" (-1)).
  - apply (applyAll_wellFormed [CreateRow "A"; CreateRow "B"]), wellFormed_empty.
  - apply (bool_decide_unpack _). by vm_compute.
Defined.

Lemma MoveRow_lands_at_target_example :
  (apply (MoveRow "A" (Z.of_nat 1) (-1)) Example.tableAB).2 = Normal true /\
  Table.order (apply (MoveRow "A" (Z.of_nat 1) (-1)) Example.tableAB).1.1 !! 1%nat
    = Some "A" /\
  filter (fun r => r <> "A")
    (Table.order (apply (MoveRow "A" (Z.of_nat 1) (-1)) Example.tableAB).1.1)
    = filter (fun r => r <> "A") (Table.order Example.tableAB).
Proof.
  apply (MoveRow_lands_at_target Example.tableAB "A" 1 (-1)).
  - apply (bool_decide_unpack _). by vm_compute.
  - apply (bool_decide_unpack _). by vm_compute.
  - vm_compute. lia.
Defined.
End row_update_examples.

(** ** Columns and cells *)

Section column_update_facts.
Context {number : Type} `{!JSNumber number}.
Implicit Types (table : Table.t number) (this : Update number)
  (rowID : RowID) (columnID : ColumnID).

(** [DestroyColumn] on a column of the table removes the column and the
    cell of every row under it; the other columns keep their place and
    their type, the other cells and the rows stay. *)
Theorem DestroyColumn_result table columnID :
  JSMap.has columnID (Table.columns table) = true ->
  exists destroyed,
    apply (DestroyColumn columnID) table
      = (destroyed, DestroyColumn columnID, Normal true) /\
    Table.columns destroyed = filter (fun column => column.1 <> columnID)
                                (Table.columns table) /\
    Table.order destroyed = Table.order table /\
    (forall rowID, cell destroyed rowID columnID = None) /\
    (forall rowID columnID', columnID' <> columnID ->
       cell destroyed rowID columnID' = cell table rowID columnID').
Proof.
  intros Hcolumn. eexists. split.
  { simpl. rewrite Hcolumn. reflexivity. }
  split_and!; try done.
  - intros rowID.
    rewrite (cell_map (withColumns table _)
               (fun row => (row.1, JSMap.delete columnID row.2))) by done.
    simpl. destruct (JSMap.get rowID (Table.cells table)); [|done].
    apply get_delete_eq.
  - intros rowID columnID' Hne.
    rewrite (cell_map (withColumns table _)
               (fun row => (row.1, JSMap.delete columnID row.2))) by done.
    unfold cell. simpl. destruct (JSMap.get rowID (Table.cells table)); [|done].
    simpl. by apply get_delete_ne.
Qed.

(** [UpdateColumnType] that returns true has replaced the value of every
    row under the column by its coercion and has left the other cells and
    the rows alone. It has not written the new type: the columns of the
    table, with their types, are as before. *)
Theorem UpdateColumnType_effect table columnID columnType :
  (apply (UpdateColumnType columnID columnType) table).2 = Normal true ->
  let updated := (apply (UpdateColumnType columnID columnType) table).1.1 in
  Table.columns updated = Table.columns table /\
  Table.order updated = Table.order table /\
  (forall rowID,
     cell updated rowID columnID = CellType.coerce columnType (cell table rowID columnID)) /\
  (forall rowID columnID', columnID' <> columnID ->
     cell updated rowID columnID' = cell table rowID columnID').
Proof.
  intros Hsuccess updated. subst updated.
  pose proof Hsuccess as Hall. apply UpdateColumnType_apply_true in Hall as [Hcolumn Hall].
  revert Hsuccess. simpl. rewrite Hcolumn.
  destruct (fold_left _ _ _); [|done]. intros _. simpl. split_and!; try done.
  - intros rowID.
    rewrite (cell_map table (coerceRow columnID columnType))
      by (intros row; unfold coerceRow; by case_match).
    unfold cell. destruct (JSMap.get rowID (Table.cells table)) as [row|] eqn:Hrow;
      [|done].
    apply (coerceRow_defined columnID columnType (rowID, row)).
    rewrite Forall_forall in Hall. apply (Hall (rowID, row)).
    by apply get_Some_elem.
  - intros rowID columnID' Hne.
    rewrite (cell_map table (coerceRow columnID columnType))
      by (intros row; unfold coerceRow; by case_match).
    unfold cell. destruct (JSMap.get rowID (Table.cells table)) as [row|]; [|done].
    unfold coerceRow. case_match; simpl; [|done]. by apply get_set_ne.
Qed.

Lemma apply_column_type this table columnID type :
  JSMap.get columnID (Table.columns (apply this table).1.1) = Some type ->
  JSMap.get columnID (Table.columns table) = Some type \/
  this = CreateColumn columnID type.
Proof.
  destruct this as [rowID|rowID index|rowID targetIndex start|columnID' columnType
                    |columnID'|columnID' columnType|rowID columnID' cellValue
                    |rowID columnID' cellValue].
  - simpl. destruct (JSMap.has _ _); simpl; auto.
  - destruct (decide (rowID ∈ Table.order table)) as [Hin|Hout].
    + destruct (DestroyRow_apply_present table rowID index Hin) as [j [_ ->]]. auto.
    + rewrite DestroyRow_apply_absent by done. auto.
  - destruct (decide (rowID ∈ Table.order table)) as [Hin|Hout].
    + destruct (MoveRow_apply_present table rowID targetIndex start Hin) as [j [_ ->]].
      auto.
    + rewrite MoveRow_apply_absent by done. auto.
  - simpl. destruct (JSMap.has _ _); simpl; [auto|].
    destruct (decide (columnID' = columnID)) as [->|Hne].
    + rewrite get_set_eq. intros [= ->]. by right.
    + rewrite get_set_ne by done. auto.
  - simpl. destruct (JSMap.has _ _); simpl; [|auto].
    destruct (decide (columnID' = columnID)) as [->|Hne].
    + by rewrite get_delete_eq.
    + rewrite get_delete_ne by done. auto.
  - simpl. destruct (JSMap.has _ _); [|auto]. destruct (fold_left _ _ _); auto.
  - simpl. unfold applyCellValue. repeat case_match; simplify_eq; simpl; auto.
  - simpl. unfold applyCellValue. repeat case_match; simplify_eq; simpl; auto.
Qed.

(** The type of a column is the type that a [CreateColumn] gave it: no
    other update, [UpdateColumnType] included, writes a type. *)
Theorem column_type_comes_from_CreateColumn (updates : list (Update number))
    columnID type :
  JSMap.get columnID (Table.columns (applyAll updates Table.empty)) = Some type ->
  CreateColumn columnID type ∈ updates.
Proof.
  unfold applyAll. induction updates as [|this updates IH] using rev_ind; [done|].
  rewrite fold_left_app. simpl. intros Hget.
  apply apply_column_type in Hget as [Hget| ->].
  - apply elem_of_app. left. by apply IH.
  - apply elem_of_app. right. left.
Qed.

Lemma applyCellValue_accepted expected rowID columnID v table :
  wellFormed table ->
  (applyCellValue expected rowID columnID v table).2 = Normal true <->
  JSMap.get columnID (Table.columns table) = Some expected /\
  rowID ∈ Table.order table.
Proof.
  intros [_ Hrows]. unfold applyCellValue.
  destruct (JSMap.get columnID (Table.columns table)) as [type|];
    [|split; [done | by intros [? _]]].
  destruct (JSMap.get rowID (Table.rows table)) as [k|] eqn:Hk.
  - assert (rowID ∈ Table.order table) as Hin.
    { apply rows_has, has_true. by eexists. }
    destruct (decide (type = expected)) as [->|Hne].
    + destruct (proj1 (Hrows rowID) Hin) as [row ->]. simpl. by split.
    + simpl. split; [done|]. intros [[= ?] _]. done.
  - apply rows_get_None in Hk. simpl. split; [done | by intros [_ ?]].
Qed.

Lemma applyCellValue_frame expected rowID columnID v table rowID' columnID' :
  (rowID', columnID') <> (rowID, columnID) ->
  cell (applyCellValue expected rowID columnID v table).1 rowID' columnID'
    = cell table rowID' columnID'.
Proof.
  intros Hother. unfold applyCellValue.
  repeat case_match; simplify_eq; simpl; try done.
  rewrite cell_set. destruct (decide (rowID = rowID')) as [<-|Hne]; [|done].
  rewrite get_set_ne by congruence. unfold cell.
  by match goal with Hget : JSMap.get rowID (Table.cells table) = Some _ |- _ =>
       rewrite Hget end.
Qed.

(** [UpdateTextCellValue] and [UpdateNumberCellValue] return true exactly
    when the column has the type of the update and the row is in the
    table; whatever they return, every other cell, the columns and the
    rows are as before. *)
Theorem cell_update_accepted this table rowID columnID v type :
  cellUpdate this = Some (rowID, columnID, v, type) ->
  wellFormed table ->
  ((apply this table).2 = Normal true <->
     JSMap.get columnID (Table.columns table) = Some type /\
     rowID ∈ Table.order table) /\
  Table.columns (apply this table).1.1 = Table.columns table /\
  Table.order (apply this table).1.1 = Table.order table /\
  (forall rowID' columnID', (rowID', columnID') <> (rowID, columnID) ->
     cell (apply this table).1.1 rowID' columnID' = cell table rowID' columnID').
Proof.
  intros Hkind Hwf.
  assert (apply this table =
            ((applyCellValue type rowID columnID v table).1, this,
             (applyCellValue type rowID columnID v table).2)) as ->.
  { destruct this; simpl in Hkind; simplify_eq; simpl;
      by destruct (applyCellValue _ _ _ _ _). }
  simpl. split_and!.
  - by apply applyCellValue_accepted.
  - unfold applyCellValue. repeat case_match; done.
  - unfold applyCellValue. repeat case_match; done.
  - intros rowID' columnID'. apply applyCellValue_frame.
Qed.
End column_update_facts.

Section column_update_examples.

Lemma DestroyColumn_result_example :
  exists destroyed,
    apply (DestroyColumn "123") Example.tableABC
      = (destroyed, DestroyColumn "123", Normal true) /\
    Table.columns destroyed = filter (fun column => column.1 <> "123")
                                (Table.columns Example.tableABC) /\
    Table.order destroyed = Table.order Example.tableABC /\
    (forall rowID, cell destroyed rowID "123" = None) /\
    (forall rowID columnID', columnID' <> "123" ->
       cell destroyed rowID columnID' = cell Example.tableABC rowID columnID').
Proof. apply (DestroyColumn_result Example.tableABC "123"). reflexivity. Defined.

(** A table with the number 2 under a number column, and its coercion to
    text. *)
Lemma UpdateColumnType_effect_example :
  let table :=
    applyAll [CreateRow "DEF"; CreateColumn "456" Number;
              UpdateNumberCellValue "DEF" "456" (Some 2)] Table.empty in
  let updated := (apply (UpdateColumnType "456" Text) table).1.1 in
  Table.columns updated = Table.columns table /\
  Table.order updated = Table.order table /\
  (forall rowID,
     cell updated rowID "456" = CellType.coerce Text (cell table rowID "456")) /\
  (forall rowID columnID', columnID' <> "456" ->
     cell updated rowID columnID' = cell table rowID columnID').
Proof.
  apply (UpdateColumnType_effect
           (applyAll [CreateRow "DEF"; CreateColumn "456" Number;
                      UpdateNumberCellValue "DEF" "456" (Some 2)] Table.empty)
           "456" Text).
  by vm_compute.
Defined.

Lemma column_type_comes_from_CreateColumn_example :
  @CreateColumn (option Z) "456" Number ∈
    [CreateRow "DEF"; CreateColumn "456" Number; UpdateColumnType "456" Text].
Proof.
  apply (column_type_comes_from_CreateColumn
           [CreateRow "DEF"; CreateColumn "456" Number; UpdateColumnType "456" Text]
           "456" Number).
  by vm_compute.
Defined.

Lemma cell_update_accepted_example :
  ((apply Example.fooABC123 Example.tableABC).2 = Normal true <->
     JSMap.get "123" (Table.columns Example.tableABC) = Some Text /\
     "ABC" ∈ Table.order Example.tableABC) /\
  Table.columns (apply Example.fooABC123 Example.tableABC).1.1
    = Table.columns Example.tableABC /\
  Table.order (apply Example.fooABC123 Example.tableABC).1.1
    = Table.order Example.tableABC /\
  (forall rowID' columnID', (rowID', columnID') <> ("ABC", "123") ->
     cell (apply Example.fooABC123 Example.tableABC).1.1 rowID' columnID'
       = cell Example.tableABC rowID' columnID').
Proof.
  apply (cell_update_accepted Example.fooABC123 Example.tableABC "ABC" "123"
           (VString "foo") Text).
  - reflexivity.
  - apply (applyAll_wellFormed [CreateRow "ABC"; CreateColumn "123" Text]),
      wellFormed_empty.
Defined.
End column_update_examples.

(** ** Shifting an update that was applied *)

Section shift_after_apply_facts.
Context {number : Type} `{!JSNumber number}.
Implicit Types (table : Table.t number) (this : Update number)
  (context : ShiftContext.t).

(** The update has a saved position where it needs one: [shift] returns. *)
Definition saved this : Prop :=
  forall context, exists context', shift this context = Normal context'.

Lemma saved_apply_true this table :
  (apply this table).2 = Normal true -> saved (apply this table).1.2.
Proof.
  destruct this as [rowID|rowID index|rowID targetIndex start|columnID columnType
                    |columnID|columnID columnType|rowID columnID cellValue
                    |rowID columnID cellValue];
    try (intros _ context; simpl; repeat case_match; by eexists).
  - destruct (decide (rowID ∈ Table.order table)) as [Hin|Hout].
    + destruct (DestroyRow_apply_present table rowID index Hin) as [j [_ ->]].
      intros _ context. simpl. rewrite decide_False by lia. by eexists.
    + by rewrite DestroyRow_apply_absent.
  - destruct (decide (rowID ∈ Table.order table)) as [Hin|Hout].
    + destruct (MoveRow_apply_present table rowID targetIndex start Hin) as [j [_ ->]].
      intros _ context. simpl. rewrite decide_False by lia. by eexists.
    + by rewrite MoveRow_apply_absent.
Qed.

Lemma saved_apply this table : saved this -> saved (apply this table).1.2.
Proof.
  intros Hsaved.
  destruct this as [rowID|rowID index|rowID targetIndex start|columnID columnType
                    |columnID|columnID columnType|rowID columnID cellValue
                    |rowID columnID cellValue];
    try (intros context; simpl; repeat case_match; by eexists).
  - destruct (decide (rowID ∈ Table.order table)) as [Hin|Hout].
    + destruct (DestroyRow_apply_present table rowID index Hin) as [j [_ ->]].
      intros context. simpl. rewrite decide_False by lia. by eexists.
    + by rewrite DestroyRow_apply_absent.
  - destruct (decide (rowID ∈ Table.order table)) as [Hin|Hout].
    + destruct (MoveRow_apply_present table rowID targetIndex start Hin) as [j [_ ->]].
      intros context. simpl. rewrite decide_False by lia. by eexists.
    + by rewrite MoveRow_apply_absent.
Qed.

(** An update that [apply] has accepted can be shifted: [DestroyRow]
    records the deletion at the position the row had, [MoveRow] the move
    from that position to its target, the other updates leave the context
    as it is. Before [apply], [shift] of the two throws. *)
Theorem shift_after_apply this table context :
  (apply this table).2 = Normal true ->
  shift (apply this table).1.2 context =
    Normal
      match this with
      | DestroyRow rowID _ =>
          ShiftContext.deleteAt context
            (default (-1) (JSMap.get rowID (Table.rows table)))
      | MoveRow rowID targetIndex _ =>
          ShiftContext.move context
            (default (-1) (JSMap.get rowID (Table.rows table))) targetIndex
      | _ => context
      end /\
  (forall rowID, shift (newDestroyRow rowID) context
                 = Thrown (ErrorMessage "shift called before apply")) /\
  (forall rowID targetIndex, shift (newMoveRow rowID targetIndex) context
                 = Thrown (ErrorMessage "shift called before apply")).
Proof.
  intros Hsuccess. split; [|done].
  destruct this as [rowID|rowID index|rowID targetIndex start|columnID columnType
                    |columnID|columnID columnType|rowID columnID cellValue
                    |rowID columnID cellValue];
    try (simpl; repeat case_match; done).
  - destruct (JSMap.get rowID (Table.rows table)) as [k|] eqn:Hk.
    + destruct (rows_get_Some _ _ _ Hk) as [j [Hj ->]].
      assert (rowID ∈ Table.order table) as Hin by (by eapply list_elem_of_lookup_2).
      destruct (DestroyRow_apply_present table rowID index Hin) as [j' [Hj' Happly]].
      revert Happly. change (apply (DestroyRow rowID index) table)
        with (Update_apply (DestroyRow rowID index) table).
      unfold Update_apply. rewrite Hk. intros [= _ Hsame]. simpl.
      by rewrite decide_False by lia.
    + revert Hsuccess. simpl. by rewrite Hk.
  - destruct (JSMap.get rowID (Table.rows table)) as [k|] eqn:Hk.
    + destruct (rows_get_Some _ _ _ Hk) as [j [Hj ->]].
      assert (rowID ∈ Table.order table) as Hin by (by eapply list_elem_of_lookup_2).
      destruct (MoveRow_apply_present table rowID targetIndex start Hin)
        as [j' [Hj' Happly]].
      assert (apply (MoveRow rowID targetIndex start) table
              = ((apply (MoveRow rowID targetIndex start) table).1.1,
                 MoveRow rowID targetIndex (Z.of_nat j),
                 (apply (MoveRow rowID targetIndex start) table).2)) as ->.
      { change (apply (MoveRow rowID targetIndex start) table)
          with (Update_apply (MoveRow rowID targetIndex start) table).
        unfold Update_apply. rewrite Hk.
        destruct (splice _ _ _ _) as [[|moved_ removed] order]; done. }
      simpl. by rewrite decide_False by lia.
    + revert Hsuccess. simpl. by rewrite Hk.
Qed.
End shift_after_apply_facts.

Lemma shift_after_apply_example :
  shift (apply (newDestroyRow "B") Example.tableAB).1.2 ShiftContext.new =
    Normal (ShiftContext.deleteAt ShiftContext.new
              (default (-1) (JSMap.get "B" (Table.rows Example.tableAB)))) /\
  (forall rowID, shift (newDestroyRow (number := option Z) rowID) ShiftContext.new
                 = Thrown (ErrorMessage "shift called before apply")) /\
  (forall rowID targetIndex,
     shift (newMoveRow (number := option Z) rowID targetIndex) ShiftContext.new
       = Thrown (ErrorMessage "shift called before apply")).
Proof.
  apply (shift_after_apply (newDestroyRow "B") Example.tableAB ShiftContext.new).
  reflexivity.
Defined.

(** ** The history of the server *)

Section history_facts.
Context {number : Type} `{!JSNumber number} {U : Type} `{!TableUpdate number U}.
Implicit Types (w : Server.world number U) (message : Message.t U) (client : ClientRef).

(** A property of updates that [apply] gives an update when it returns
    true, and never takes from it. *)
Variable kept : U -> Prop.
Hypothesis kept_apply_true :
  forall (this : U) table, (apply this table).2 = Normal true -> kept (apply this table).1.2.
Hypothesis kept_apply :
  forall (this : U) table, kept this -> kept (apply this table).1.2.

(** The history holds a message at the positions 1 to [version] and
    nowhere else, and the update of each has the property. *)
Definition historyFilled w : Prop :=
  forall i : nat,
    (is_Some (Server.history (Server.server w) !! i) <->
       (1 <= i <= Server.version (Server.server w))%nat) /\
    (forall message, Server.history (Server.server w) !! i = Some message ->
       kept (Message.update message)).

Definition keepsHistory w w' : Prop := historyFilled w -> historyFilled w'.

#[local] Instance keepsHistory_reflexive : Reflexive keepsHistory.
Proof. intros w Hinv. exact Hinv. Qed.

#[local] Instance keepsHistory_transitive : Transitive keepsHistory.
Proof. intros w1 w2 w3. unfold keepsHistory. auto. Qed.

(** The history and the version are the same. *)
Definition sameHistory w w' : Prop :=
  Server.history (Server.server w') = Server.history (Server.server w) /\
  Server.version (Server.server w') = Server.version (Server.server w).

Lemma sameHistory_keepsHistory w w' : sameHistory w w' -> keepsHistory w w'.
Proof. intros [Hhistory Hversion] Hinv i. rewrite Hhistory, Hversion. apply Hinv. Qed.

Lemma deliverSync_keepsHistory client table version :
  preserves keepsHistory (Server.deliverSync client table version).
Proof.
  intros w. apply sameHistory_keepsHistory. unfold Server.deliverSync, sameHistory.
  destruct (Server.heap w !! client) as [this|]; [|done].
  by destruct (Client.sync _ _ _ _).
Qed.

Lemma deliverRejected_keepsHistory messageID groupID client :
  preserves keepsHistory (Server.deliverRejected messageID groupID client).
Proof.
  intros w. apply sameHistory_keepsHistory. unfold Server.deliverRejected, sameHistory.
  by destruct (Server.heap w !! client).
Qed.

(** [accepted] writes into the update of the message of the history. *)
Lemma deliverAccepted_keepsHistory slot client :
  preserves keepsHistory (Server.deliverAccepted slot client).
Proof.
  intros w Hinv. unfold Server.deliverAccepted.
  destruct (Server.heap w !! client) as [this|]; [|done].
  destruct (Server.history (Server.server w) !! slot) as [message|] eqn:Hslot; [|done].
  destruct (Client.accepted _ _ _) as [[[this' message'] uuid'] result] eqn:Haccepted.
  destruct (Hinv slot) as [Hrange Hentry]. pose proof (Hentry message Hslot) as Hkept.
  assert (kept (Message.update message')) as Hmessage'.
  { unfold Client.accepted in Haccepted. case_decide; [|by simplify_eq].
    pose proof (kept_apply (Message.update message) (Client.table this) Hkept) as Hk.
    destruct (apply _ _) as [[table_ update_] result_].
    destruct result_; simplify_eq; done. }
  intros i. simpl. destruct (decide (i = slot)) as [->|Hne].
  - rewrite lookup_insert_eq. split.
    + split; [intros _; apply Hrange; by eexists | by eexists].
    + by intros ? [= <-].
  - rewrite lookup_insert_ne by done. apply Hinv.
Qed.

Lemma processMessage_keepsHistory message :
  preserves keepsHistory (Server.processMessage message).
Proof.
  intros w Hinv. unfold Server.processMessage. unfold bind at 1, gets at 1.
  case_decide; [done|]. unfold bind at 1, liftOutcome at 1.
  destruct (Server.transformMessage _ _) as [message'|e]; [|done].
  pose proof (kept_apply_true (Message.update message')
                (Server.table (Server.server w))) as Hkept.
  destruct (apply _ _) as [[table_ update_] result].
  unfold bind at 1, modify at 1. unfold bind at 1, liftOutcome at 1.
  destruct result as [[|]|e]; [| |done].
  - unfold bind at 1, modify at 1.
    apply (preserves_bind keepsHistory); [apply preserves_gets; typeclasses eauto| |].
    { intros this. apply preserves_forEach; [typeclasses eauto..|].
      apply deliverAccepted_keepsHistory. }
    intros i. simpl. destruct (decide (i = S (Server.version (Server.server w))))
      as [->|Hne].
    + rewrite lookup_insert_eq. split.
      * split; [lia | by eexists].
      * intros ? [= <-]. by apply Hkept.
    + rewrite lookup_insert_ne by done. destruct (Hinv i) as [Hrange Hentry].
      split; [|done]. rewrite Hrange. lia.
  - unfold bind at 1, modify at 1.
    apply (preserves_bind keepsHistory); [apply preserves_gets; typeclasses eauto| |].
    { intros this. apply preserves_forEach; [typeclasses eauto..|].
      apply deliverRejected_keepsHistory. }
    exact Hinv.
Qed.

Lemma processLoop_keepsHistory fuel : preserves keepsHistory (Server.processLoop fuel).
Proof.
  induction fuel as [|fuel IH]; simpl; [preserves_step|].
  preserves_step; [preserves_step|]. case_match; [preserves_step|].
  preserves_step; [preserves_step; intros Hinv; exact Hinv|].
  preserves_step; [apply processMessage_keepsHistory | apply IH].
Qed.

Lemma process_keepsHistory : preserves keepsHistory Server.process.
Proof.
  unfold Server.process. preserves_step; [preserves_step|].
  apply processLoop_keepsHistory.
Qed.

Lemma receive_keepsHistory message : preserves keepsHistory (Server.receive message).
Proof.
  unfold Server.receive. preserves_step; [preserves_step; intros Hinv; exact Hinv|].
  preserves_step; [preserves_step|].
  case_decide; [apply process_keepsHistory | preserves_step].
Qed.

Lemma updateClient_keepsHistory client (f : Client.t number U -> Client.t number U) :
  preserves keepsHistory (ClientAPI.updateClient client f).
Proof.
  intros w. apply sameHistory_keepsHistory.
  unfold ClientAPI.updateClient, modify, sameHistory. simpl.
  by destruct (Server.heap w !! client).
Qed.

Lemma comeOnline_keepsHistory client : preserves keepsHistory (ClientAPI.comeOnline client).
Proof.
  unfold ClientAPI.comeOnline. preserves_step.
  - unfold Server.connected. preserves_step; [preserves_step; intros Hinv; exact Hinv|].
    preserves_step; [preserves_step|]. apply deliverSync_keepsHistory.
  - preserves_step; [preserves_step|].
    preserves_step; [preserves_step; apply receive_keepsHistory|].
    preserves_step; apply updateClient_keepsHistory.
Qed.

Lemma method_keepsHistory (o : System.op U) : preserves keepsHistory (System.method o).
Proof.
  destruct o as [online|client|client|client update|]; simpl.
  - preserves_step; [|preserves_step]. unfold ClientAPI.new.
    preserves_step; [preserves_step|].
    preserves_step; [preserves_step; intros Hinv; exact Hinv|].
    preserves_step; [|preserves_step].
    destruct online; [apply comeOnline_keepsHistory | preserves_step].
  - apply comeOnline_keepsHistory.
  - unfold ClientAPI.goOffline. preserves_step.
    + unfold Server.disconnected. preserves_step. intros Hinv. exact Hinv.
    + apply updateClient_keepsHistory.
  - intros w. unfold ClientAPI.edit.
    destruct (Server.heap w !! client) as [this|] eqn:Hthis; [|done].
    unfold ClientAPI.send. simpl. rewrite Hthis.
    destruct (Client.online this).
    + apply (receive_keepsHistory _
               {| Server.server := Server.server w; Server.heap := Server.heap w;
                  Server.uuid := S (Server.uuid w); Server.log := Server.log w |}).
    + apply (updateClient_keepsHistory _ _
               {| Server.server := Server.server w; Server.heap := Server.heap w;
                  Server.uuid := S (Server.uuid w); Server.log := Server.log w |}).
  - apply process_keepsHistory.
Qed.

Lemma run_historyFilled (delay : nat) (ops : list (System.op U)) :
  historyFilled (System.run ops (System.initial delay)).
Proof.
  assert (forall w, historyFilled w -> historyFilled (System.run ops w)) as Hrun.
  { induction ops as [|o ops IH]; intros w Hinv; simpl; [done|].
    apply IH. by apply (method_keepsHistory o w). }
  apply Hrun. intros i. simpl. rewrite lookup_empty. split; [|done].
  split; [by intros [? ?] | lia].
Qed.
End history_facts.

(** Whatever the clients and the server have done since the server was
    constructed, also when a call has thrown, and for every class of
    updates: the history holds a message exactly at the positions 1 to the
    version of the server, and the position 0 is empty. *)
Theorem history_is_filled {number U : Type} `{!JSNumber number} `{!TableUpdate number U}
    (delay : nat) (ops : list (System.op U)) (i : nat) :
  let this := Server.server (System.run ops (System.initial delay)) in
  (is_Some (Server.history this !! i) <-> (1 <= i <= Server.version this)%nat) /\
  Server.history this !! 0%nat = None.
Proof.
  pose proof (run_historyFilled (fun _ => True) (fun _ _ _ => I) (fun _ _ _ => I)
                delay ops) as Hinv.
  split; [apply Hinv|].
  destruct (Hinv 0%nat) as [Hrange _].
  destruct (Server.history _ !! 0%nat) eqn:Hlookup; [|done].
  assert (1 <= 0 <= Server.version
            (Server.server (System.run ops (System.initial delay))))%nat; [|lia].
  apply Hrange. by eexists.
Qed.

Section shiftContextFor_facts.
Context {number : Type} `{!JSNumber number}.

Lemma accumulate_saved (history : gmap nat (Message.t (Update number))) :
  forall (count i : nat) context,
    (forall j : nat, (i <= j < i + count)%nat ->
       exists message, history !! j = Some message /\ saved (Message.update message)) ->
    exists context', Server.accumulate history i count context = Normal context'.
Proof.
  induction count as [|count IH]; intros i context Hentries; simpl; [by eexists|].
  destruct (Hentries i) as [message [-> Hsaved]]; [lia|].
  destruct (Hsaved context) as [context1 Hshift].
  change (shift (Message.update message) context) with
    (Update_shift (Message.update message) context) in Hshift |- *.
  rewrite Hshift. simpl. apply IH. intros j Hj. apply Hentries. lia.
Qed.

(** For the eight updates and every state the system reaches from a new
    server: the loop of [process] that collects the shift context of a
    message returns for every message whose version is not 0, and throws
    for a message of version 0. *)
Theorem shiftContextFor_defined (delay : nat) (ops : list (System.op (Update number)))
    (message : Message.t (Update number)) :
  let this := Server.server (System.run ops (System.initial delay)) in
  (exists context, Server.shiftContextFor this message = Normal context) <->
  Message.version message <> 0%nat.
Proof.
  intros this.
  pose proof (run_historyFilled saved saved_apply_true saved_apply delay ops) as Hinv.
  unfold historyFilled in Hinv. fold this in Hinv. split.
  - intros [context Hcontext] Hzero.
    rewrite shiftContextFor_reads_baseline in Hcontext; [done|lia|].
    rewrite Hzero. destruct (Hinv 0%nat) as [Hrange _].
    destruct (Server.history this !! 0%nat) eqn:Hlookup; [|done].
    assert (1 <= 0 <= Server.version this)%nat; [|lia].
    apply Hrange. by eexists.
  - intros Hversion. unfold Server.shiftContextFor. apply accumulate_saved.
    intros j Hj. destruct (Hinv j) as [Hrange Hentry].
    assert (is_Some (Server.history this !! j)) as [entry Hlookup].
    { apply Hrange. lia. }
    exists entry. split; [done|]. by apply Hentry.
Qed.
End shiftContextFor_facts.

(** ** The queue of the server *)

Section queue_facts.
Context {number : Type} `{!JSNumber number} {U : Type} `{!TableUpdate number U}.
Implicit Types (w : Server.world number U) (message : Message.t U) (client : ClientRef).

Definition samePending w w' : Prop :=
  Server.pending (Server.server w') = Server.pending (Server.server w).

#[local] Instance samePending_reflexive : Reflexive samePending.
Proof. by intros w. Qed.

#[local] Instance samePending_transitive : Transitive samePending.
Proof. intros w1 w2 w3. unfold samePending. congruence. Qed.

(** A round of [process] does not touch the queue: a client that is told
    of a message sends nothing. *)
Lemma processMessage_samePending message :
  preserves samePending (Server.processMessage message).
Proof.
  unfold Server.processMessage. preserves_step; [preserves_step|].
  case_decide; [preserves_step|].
  preserves_step; [preserves_step|].
  destruct (apply _ _) as [[table_ update_] result].
  preserves_step; [by preserves_step|].
  preserves_step; [preserves_step|].
  case_match.
  - preserves_step; [by preserves_step|]. unfold Server.accept.
    preserves_step; [preserves_step|]. preserves_step.
    intros w. unfold Server.deliverAccepted, samePending.
    repeat case_match; done.
  - preserves_step; [by preserves_step|].
    unfold Server.reject. preserves_step; [preserves_step|]. preserves_step.
    intros w. unfold Server.deliverRejected, samePending.
    by destruct (Server.heap w !! _).
Qed.

Lemma processLoop_nil fuel w :
  Server.pending (Server.server w) = [] ->
  Server.processLoop fuel w = (w, Normal ()).
Proof.
  intros Hpending. destruct fuel; [done|].
  simpl. unfold bind, gets. by rewrite Hpending.
Qed.

Lemma processLoop_cons fuel w message rest :
  Server.pending (Server.server w) = message :: rest ->
  Server.processLoop (S fuel) w =
    match Server.processMessage message
            (Server.withServer w (fun this => Server.withPending this rest)) with
    | (w', Normal _) => Server.processLoop fuel w'
    | (w', Thrown e) => (w', Thrown e)
    end.
Proof.
  intros Hpending. simpl. unfold bind at 1, gets at 1. rewrite Hpending.
  unfold bind at 1, modify at 1. unfold bind at 1.
  by destruct (Server.processMessage _ _) as [w' [[]|e]].
Qed.

Lemma processLoop_queue (fuel : nat) : forall w,
  (length (Server.pending (Server.server w)) <= fuel)%nat ->
  exists processed,
    Server.pending (Server.server w) =
      processed ++ Server.pending (Server.server (Server.processLoop fuel w).1) /\
    ((Server.processLoop fuel w).2 = Normal () ->
     Server.pending (Server.server (Server.processLoop fuel w).1) = []) /\
    (Server.pending (Server.server (Server.processLoop fuel w).1) <> [] ->
     processed <> []).
Proof.
  induction fuel as [|fuel IH]; intros w Hlength.
  - assert (Server.pending (Server.server w) = []) as Hpending.
    { destruct (Server.pending (Server.server w)); [done | simpl in Hlength; lia]. }
    exists []. by rewrite processLoop_nil.
  - destruct (Server.pending (Server.server w)) as [|message rest] eqn:Hpending.
    { exists []. by rewrite processLoop_nil. }
    rewrite (processLoop_cons fuel w message rest Hpending).
    set (w1 := Server.withServer w (fun this => Server.withPending this rest)).
    pose proof (processMessage_samePending message w1) as Hsame.
    unfold samePending in Hsame.
    destruct (Server.processMessage message w1) as [w2 [[]|e]]; simpl in Hsame |- *.
    + destruct (IH w2) as [processed [Hprocessed [Hempty _]]].
      { rewrite Hsame. simpl in Hlength. lia. }
      exists (message :: processed). split_and!; [|done..].
      simpl. f_equal. by rewrite <- Hprocessed.
    + exists [message]. split_and!; [|done..]. simpl. by rewrite Hsame.
Qed.

(** [process] takes the messages from the front of the queue, in order:
    what it leaves in the queue is the rest of it, and when [process]
    returns, the queue is empty. Messages are left only when a round has
    thrown, and then the message of that round is not among them. *)
Theorem process_drains_queue w :
  exists processed,
    Server.pending (Server.server w) =
      processed ++ Server.pending (Server.server (Server.process w).1) /\
    ((Server.process w).2 = Normal () ->
     Server.pending (Server.server (Server.process w).1) = []) /\
    (Server.pending (Server.server (Server.process w).1) <> [] ->
     processed <> []).
Proof.
  unfold Server.process, bind, gets.
  by apply (processLoop_queue (length (Server.pending (Server.server w))) w).
Qed.
End queue_facts.

(** ** Clients that are not connected *)

Section disconnected_facts.
Context {number : Type} `{!JSNumber number} {U : Type} `{!TableUpdate number U}.
Implicit Types (w : Server.world number U) (message : Message.t U).
Variable client : ClientRef.

(** The client object and the set of connected clients are the same. *)
Definition untouched w w' : Prop :=
  Server.heap w' !! client = Server.heap w !! client /\
  Server.clients (Server.server w') = Server.clients (Server.server w).

(** They are the same when the client is not connected. *)
Definition untouchedOutside w w' : Prop :=
  client ∉ Server.clients (Server.server w) -> untouched w w'.

#[local] Instance untouched_reflexive : Reflexive untouched.
Proof. by intros w. Qed.

#[local] Instance untouched_transitive : Transitive untouched.
Proof. intros w1 w2 w3 [? ?] [? ?]. unfold untouched. split; congruence. Qed.

#[local] Instance untouchedOutside_reflexive : Reflexive untouchedOutside.
Proof. by intros w _. Qed.

#[local] Instance untouchedOutside_transitive : Transitive untouchedOutside.
Proof.
  intros w1 w2 w3 H12 H23 Hout. specialize (H12 Hout).
  etransitivity; [exact H12|]. apply H23. destruct H12 as [_ ->]. exact Hout.
Qed.

Lemma forEach_untouched (f : ClientRef -> M (Server.world number U) unit)
    (clients : list ClientRef) :
  client ∉ clients ->
  (forall other, other <> client -> preserves untouched (f other)) ->
  preserves untouched (forEach clients f).
Proof.
  intros Hout Hf. induction clients as [|other clients IH]; simpl.
  - apply preserves_ret. typeclasses eauto.
  - apply not_elem_of_cons in Hout as [Hne Hout].
    apply preserves_bind; [typeclasses eauto | by apply Hf | intros _; by apply IH].
Qed.

Lemma deliverAccepted_untouched slot other :
  other <> client -> preserves untouched (Server.deliverAccepted slot other).
Proof.
  intros Hne w. unfold Server.deliverAccepted, untouched.
  destruct (Server.heap w !! other); [|done].
  destruct (Server.history (Server.server w) !! slot); [|done].
  destruct (Client.accepted _ _ _) as [[[this' message'] uuid'] result]. simpl.
  by rewrite list_lookup_insert_ne.
Qed.

Lemma deliverRejected_untouched messageID groupID other :
  other <> client ->
  preserves untouched (Server.deliverRejected messageID groupID other).
Proof.
  intros Hne w. unfold Server.deliverRejected, untouched.
  by destruct (Server.heap w !! other).
Qed.

Lemma accept_untouchedOutside slot : preserves untouchedOutside (Server.accept slot).
Proof.
  intros w Hout. unfold Server.accept, bind, gets.
  apply forEach_untouched; [done|]. intros other. apply deliverAccepted_untouched.
Qed.

Lemma reject_untouchedOutside messageID groupID :
  preserves untouchedOutside (Server.reject messageID groupID).
Proof.
  intros w Hout. unfold Server.reject, bind, gets.
  apply forEach_untouched; [done|]. intros other. apply deliverRejected_untouched.
Qed.

Lemma processMessage_untouchedOutside message :
  preserves untouchedOutside (Server.processMessage message).
Proof.
  unfold Server.processMessage. preserves_step; [preserves_step|].
  case_decide; [preserves_step|].
  preserves_step; [preserves_step|].
  destruct (apply _ _) as [[table_ update_] result].
  preserves_step; [preserves_step; by intros _|].
  preserves_step; [preserves_step|].
  case_match.
  - preserves_step; [preserves_step; by intros _|]. apply accept_untouchedOutside.
  - preserves_step; [preserves_step; by intros _|]. apply reject_untouchedOutside.
Qed.

Lemma processLoop_untouchedOutside fuel :
  preserves untouchedOutside (Server.processLoop fuel).
Proof.
  induction fuel as [|fuel IH]; simpl; [preserves_step|].
  preserves_step; [preserves_step|]. case_match; [preserves_step|].
  preserves_step; [preserves_step; by intros _|].
  preserves_step; [apply processMessage_untouchedOutside | apply IH].
Qed.

Lemma receive_untouchedOutside message :
  preserves untouchedOutside (Server.receive message).
Proof.
  unfold Server.receive. preserves_step; [preserves_step; by intros _|].
  preserves_step; [preserves_step|].
  case_decide; [|preserves_step].
  unfold Server.process. preserves_step; [preserves_step|].
  apply processLoop_untouchedOutside.
Qed.

(** The server calls the clients of its set and no other: a client that is
    not connected is the same object after [receive] and after [process],
    whatever the messages in the queue are and whether or not a round
    throws, and it is still not connected. *)
Theorem server_leaves_disconnected_client w message :
  client ∉ Server.clients (Server.server w) ->
  Server.heap (Server.receive message w).1 !! client = Server.heap w !! client /\
  Server.heap (Server.process w).1 !! client = Server.heap w !! client /\
  (client ∉ Server.clients (Server.server (Server.receive message w).1)) /\
  (client ∉ Server.clients (Server.server (Server.process w).1)).
Proof.
  intros Hout.
  destruct (receive_untouchedOutside message w Hout) as [Hheap Hclients].
  assert (preserves untouchedOutside (Server.process (U := U))) as Hprocess.
  { unfold Server.process. preserves_step; [preserves_step|].
    apply processLoop_untouchedOutside. }
  destruct (Hprocess w Hout) as [Hheap' Hclients'].
  by rewrite Hheap, Hclients, Hheap', Hclients'.
Qed.
End disconnected_facts.

(** ** Methods that keep an invariant *)

(** The method has returned, or has thrown a [TypeError]. *)
Definition returnedOrTypeError {A} (result : outcome A) : Prop :=
  match result with
  | Normal _ => True
  | Thrown e => e = TypeError
  end.

Section maintains.
Context {S : Type} (inv : S -> Prop).

(** From a state of the invariant the method ends in a state of the
    invariant, and it throws nothing but a [TypeError]. *)
Definition maintains {A} (c : M S A) : Prop :=
  forall s, inv s -> inv (c s).1 /\ returnedOrTypeError (c s).2.

Lemma maintains_ret {A} (a : A) : maintains (ret a).
Proof. by intros s Hinv. Qed.

Lemma maintains_modify (f : S -> S) :
  (forall s, inv s -> inv (f s)) -> maintains (modify f).
Proof. intros Hf s Hinv. split; [by apply Hf | done]. Qed.

Lemma maintains_bind {A B} (c : M S A) (f : A -> M S B) :
  maintains c -> (forall a, maintains (f a)) -> maintains (bind c f).
Proof.
  intros Hc Hf s Hinv. destruct (Hc s Hinv) as [Hinv1 Hresult].
  unfold bind. destruct (c s) as [s1 [a|e]]; [by apply Hf | done].
Qed.

(** The value read from the state is known to what follows. *)
Lemma maintains_gets_bind {A B} (g : S -> A) (f : A -> M S B) :
  (forall s, inv s -> inv (f (g s) s).1 /\ returnedOrTypeError (f (g s) s).2) ->
  maintains (bind (gets g) f).
Proof. intros Hf s Hinv. unfold bind, gets. by apply Hf. Qed.

Lemma maintains_forEach {A} (l : list A) (f : A -> M S unit) :
  (forall a, maintains (f a)) -> maintains (forEach l f).
Proof.
  intros Hf. induction l as [|a l IH]; simpl.
  - apply maintains_ret.
  - apply maintains_bind; [apply Hf | intros _; apply IH].
Qed.

Lemma maintains_ends {A} (c : M S A) :
  (forall s, inv s ->
     exists s' result, c s = (s', result) /\ inv s' /\ returnedOrTypeError result) ->
  maintains c.
Proof. intros Hc s Hinv. by destruct (Hc s Hinv) as [s' [result [-> ?]]]. Qed.
End maintains.

(** ** Connected clients mirror the server *)

Section mirror_facts.
Context {number : Type} `{!JSNumber number}.
Implicit Types (w : Server.world number (Update number)) (update : Update number)
  (table : Table.t number) (client : ClientRef)
  (message : Message.t (Update number)).

(** The update as its constructor makes it: without the position that
    [apply] saves. *)
Definition forgetPosition update : Update number :=
  match update with
  | DestroyRow rowID _ => newDestroyRow rowID
  | MoveRow rowID targetIndex _ => newMoveRow rowID targetIndex
  | _ => update
  end.

(** [apply] writes the saved position of the update and nothing else of
    it. *)
Lemma apply_forgetPosition update table :
  forgetPosition (apply update table).1.2 = forgetPosition update.
Proof.
  destruct update as [rowID|rowID index|rowID targetIndex start|columnID columnType
                      |columnID|columnID columnType|rowID columnID cellValue
                      |rowID columnID cellValue];
    simpl; repeat case_match; done.
Qed.

(** [apply] does not read the saved position: the table it leaves and what
    it returns are those of the update without it. *)
Lemma apply_reads_forgetPosition update update' table :
  forgetPosition update = forgetPosition update' ->
  (apply update table).1.1 = (apply update' table).1.1 /\
  (apply update table).2 = (apply update' table).2.
Proof.
  intros Hsame.
  destruct update, update'; simpl in Hsame; unfold newDestroyRow, newMoveRow in Hsame;
    simplify_eq; try done.
  - change (@apply number (Update number) _) with (@Update_apply number _).
    unfold Update_apply. by destruct (JSMap.get _ _).
  - change (@apply number (Update number) _) with (@Update_apply number _).
    unfold Update_apply. destruct (JSMap.get _ _); [|done].
    by destruct (splice _ _ _ _) as [[|moved_ removed] order].
Qed.

Lemma copy_same table : Table.copy table = table.
Proof. by destruct table. Qed.

(** The invariant: the table of the server is well formed, the set of
    connected clients holds client objects, and each of them has the table
    and the version of the server. *)
Definition mirrors w : Prop :=
  wellFormed (Server.table (Server.server w)) /\
  NoDup (Server.clients (Server.server w)) /\
  forall client, client ∈ Server.clients (Server.server w) ->
    exists this, Server.heap w !! client = Some this /\
      Client.table this = Server.table (Server.server w) /\
      Client.version this = Server.version (Server.server w).

(** A client at the version before [slot], with the table the server had
    then, accepts the message of [slot]. *)
Lemma deliverAccepted_in_sync (slot : nat) (before : Table.t number) update client w
    (this : Client.t number (Update number)) message :
  (apply update before).2 = Normal true ->
  Server.heap w !! client = Some this ->
  Client.table this = before -> S (Client.version this) = slot ->
  Server.history (Server.server w) !! slot = Some message ->
  Message.version message = slot ->
  forgetPosition (Message.update message) = forgetPosition update ->
  exists w1 this' message',
    Server.deliverAccepted slot client w = (w1, Normal ()) /\
    Server.server w1 =
      Server.withHistory (Server.server w)
        (<[slot := message']> (Server.history (Server.server w))) /\
    Server.heap w1 = <[client := this']> (Server.heap w) /\
    Client.table this' = (apply update before).1.1 /\
    Client.version this' = slot /\
    Message.version message' = slot /\
    forgetPosition (Message.update message') = forgetPosition update.
Proof.
  intros Hsuccess Hthis Htable Hversion Hslot Hmessage Hforget.
  unfold Server.deliverAccepted. rewrite Hthis, Hslot.
  unfold Client.accepted. rewrite decide_True by congruence.
  destruct (apply_reads_forgetPosition _ _ before Hforget) as [Hsame Hresult].
  pose proof (apply_forgetPosition (Message.update message) before) as Hforget'.
  subst before.
  destruct (apply (Message.update message) (Client.table this))
    as [[table_ update_] result].
  rewrite Hsuccess in Hresult. simpl in Hsame, Hresult, Hforget'. subst result.
  eexists _, _, _. split; [reflexivity|]. simpl.
  split_and!; try done. simpl. congruence.
Qed.

(** The broadcast of an accepted message to clients that are all at the
    version before it. *)
Lemma accept_broadcast (slot : nat) (before : Table.t number) update :
  forall (clients : list ClientRef) w,
    NoDup clients ->
    (apply update before).2 = Normal true ->
    (exists message,
       Server.history (Server.server w) !! slot = Some message /\
       Message.version message = slot /\
       forgetPosition (Message.update message) = forgetPosition update) ->
    (forall client, client ∈ clients ->
       exists this, Server.heap w !! client = Some this /\
         Client.table this = before /\ S (Client.version this) = slot) ->
    exists w',
      forEach clients (Server.deliverAccepted slot) w = (w', Normal ()) /\
      Server.table (Server.server w') = Server.table (Server.server w) /\
      Server.version (Server.server w') = Server.version (Server.server w) /\
      Server.clients (Server.server w') = Server.clients (Server.server w) /\
      (forall client, client ∈ clients ->
         exists this, Server.heap w' !! client = Some this /\
           Client.table this = (apply update before).1.1 /\
           Client.version this = slot) /\
      (forall client, client ∉ clients ->
         Server.heap w' !! client = Server.heap w !! client).
Proof.
  induction clients as [|client clients IH]; intros w Hnodup Hsuccess Hslot Hclients.
  - exists w. split_and!; try done. intros client Hin. by apply elem_of_nil in Hin.
  - apply NoDup_cons in Hnodup as [Hfresh Hnodup].
    destruct Hslot as [message [Hlookup [Hversion Hforget]]].
    destruct (Hclients client) as [this [Hthis [Htable Hthisversion]]]; [left|].
    destruct (deliverAccepted_in_sync slot before update client w this message)
      as [w1 [this' [message' [Hstep [Hserver [Hheap [Htable' [Hversion'
            [Hmessage' Hforget']]]]]]]]]; try done.
    destruct (IH w1) as [w' [Hrun [Htable1 [Hversion1 [Hclients1 [Hsynced Hframe]]]]]];
      try done.
    { exists message'. rewrite Hserver. simpl. by rewrite lookup_insert_eq. }
    { intros other Hin. rewrite Hheap.
      rewrite list_lookup_insert_ne by (intros ->; done).
      apply Hclients. by right. }
    exists w'. split_and!.
    + simpl. unfold bind. by rewrite Hstep.
    + by rewrite Htable1, Hserver.
    + by rewrite Hversion1, Hserver.
    + by rewrite Hclients1, Hserver.
    + intros other [->|Hin]%elem_of_cons; [|by apply Hsynced].
      exists this'. split; [|done]. rewrite Hframe by done. rewrite Hheap.
      apply list_lookup_insert_eq. by eapply lookup_lt_Some.
    + intros other [Hne Hout]%not_elem_of_cons. rewrite Hframe by done.
      rewrite Hheap. by apply list_lookup_insert_ne.
Qed.

Lemma processMessage_mirrors message : maintains mirrors (Server.processMessage message).
Proof.
  apply maintains_ends.
  intros w [Hwf [Hnodup Hclients]]. unfold Server.processMessage.
  unfold bind at 1, gets at 1.
  case_decide; [by eexists _, _|].
  unfold bind at 1, liftOutcome at 1.
  change (Server.transformMessage (Server.server w) message) with (Normal message).
  destruct (apply_returns (Message.update message) _ Hwf) as [success Hsuccess].
  pose proof (apply_wellFormed (Message.update message) _ Hwf) as Hwf'.
  pose proof (apply_forgetPosition (Message.update message)
                (Server.table (Server.server w))) as Hforget.
  destruct (apply (Message.update message) (Server.table (Server.server w)))
    as [[table_ update_] result] eqn:Happly.
  simpl in Hsuccess, Hwf', Hforget. subst result.
  unfold bind at 1, modify at 1. unfold bind at 1, liftOutcome at 1.
  destruct success.
  - unfold bind at 1, modify at 1. unfold Server.accept, bind at 1, gets at 1.
    cbn [Server.server Server.withServer Server.withHistory Server.withVersion
         Server.withTable Server.clients].
    match goal with
    | |- context [forEach _ _ ?w1] =>
        destruct (accept_broadcast (S (Server.version (Server.server w)))
                    (Server.table (Server.server w)) (Message.update message)
                    (Server.clients (Server.server w)) w1)
          as [w' [Hrun [Htable [Hversion [Hsame [Hsynced _]]]]]]
    end; try done.
    + by rewrite Happly.
    + eexists. simpl. rewrite lookup_insert_eq. done.
    + intros client Hin. destruct (Hclients client Hin) as [this [Hthis [? Hv]]].
      exists this. simpl. by rewrite Hv.
    + exists w', (Normal ()). split; [done|]. split; [|done].
      rewrite Happly in Hsynced. simpl in *.
      unfold mirrors. rewrite Htable, Hversion, Hsame. simpl. split_and!; done.
  - apply apply_false in Happly as ->.
    unfold bind at 1, modify at 1. unfold Server.reject, bind at 1, gets at 1.
    rewrite reject_throws.
    + eexists _, _. split; [reflexivity|].
      split; [by split_and! | by destruct (Server.clients _)].
    + apply Forall_forall. intros client Hin.
      destruct (Hclients client Hin) as [this [Hthis _]]. simpl.
      by eapply lookup_lt_Some.
Qed.

Lemma processLoop_mirrors fuel : maintains mirrors (Server.processLoop fuel).
Proof.
  induction fuel as [|fuel IH]; simpl; [apply maintains_ret|].
  apply maintains_gets_bind. intros w Hinv.
  destruct (Server.pending (Server.server w)) as [|message rest]; [done|].
  apply (maintains_bind mirrors); [by apply maintains_modify| |done].
  intros _. apply maintains_bind; [apply processMessage_mirrors | intros _; apply IH].
Qed.

Lemma process_mirrors : maintains mirrors Server.process.
Proof.
  unfold Server.process. apply maintains_gets_bind. intros w.
  apply processLoop_mirrors.
Qed.

Lemma receive_mirrors message : maintains mirrors (Server.receive message).
Proof.
  unfold Server.receive. apply maintains_bind; [by apply maintains_modify|].
  intros _. apply maintains_gets_bind. intros w.
  case_decide; [apply process_mirrors | apply maintains_ret].
Qed.

(** [connected] on a client object: it joins the set with a copy of the
    table and the version of the server. *)
Lemma connected_mirrors client w :
  mirrors w -> (client < length (Server.heap w))%nat ->
  exists w', Server.connected client w = (w', Normal ()) /\ mirrors w'.
Proof.
  intros [Hwf [Hnodup Hclients]] Hscope.
  apply lookup_lt_is_Some in Hscope as [this Hthis].
  unfold Server.connected, bind, modify, gets. simpl.
  unfold Server.deliverSync. simpl. rewrite Hthis.
  destruct (Client.sync _ _ _ _) as [this' uuid'] eqn:Hsync.
  eexists. split; [reflexivity|].
  assert (Client.table this' = Server.table (Server.server w) /\
          Client.version this' = Server.version (Server.server w)) as Hsynced.
  { unfold Client.sync in Hsync. rewrite copy_same in Hsync.
    case_decide; by simplify_eq. }
  unfold mirrors. simpl. split_and!; [done| |].
  - unfold Server.setAdd. case_decide; [done|].
    apply NoDup_app. split_and!; [done| |apply NoDup_singleton].
    intros other Hin ->%list_elem_of_singleton. done.
  - intros other Hin. destruct (decide (other = client)) as [->|Hne].
    + exists this'. split; [|done].
      apply list_lookup_insert_eq. by eapply lookup_lt_Some.
    + rewrite list_lookup_insert_ne by done. apply Hclients.
      unfold Server.setAdd in Hin. case_decide; [done|].
      apply elem_of_app in Hin as [Hin|Hin%list_elem_of_singleton]; done.
Qed.

Lemma disconnected_mirrors client : maintains mirrors (Server.disconnected client).
Proof.
  unfold Server.disconnected. apply maintains_modify.
  intros w [Hwf [Hnodup Hclients]]. unfold mirrors. simpl. split_and!; [done| |].
  - by apply NoDup_filter.
  - intros other [_ Hin]%list_elem_of_filter. by apply Hclients.
Qed.

(** A write into a client object that leaves its table and its version. *)
Lemma updateClient_mirrors client
    (f : Client.t number (Update number) -> Client.t number (Update number)) :
  (forall this, Client.table (f this) = Client.table this /\
                Client.version (f this) = Client.version this) ->
  maintains mirrors (ClientAPI.updateClient client f).
Proof.
  intros Hf. unfold ClientAPI.updateClient. apply maintains_modify.
  intros w [Hwf [Hnodup Hclients]].
  destruct (Server.heap w !! client) as [this|] eqn:Hthis; [|done].
  unfold mirrors. simpl. split_and!; [done..|].
  intros other Hin. destruct (Hclients other Hin) as [that [Hthat [Htable Hversion]]].
  destruct (decide (other = client)) as [->|Hne].
  - exists (f this). rewrite list_lookup_insert_eq by (by eapply lookup_lt_Some).
    split; [done|]. destruct (Hf this) as [-> ->]. by simplify_eq.
  - exists that. by rewrite list_lookup_insert_ne.
Qed.

(** [comeOnline] on a client object. When a message of the outbox is
    rejected, the call throws with the client connected, its outbox as it
    was and its flag not set. *)
Lemma comeOnline_mirrors client w :
  mirrors w -> (client < length (Server.heap w))%nat ->
  mirrors (ClientAPI.comeOnline client w).1 /\
  returnedOrTypeError (ClientAPI.comeOnline client w).2.
Proof.
  intros Hinv Hscope. destruct (connected_mirrors client w Hinv Hscope)
    as [w1 [Hconnected Hinv1]].
  assert (ClientAPI.comeOnline client w =
            (let* outbox_ := gets (fun w : Server.world number (Update number) =>
                match Server.heap w !! client with
                | Some this => Client.outbox this
                | None => []
                end) in
             forEach outbox_ Server.receive ;;
             ClientAPI.updateClient client (fun this => Client.withOutbox this []) ;;
             ClientAPI.updateClient client (fun this => Client.withOnline this true))
            w1) as ->.
  { unfold ClientAPI.comeOnline. unfold bind at 1. by rewrite Hconnected. }
  assert (maintains mirrors
            (let* outbox_ := gets (fun w : Server.world number (Update number) =>
                match Server.heap w !! client with
                | Some this => Client.outbox this
                | None => []
                end) in
             forEach outbox_ Server.receive ;;
             ClientAPI.updateClient client (fun this => Client.withOutbox this []) ;;
             ClientAPI.updateClient client (fun this => Client.withOnline this true)))
    as Hrest.
  { apply maintains_bind; [by intros s Hs|]. intros outbox_.
    apply maintains_bind; [apply maintains_forEach, receive_mirrors|]. intros _.
    apply maintains_bind; [by apply updateClient_mirrors|]. intros _.
    by apply updateClient_mirrors. }
  by apply Hrest.
Qed.

Lemma new_mirrors (online : bool) : maintains mirrors (ClientAPI.new online).
Proof.
  apply maintains_ends.
  intros w [Hwf [Hnodup Hclients]]. unfold ClientAPI.new.
  unfold bind at 1, gets at 1. unfold bind at 1, modify at 1.
  set (w1 := {| Server.server := Server.server w; Server.heap := _;
                Server.uuid := _; Server.log := _ |}).
  assert (mirrors w1) as Hinv1.
  { unfold mirrors. simpl. split_and!; [done..|]. intros other Hin.
    destruct (Hclients other Hin) as [that [Hthat ?]]. exists that.
    split; [|done]. by apply lookup_app_l_Some. }
  destruct online; [|by eexists _, _].
  destruct (comeOnline_mirrors (length (Server.heap w)) w1 Hinv1)
    as [Hinv' Hresult].
  { simpl. rewrite length_app. simpl. lia. }
  unfold bind. destruct (ClientAPI.comeOnline _ w1) as [w' [[]|e]];
    by eexists _, _.
Qed.

Lemma edit_mirrors client update : maintains mirrors (ClientAPI.edit client update).
Proof.
  intros w Hinv. unfold ClientAPI.edit.
  destruct (Server.heap w !! client) as [this|] eqn:Hthis; [|done].
  unfold ClientAPI.send. simpl. rewrite Hthis.
  destruct (Client.online this).
  - by apply receive_mirrors.
  - by apply (updateClient_mirrors client).
Qed.

(** The call is made on a client object that has been constructed. *)
Definition inScope (o : System.op (Update number)) w : bool :=
  match o with
  | System.ComeOnline client | System.GoOffline client | System.Edit client _ =>
      bool_decide (client < length (Server.heap w))%nat
  | System.NewClient _ | System.Tick => true
  end.

Fixpoint scoped (ops : list (System.op (Update number))) w : bool :=
  match ops with
  | [] => true
  | o :: ops' => inScope o w && scoped ops' (System.step w o)
  end.

(** Every call of the run has returned or has thrown a [TypeError]. *)
Fixpoint throwsTypeErrorsOnly (ops : list (System.op (Update number))) w : Prop :=
  match ops with
  | [] => True
  | o :: ops' =>
      returnedOrTypeError (System.method o w).2 /\
      throwsTypeErrorsOnly ops' (System.step w o)
  end.

Lemma method_mirrors (o : System.op (Update number)) w :
  mirrors w -> inScope o w = true ->
  mirrors (System.step w o) /\ returnedOrTypeError (System.method o w).2.
Proof.
  intros Hinv Hscope. unfold System.step.
  destruct o as [online|client|client|client update|]; simpl in Hscope;
    cbn [System.method].
  - assert (maintains mirrors (ClientAPI.new (U := Update number) online ;; ret ()))
      as Hnew.
    { apply maintains_bind; [apply new_mirrors | intros _; apply maintains_ret]. }
    by apply Hnew.
  - apply bool_decide_eq_true in Hscope. by apply comeOnline_mirrors.
  - assert (maintains mirrors (ClientAPI.goOffline (U := Update number) client))
      as Hoffline.
    { unfold ClientAPI.goOffline.
      apply maintains_bind; [apply disconnected_mirrors|]. intros _.
      by apply updateClient_mirrors. }
    by apply Hoffline.
  - by apply edit_mirrors.
  - by apply process_mirrors.
Qed.

Lemma run_mirrors (ops : list (System.op (Update number))) : forall w,
  mirrors w -> scoped ops w = true ->
  throwsTypeErrorsOnly ops w /\ mirrors (System.run ops w).
Proof.
  induction ops as [|o ops IH]; intros w Hinv Hscoped; simpl; [done|].
  simpl in Hscoped. apply andb_true_iff in Hscoped as [Hscope Hscoped].
  destruct (method_mirrors o w Hinv Hscope) as [Hinv' Hresult].
  destruct (IH (System.step w o) Hinv' Hscoped) as [Hresults Hfinal].
  done.
Qed.

(** For the eight updates, in a run from a new server in which every call
    is made on a client that has been constructed: after the run, whether
    its calls have returned or thrown, every connected client has the
    table and the version of the server; and a call that throws throws a
    [TypeError], the one of a rejection that meets a connected client:
    [accepted] never finds an unexpected version. *)
Theorem connected_clients_mirror_server (delay : nat)
    (ops : list (System.op (Update number))) :
  scoped ops (System.initial delay) = true ->
  throwsTypeErrorsOnly ops (System.initial delay) /\
  forall client,
    client ∈ Server.clients (Server.server (System.run ops (System.initial delay))) ->
    exists this,
      Server.heap (System.run ops (System.initial delay)) !! client = Some this /\
      Client.table this
        = Server.table (Server.server (System.run ops (System.initial delay))) /\
      Client.version this
        = Server.version (Server.server (System.run ops (System.initial delay))).
Proof.
  intros Hscoped.
  destruct (run_mirrors ops (System.initial delay)) as [Hresults [_ [_ Hclients]]];
    [|done..].
  unfold mirrors. simpl. split_and!.
  - apply wellFormed_empty.
  - apply NoDup_nil_2.
  - intros client Hin. by apply elem_of_nil in Hin.
Qed.
End mirror_facts.

(** ** Reading the data *)

Section getData_facts.
Context {number : Type} `{!JSNumber number}.
Implicit Types (w : Server.world number (Update number)) (client : ClientRef)
  (message : Message.t (Update number)).

(** The two invariants of a table that [serialize] relies on. *)
Definition sound (table : Table.t number) : Prop :=
  wellFormed table /\ rowKeysUnique table.

Lemma apply_sound (this : Update number) table :
  sound table -> sound (apply this table).1.1.
Proof.
  intros [Hwf Hkeys]. split; [by apply apply_wellFormed | by apply apply_rowKeysUnique].
Qed.

Lemma sound_empty : sound Table.empty.
Proof. split; [apply wellFormed_empty | apply Forall_nil_2]. Qed.

(** The table of the server and the table of every client object are
    sound. *)
Definition tablesWellFormed w : Prop :=
  sound (Server.table (Server.server w)) /\
  Forall (fun this => sound (Client.table this)) (Server.heap w).

Definition keepsTables w w' : Prop := tablesWellFormed w -> tablesWellFormed w'.

#[local] Instance keepsTables_reflexive : Reflexive keepsTables.
Proof. intros w Hinv. exact Hinv. Qed.

#[local] Instance keepsTables_transitive : Transitive keepsTables.
Proof. intros w1 w2 w3. unfold keepsTables. auto. Qed.

Lemma deliverAccepted_keepsTables slot client :
  preserves keepsTables (Server.deliverAccepted slot client).
Proof.
  intros w [Hserver Hheap]. unfold Server.deliverAccepted.
  destruct (Server.heap w !! client) as [this|] eqn:Hthis; [|done].
  destruct (Server.history (Server.server w) !! slot) as [message|]; [|done].
  destruct (Client.accepted _ _ _) as [[[this' message'] uuid'] result] eqn:Haccepted.
  split; [done|]. simpl. apply Forall_insert; [done|].
  assert (sound (Client.table this)) as Hwf.
  { rewrite Forall_lookup in Hheap. by apply (Hheap client). }
  unfold Client.accepted in Haccepted. case_decide; [|by simplify_eq].
  pose proof (apply_sound (Message.update message) _ Hwf) as Hwf'.
  destruct (apply _ _) as [[table_ update_] result_].
  destruct result_; by simplify_eq.
Qed.

Lemma deliverRejected_keepsTables messageID groupID client :
  preserves keepsTables (Server.deliverRejected messageID groupID client).
Proof.
  intros w Hinv. unfold Server.deliverRejected.
  by destruct (Server.heap w !! client).
Qed.

Lemma processMessage_keepsTables message :
  preserves keepsTables (Server.processMessage message).
Proof.
  intros w [Hserver Hheap]. unfold Server.processMessage. unfold bind at 1, gets at 1.
  case_decide; [done|]. unfold bind at 1, liftOutcome at 1.
  destruct (Server.transformMessage _ _) as [message'|e]; [|done].
  pose proof (apply_sound (Message.update message') _ Hserver) as Hwf.
  destruct (apply _ _) as [[table_ update_] result].
  unfold bind at 1, modify at 1. unfold bind at 1, liftOutcome at 1.
  destruct result as [[|]|e]; [| |done].
  - unfold bind at 1, modify at 1.
    apply (preserves_bind keepsTables); [apply preserves_gets; typeclasses eauto| |].
    { intros this. apply preserves_forEach; [typeclasses eauto..|].
      apply deliverAccepted_keepsTables. }
    done.
  - unfold bind at 1, modify at 1.
    apply (preserves_bind keepsTables); [apply preserves_gets; typeclasses eauto| |].
    { intros this. apply preserves_forEach; [typeclasses eauto..|].
      apply deliverRejected_keepsTables. }
    done.
Qed.

Lemma receive_keepsTables message : preserves keepsTables (Server.receive message).
Proof.
  assert (forall fuel, preserves keepsTables
            (Server.processLoop (U := Update number) fuel)) as Hloop.
  { induction fuel as [|fuel IH]; simpl; [preserves_step|].
    preserves_step; [preserves_step|]. case_match; [preserves_step|].
    preserves_step; [preserves_step; intros Hinv; exact Hinv|].
    preserves_step; [apply processMessage_keepsTables | apply IH]. }
  unfold Server.receive. preserves_step; [preserves_step; intros Hinv; exact Hinv|].
  preserves_step; [preserves_step|].
  case_decide; [|preserves_step].
  unfold Server.process. preserves_step; [preserves_step|]. apply Hloop.
Qed.

Lemma process_keepsTables : preserves keepsTables (Server.process (U := Update number)).
Proof.
  intros w. pose proof (receive_keepsTables) as Hreceive.
  unfold Server.process. apply preserves_bind; [typeclasses eauto| |].
  - apply preserves_gets. typeclasses eauto.
  - intros this. induction (length (Server.pending this)) as [|fuel IH]; simpl;
      [preserves_step|].
    preserves_step; [preserves_step|]. case_match; [preserves_step|].
    preserves_step; [preserves_step; intros Hinv; exact Hinv|].
    preserves_step; [apply processMessage_keepsTables | apply IH].
Qed.

Lemma updateClient_keepsTables client
    (f : Client.t number (Update number) -> Client.t number (Update number)) :
  (forall this, Client.table (f this) = Client.table this) ->
  preserves keepsTables (ClientAPI.updateClient client f).
Proof.
  intros Hf w [Hserver Hheap]. unfold ClientAPI.updateClient, modify. simpl.
  destruct (Server.heap w !! client) as [this|] eqn:Hthis; [|done].
  split; [done|]. simpl. apply Forall_insert; [done|]. rewrite Hf.
  rewrite Forall_lookup in Hheap. by apply (Hheap client).
Qed.

Lemma comeOnline_keepsTables client : preserves keepsTables (ClientAPI.comeOnline client).
Proof.
  unfold ClientAPI.comeOnline. preserves_step.
  - intros w [Hserver Hheap]. unfold Server.connected, bind, modify, gets. simpl.
    unfold Server.deliverSync. simpl.
    destruct (Server.heap w !! client) as [this|]; [|done].
    destruct (Client.sync _ _ _ _) as [this' uuid'] eqn:Hsync.
    split; [done|]. simpl. apply Forall_insert; [done|].
    unfold Client.sync in Hsync. rewrite copy_same in Hsync.
    case_decide; by simplify_eq.
  - preserves_step; [preserves_step|].
    preserves_step; [preserves_step; apply receive_keepsTables|].
    preserves_step; by apply updateClient_keepsTables.
Qed.

Lemma method_keepsTables (o : System.op (Update number)) :
  preserves keepsTables (System.method o).
Proof.
  destruct o as [online|client|client|client update|]; cbn [System.method].
  - preserves_step; [|preserves_step]. unfold ClientAPI.new.
    preserves_step; [preserves_step|].
    preserves_step.
    + preserves_step. intros [Hserver Hheap]. split; [done|]. simpl.
      apply Forall_app. split; [done|]. apply Forall_singleton. simpl.
      apply sound_empty.
    + preserves_step; [|preserves_step].
      destruct online; [apply comeOnline_keepsTables | preserves_step].
  - apply comeOnline_keepsTables.
  - unfold ClientAPI.goOffline. preserves_step.
    + unfold Server.disconnected. preserves_step. intros Hinv. exact Hinv.
    + by apply updateClient_keepsTables.
  - intros w. unfold ClientAPI.edit.
    destruct (Server.heap w !! client) as [this|] eqn:Hthis; [|done].
    unfold ClientAPI.send. simpl. rewrite Hthis.
    destruct (Client.online this).
    + apply (receive_keepsTables _
               {| Server.server := Server.server w; Server.heap := Server.heap w;
                  Server.uuid := S (Server.uuid w); Server.log := Server.log w |}).
    + by apply (updateClient_keepsTables client
               (fun this => Client.withOutbox this (Client.outbox this ++ [_]))
               (fun _ => eq_refl)
               {| Server.server := Server.server w; Server.heap := Server.heap w;
                  Server.uuid := S (Server.uuid w); Server.log := Server.log w |}).
  - apply process_keepsTables.
Qed.

Lemma run_tablesWellFormed (delay : nat) (ops : list (System.op (Update number))) :
  tablesWellFormed (System.run ops (System.initial delay)).
Proof.
  assert (forall w, tablesWellFormed w -> tablesWellFormed (System.run ops w)) as Hrun.
  { induction ops as [|o ops IH]; intros w Hinv; simpl; [done|].
    apply IH. by apply (method_keepsTables o w). }
  apply Hrun. split; [apply sound_empty | apply Forall_nil_2].
Qed.

(** For the eight updates, whatever the clients and the server have done
    since the server was constructed: [getData] of the server returns the
    serialization of its table, and [getData] of every client returns. For
    a client that is online it is the serialization of its table; for a
    client that is offline it is the serialization of its table with the
    updates of its outbox applied in order up to the first one that fails,
    which ends the loop: the updates after it are not applied. *)
Theorem getData_returns (delay : nat) (ops : list (System.op (Update number))) :
  let w := System.run ops (System.initial delay) in
  (exists data,
     Server.getData w = (w, Normal data) /\
     Table.serialize (Server.table (Server.server w)) = Normal data) /\
  Forall (fun this =>
            exists applied rest data,
              Message.update <$> Client.outbox this = applied ++ rest /\
              allApply applied (Client.table this) /\
              match rest with
              | [] => True
              | update :: _ =>
                  (apply update (applyAll applied (Client.table this))).2
                    = Normal false
              end /\
              Client.getData this = Normal data /\
              Table.serialize
                (if Client.online this then Client.table this
                 else applyAll applied (Client.table this)) = Normal data)
    (Server.heap w).
Proof.
  intros w. destruct (run_tablesWellFormed delay ops) as [Hserver Hheap].
  fold w in Hserver, Hheap. split.
  - destruct Hserver as [Hwf Hkeys].
    destruct (serialize_wellFormed _ Hwf Hkeys) as [columns [rows [Hdata _]]].
    eexists. unfold Server.getData, bind, gets, liftOutcome. by rewrite Hdata.
  - eapply Forall_impl; [exact Hheap|]. intros this [Hwf Hkeys]. simpl in Hwf, Hkeys.
    destruct (applyOutbox_stops (Client.outbox this) _ Hwf)
      as [applied [rest [Hsplit [Hall [Hrest Hrun]]]]].
    exists applied, rest. unfold Client.getData. destruct (Client.online this).
    + destruct (serialize_wellFormed _ Hwf Hkeys) as [columns [rows [Hdata _]]].
      eexists. by rewrite Hdata.
    + rewrite copy_same, Hrun. simpl.
      destruct (serialize_wellFormed _
                  (applyAll_wellFormed applied _ Hwf)
                  (applyAll_rowKeysUnique applied _ Hkeys))
        as [columns [rows [Hdata _]]].
      eexists. by rewrite Hdata.
Qed.
End getData_facts.

(** ** Two runs *)

Module Run.
(** A server with a delay, an offline client and an online one whose
    message waits in the queue. *)
Definition waiting : Server.world (option Z) (Update (option Z)) :=
  System.run [System.NewClient false; System.NewClient true;
              System.Edit 1%nat (CreateRow "ABC")]
    (System.initial 1).

(** Two online clients that edit in turn, one of which goes offline, edits
    and comes back. *)
Definition twoClients : list (System.op (Update (option Z))) :=
  [System.NewClient true; System.NewClient true;
   System.Edit 0%nat (CreateRow "ABC");
   System.Edit 1%nat (CreateColumn "123" Text);
   System.GoOffline 1%nat;
   System.Edit 1%nat (UpdateTextCellValue "ABC" "123" "foo");
   System.Edit 0%nat (newDestroyRow "ABC");
   System.ComeOnline 1%nat].
End Run.

Lemma server_leaves_disconnected_client_example :
  Server.heap (Server.receive Example.secondABC Run.waiting).1 !! 0%nat
    = Server.heap Run.waiting !! 0%nat /\
  Server.heap (Server.process Run.waiting).1 !! 0%nat
    = Server.heap Run.waiting !! 0%nat /\
  (0%nat ∉ Server.clients
     (Server.server (Server.receive Example.secondABC Run.waiting).1)) /\
  (0%nat ∉ Server.clients (Server.server (Server.process Run.waiting).1)).
Proof.
  apply (server_leaves_disconnected_client 0%nat Run.waiting Example.secondABC).
  apply (bool_decide_unpack _). by vm_compute.
Defined.

Lemma connected_clients_mirror_server_example :
  throwsTypeErrorsOnly Run.twoClients (System.initial 0) /\
  forall client,
    client ∈ Server.clients
      (Server.server (System.run Run.twoClients (System.initial 0))) ->
    exists this,
      Server.heap (System.run Run.twoClients (System.initial 0)) !! client
        = Some this /\
      Client.table this
        = Server.table (Server.server (System.run Run.twoClients (System.initial 0))) /\
      Client.version this
        = Server.version
            (Server.server (System.run Run.twoClients (System.initial 0))).
Proof.
  apply (connected_clients_mirror_server 0 Run.twoClients). by vm_compute.
Defined.
